(** * MCQ flashcards: the import pipeline and the card store

    A shallow embedding of [services/geminiService.ts], [hooks/useFlashcards.ts]
    and the parts of [App.tsx] and [components/FlashcardForm.tsx] that feed the
    card collection, followed by the properties of the specification that were
    established (or refuted) on it.

    Layout:
    - [JS]: the fragment of the JavaScript platform the code relies on
      (UTF-16 strings, [trim], the backtracking matcher behind the fence
      pattern, JSON values, [JSON.parse], truthiness, property access);
    - [Types]: [types.ts];
    - [Eff]: the state-and-exception monad the asynchronous code runs in;
    - [GeminiService], [UseFlashcards], [App], [FlashcardForm]: the code;
    - [Fixtures]: concrete surroundings for the examples;
    - [Notions]: the vocabulary of the statements;
    - [QuizMode], [DeckView], [AppViews], [FormLoad]: the quiz, the tabs and
      paging of the deck view, saving from the application and the loading
      of a card into the form;
    - [Notions2]: the vocabulary of the further properties;
    - the properties, each claim of the specification under its number,
      then the further properties of the code (X1, X2, ...). *)

From Stdlib Require Import List NArith ZArith QArith Qreduction Bool Ascii String.
From Stdlib Require Import Lia Sorted Permutation.
Import ListNotations.

Set Implicit Arguments.
Set Warnings "-register-all".
Set Warnings "-deprecated-syntactic-definition,-deprecated-reference".

Close Scope Q_scope.
Local Open Scope list_scope.
Local Open Scope bool_scope.

(* ================================================================== *)
(** * The JavaScript platform *)
(* ================================================================== *)

Module JS.

(** ** Strings

    A JavaScript string is a sequence of UTF-16 code units. *)

Definition char := N.
Definition jsstring := list char.

(** [str] turns an ASCII literal of this file into a JavaScript string. *)
Definition str (s : string) : jsstring :=
  map N_of_ascii (list_ascii_of_string s).

Definition jsstring_eqb (a b : jsstring) : bool :=
  if list_eq_dec N.eq_dec a b then true else false.

Fixpoint startsWith (s prefix : jsstring) : bool :=
  match prefix, s with
  | [], _ => true
  | p :: prefix', c :: s' => N.eqb p c && startsWith s' prefix'
  | _ :: _, [] => false
  end.

(** [WhiteSpace] and [LineTerminator] of ECMAScript: what [trim] strips and
    what [\s] matches. *)
Definition isWhiteSpace (c : char) : bool :=
  existsb (N.eqb c)
    [9; 10; 11; 12; 13; 32; 160; 5760; 8232; 8233; 8239; 8287; 12288; 65279]%N
  || (N.leb 8192 c && N.leb c 8202).

(** [\w] without the [u] and [i] flags: [[A-Za-z0-9_]]. *)
Definition isWordChar (c : char) : bool :=
  (N.leb 48 c && N.leb c 57) || (N.leb 65 c && N.leb c 90)
  || N.eqb c 95 || (N.leb 97 c && N.leb c 122).

Definition isLineFeed (c : char) : bool := N.eqb c 10.
Definition anyChar (c : char) : bool := true.

Fixpoint dropWhile (p : char -> bool) (s : jsstring) : jsstring :=
  match s with
  | c :: s' => if p c then dropWhile p s' else s
  | [] => []
  end.

Definition trimStart (s : jsstring) : jsstring := dropWhile isWhiteSpace s.
Definition trimEnd (s : jsstring) : jsstring := rev (dropWhile isWhiteSpace (rev s)).

(** [String.prototype.trim]. *)
Definition trim (s : jsstring) : jsstring := trimEnd (trimStart s).

(** [s.split(sep)[1]] for a one-unit separator: the text between the first
    and the second separator, [None] ([undefined]) when there is no
    separator. *)
Fixpoint upTo (sep : char) (s : jsstring) : jsstring :=
  match s with
  | c :: s' => if N.eqb c sep then [] else c :: upTo sep s'
  | [] => []
  end.

Fixpoint splitSecond (sep : char) (s : jsstring) : option jsstring :=
  match s with
  | c :: s' => if N.eqb c sep then Some (upTo sep s') else splitSecond sep s'
  | [] => None
  end.

(** ** The backtracking matcher

    The fence pattern only needs literals and one-character classes under
    [?], [*] and [*?].  A pattern is a sequence of such atoms, anchored at
    both ends ([^ ... $] without the [m] flag).  [matchAtoms] explores the
    alternatives in the order of the ECMAScript matcher: a greedy quantifier
    first tries one more repetition and falls back to the continuation, a
    lazy one tries the continuation first.  The result lists the text
    consumed by each atom on the first successful path. *)

Inductive atom :=
| Chr (c : char)
| Opt (p : char -> bool)
| Star (p : char -> bool)
| LazyStar (p : char -> bool).

Section Quantifiers.
Variable k : jsstring -> option (list jsstring).
Variable p : char -> bool.

Definition optional (s : jsstring) : option (list jsstring) :=
  match s with
  | x :: s' =>
      if p x then
        match k s' with
        | Some m => Some ([x] :: m)
        | None => option_map (cons []) (k s)
        end
      else option_map (cons []) (k s)
  | [] => option_map (cons []) (k s)
  end.

Fixpoint greedy (acc s : jsstring) : option (list jsstring) :=
  match s with
  | x :: s' =>
      if p x then
        match greedy (acc ++ [x]) s' with
        | Some m => Some m
        | None => option_map (cons acc) (k s)
        end
      else option_map (cons acc) (k s)
  | [] => option_map (cons acc) (k s)
  end.

Fixpoint lazy (acc s : jsstring) : option (list jsstring) :=
  match k s with
  | Some m => Some (acc :: m)
  | None =>
      match s with
      | x :: s' => if p x then lazy (acc ++ [x]) s' else None
      | [] => None
      end
  end.
End Quantifiers.

Fixpoint matchAtoms (r : list atom) (s : jsstring) : option (list jsstring) :=
  match r with
  | [] => match s with [] => Some [] | _ :: _ => None end
  | Chr c :: r' =>
      match s with
      | x :: s' => if N.eqb x c then option_map (cons [x]) (matchAtoms r' s') else None
      | [] => None
      end
  | Opt p :: r' => optional (matchAtoms r') p s
  | Star p :: r' => greedy (matchAtoms r') p [] s
  | LazyStar p :: r' => lazy (matchAtoms r') p [] s
  end.

(** ** JSON values

    Numbers are kept as the exact rational a numeric literal denotes.  The
    code only compares them with [0] and with array lengths and uses them
    as array indices; the rounding an engine applies to a literal that no
    double represents exactly is not modelled. *)

Inductive jsvalue :=
| JNull
| JBool (b : bool)
| JNum (q : Q)
| JStr (s : jsstring)
| JArr (elems : list jsvalue)
| JObj (props : list (jsstring * jsvalue)).

(** The result of a property read: [None] is [undefined]. *)
Definition jsref := option jsvalue.

(** An object built by [JSON.parse] keeps the last of several members with
    the same name. *)
Fixpoint lookupLast (key : jsstring) (props : list (jsstring * jsvalue)) : jsref :=
  match props with
  | [] => None
  | (k, v) :: rest =>
      match lookupLast key rest with
      | Some v' => Some v'
      | None => if jsstring_eqb k key then Some v else None
      end
  end.

(** [v.key] for a value other than [null] and for the member names the code
    reads ([question], [options], [correctOptionIndex], [explanation],
    [topic]): only objects have them. *)
Definition get (v : jsvalue) (key : jsstring) : jsref :=
  match v with
  | JObj props => lookupLast key props
  | _ => None
  end.

(** [ToBoolean]. *)
Definition truthy (r : jsref) : bool :=
  match r with
  | None => false
  | Some JNull => false
  | Some (JBool b) => b
  | Some (JNum q) => negb (Qeq_bool q 0%Q)
  | Some (JStr s) => match s with [] => false | _ :: _ => true end
  | Some (JArr _) => true
  | Some (JObj _) => true
  end.

Definition isString (v : jsvalue) : bool :=
  match v with JStr _ => true | _ => false end.

(** Number comparisons. *)
Definition num_lt (a b : Q) : bool := negb (Qle_bool b a).
Definition num_ge (a b : Q) : bool := Qle_bool b a.
Definition num_eq (a b : Q) : bool := Qeq_bool a b.
Definition num_of_nat (n : nat) : Q := inject_Z (Z.of_nat n).

(** [arr[n]] for a number [n]: the key is [ToString(n)], which names an
    element only when [n] is a non-negative integer below the length. *)
Definition isInteger (q : Q) : bool := Pos.eqb (Qden (Qred q)) 1.

Definition index {A : Type} (arr : list A) (n : Q) : option A :=
  if isInteger n && Z.leb 0 (Qnum (Qred n))
  then nth_error arr (Z.to_nat (Qnum (Qred n)))
  else None.

(** ** [JSON.parse] *)

Definition isJsonSpace (c : char) : bool :=
  N.eqb c 32 || N.eqb c 9 || N.eqb c 10 || N.eqb c 13.

Definition skipSpace (s : jsstring) : jsstring := dropWhile isJsonSpace s.

Definition isDigit (c : char) : bool := N.leb 48 c && N.leb c 57.

Definition hexVal (c : char) : option N :=
  if N.leb 48 c && N.leb c 57 then Some (c - 48)%N
  else if N.leb 65 c && N.leb c 70 then Some (c - 55)%N
  else if N.leb 97 c && N.leb c 102 then Some (c - 87)%N
  else None.

Fixpoint readDigits (acc : Z) (n : nat) (s : jsstring) : Z * nat * jsstring :=
  match s with
  | c :: s' =>
      if isDigit c then readDigits (acc * 10 + Z.of_N (c - 48)) (S n) s'
      else (acc, n, s)
  | [] => (acc, n, [])
  end.

(** The value of mantissa [m] scaled by [10^e]. *)
Definition scale (m e : Z) : Q :=
  if Z.leb 0 e then inject_Z (m * 10 ^ e)%Z
  else Qred (Qmake m (Z.to_pos (10 ^ (- e)))).

(** A numeric literal: an optional minus sign, an integer part without a
    leading zero, an optional fraction, an optional exponent. *)
Definition readSign (s : jsstring) : bool * jsstring :=
  match s with
  | c :: r => if N.eqb c 45 then (true, r) else (false, s)
  | [] => (false, s)
  end.

Definition readInteger (s : jsstring) : option (Z * jsstring) :=
  match s with
  | [] => None
  | c :: r =>
      if negb (isDigit c) then None
      else if N.eqb c 48 then Some (0%Z, r)
      else let '(ip, _, s2) := readDigits 0 0 s in Some (ip, s2)
  end.

(** The mantissa extended by the digits of the fraction, and how many
    there are. *)
Definition readFraction (ip : Z) (s : jsstring) : option (Z * nat * jsstring) :=
  match s with
  | d :: r =>
      if N.eqb d 46 then
        match readDigits ip 0 r with
        | (_, O, _) => None
        | (m, fl, s3) => Some (m, fl, s3)
        end
      else Some (ip, O, s)
  | [] => Some (ip, O, s)
  end.

Definition readExponent (s : jsstring) : option (Z * jsstring) :=
  match s with
  | e :: r =>
      if N.eqb e 101 || N.eqb e 69 then
        let (eneg, r') := 
          match r with
          | sg :: r' =>
              if N.eqb sg 45 then (true, r')
              else if N.eqb sg 43 then (false, r')
              else (false, r)
          | [] => (false, r)
          end in
        match readDigits 0 0 r' with
        | (_, O, _) => None
        | (x, _, s4) => Some (if eneg then (- x)%Z else x, s4)
        end
      else Some (0%Z, s)
  | [] => Some (0%Z, s)
  end.

Definition parseNumber (s : jsstring) : option (Q * jsstring) :=
  let (neg, s1) := readSign s in
  match readInteger s1 with
  | None => None
  | Some (ip, s2) =>
      match readFraction ip s2 with
      | None => None
      | Some (m, fl, s3) =>
          match readExponent s3 with
          | None => None
          | Some (x, s4) =>
              Some (scale (if neg then (- m)%Z else m) (x - Z.of_nat fl), s4)
          end
      end
  end.

(** The characters of a string literal after its opening quote. *)
Fixpoint parseChars (acc s : jsstring) : option (jsstring * jsstring) :=
  match s with
  | [] => None
  | c :: r =>
      if N.eqb c 34 then Some (rev acc, r)
      else if N.eqb c 92 then
        match r with
        | [] => None
        | e :: r' =>
            if N.eqb e 34 then parseChars (34%N :: acc) r'
            else if N.eqb e 92 then parseChars (92%N :: acc) r'
            else if N.eqb e 47 then parseChars (47%N :: acc) r'
            else if N.eqb e 98 then parseChars (8%N :: acc) r'
            else if N.eqb e 102 then parseChars (12%N :: acc) r'
            else if N.eqb e 110 then parseChars (10%N :: acc) r'
            else if N.eqb e 114 then parseChars (13%N :: acc) r'
            else if N.eqb e 116 then parseChars (9%N :: acc) r'
            else if N.eqb e 117 then
              match r' with
              | h1 :: h2 :: h3 :: h4 :: r'' =>
                  match hexVal h1, hexVal h2, hexVal h3, hexVal h4 with
                  | Some a, Some b, Some c', Some d =>
                      parseChars ((a * 4096 + b * 256 + c' * 16 + d)%N :: acc) r''
                  | _, _, _, _ => None
                  end
              | _ => None
              end
            else None
        end
      else if N.ltb c 32 then None
      else parseChars (c :: acc) r
  end.

Definition isPrefix (p : jsstring) (s : jsstring) : option jsstring :=
  if startsWith s p then Some (skipn (List.length p) s) else None.

(** The recursive descent over values.  [fuel] bounds the number of nested
    calls; [JSON_parse] below supplies more than the text can use. *)
Fixpoint parseValue (fuel : nat) (s : jsstring) : option (jsvalue * jsstring) :=
  match fuel with
  | O => None
  | S fuel' =>
      match skipSpace s with
      | [] => None
      | c :: r =>
          if N.eqb c 91 then
            match skipSpace r with
            | d :: r' =>
                if N.eqb d 93 then Some (JArr [], r')
                else parseElements fuel' [] r
            | [] => None
            end
          else if N.eqb c 123 then
            match skipSpace r with
            | d :: r' =>
                if N.eqb d 125 then Some (JObj [], r')
                else parseMembers fuel' [] r
            | [] => None
            end
          else if N.eqb c 34 then
            match parseChars [] r with
            | Some (t, r') => Some (JStr t, r')
            | None => None
            end
          else if N.eqb c 116 then
            option_map (pair (JBool true)) (isPrefix (str "rue") r)
          else if N.eqb c 102 then
            option_map (pair (JBool false)) (isPrefix (str "alse") r)
          else if N.eqb c 110 then
            option_map (pair JNull) (isPrefix (str "ull") r)
          else
            match parseNumber (c :: r) with
            | Some (q, r') => Some (JNum q, r')
            | None => None
            end
      end
  end
with parseElements (fuel : nat) (acc : list jsvalue) (s : jsstring)
  : option (jsvalue * jsstring) :=
  match fuel with
  | O => None
  | S fuel' =>
      match parseValue fuel' s with
      | None => None
      | Some (v, r) =>
          match skipSpace r with
          | c :: r' =>
              if N.eqb c 44 then parseElements fuel' (v :: acc) r'
              else if N.eqb c 93 then Some (JArr (rev (v :: acc)), r')
              else None
          | [] => None
          end
      end
  end
with parseMembers (fuel : nat) (acc : list (jsstring * jsvalue)) (s : jsstring)
  : option (jsvalue * jsstring) :=
  match fuel with
  | O => None
  | S fuel' =>
      match skipSpace s with
      | q :: r =>
          if negb (N.eqb q 34) then None else
          match parseChars [] r with
          | None => None
          | Some (key, r1) =>
              match skipSpace r1 with
              | colon :: r2 =>
                  if negb (N.eqb colon 58) then None else
                  match parseValue fuel' r2 with
                  | None => None
                  | Some (v, r3) =>
                      match skipSpace r3 with
                      | c :: r4 =>
                          if N.eqb c 44 then parseMembers fuel' ((key, v) :: acc) r4
                          else if N.eqb c 125 then Some (JObj (rev ((key, v) :: acc)), r4)
                          else None
                      | [] => None
                      end
                  end
              | [] => None
              end
          end
      | [] => None
      end
  end.

(** [JSON.parse(text)]: [None] stands for the [SyntaxError] it throws. *)
Definition JSON_parse (text : jsstring) : option jsvalue :=
  match parseValue (2 * List.length text + 2) text with
  | Some (v, rest) => match skipSpace rest with [] => Some v | _ :: _ => None end
  | None => None
  end.

End JS.

(* ================================================================== *)
(** * [types.ts] *)
(* ================================================================== *)

Module Types.
Import JS.

(** The TypeScript annotations are erased at run time.  A field is typed
    [jsvalue] here wherever the code stores a member of the parsed service
    reply without checking that it is a string.  The card's [id] is
    [cardId] here, the option's keeps its name. *)

Record MCQOption := {
  id : jsstring;
  text : jsvalue
}.

Record FlashcardMCQ := {
  cardId : jsstring;
  question : jsvalue;
  options : list MCQOption;
  correctOptionId : jsstring;
  topic : option jsstring;
  explanation : option jsstring;
  sourcePdfName : option jsstring
}.

(** The [Partial<FlashcardMCQ>] returned by [generateMCQWithGemini]. *)
Record GeneratedMCQ := {
  genQuestion : jsvalue;
  genOptions : list MCQOption;
  genCorrectOptionId : jsstring;
  genTopic : jsvalue;
  genExplanation : option jsstring
}.

End Types.

(* ================================================================== *)
(** * Effects *)
(* ================================================================== *)

Module Eff.
Import JS.

(** Values that can be thrown.  [DOMException], [Error], [TypeError] and
    [SyntaxError] are all instances of [Error]; [NonError] stands for any
    other thrown value (the [ProgressEvent] of a failed file read). *)
Inductive jserror :=
| DOMException (message name : jsstring)
| Error (message : jsstring)
| TypeError (message : jsstring)
| SyntaxError (message : jsstring)
| NonError.

Definition instanceofError (e : jserror) : bool :=
  match e with NonError => false | _ => true end.

Definition messageOf (e : jserror) : jsstring :=
  match e with
  | DOMException m _ | Error m | TypeError m | SyntaxError m => m
  | NonError => []
  end.

(** [error instanceof DOMException && error.name === 'AbortError'] *)
Definition isAbortError (e : jserror) : bool :=
  match e with
  | DOMException _ name => jsstring_eqb name (str "AbortError")
  | _ => false
  end.

(** Faults raised by the engine itself; the wording of their messages is
    the engine's. *)
Inductive fault :=
| JsonSyntax (text : jsstring)
| ReadOfNull (member : string)
| ReadOfUndefined (member : string)
| NotAFunction (expr : string).

Inductive level := LogWarn | LogError.

(** What a run can observe and change besides its result: how many
    identifiers were drawn, how often the abort signal was read and whether
    it was ever seen aborted, the console, the value stored under the
    application's [localStorage] key and the number of [setItem] calls. *)
Record world := {
  uuids : nat;
  signalReads : nat;
  abortSeen : bool;
  console : list (level * string);
  localStorage : option jsstring;
  setItemCalls : nat
}.

Definition initial : world :=
  {| uuids := 0; signalReads := 0; abortSeen := false; console := [];
     localStorage := None; setItemCalls := 0 |}.

Inductive result (A : Type) :=
| Ok (a : A)
| Throw (e : jserror).
Arguments Ok {A} a.
Arguments Throw {A} e.

Definition M (A : Type) : Type := world -> result A * world.

Definition ret {A} (a : A) : M A := fun w => (Ok a, w).
Definition throw {A} (e : jserror) : M A := fun w => (Throw e, w).

Definition bind {A B} (m : M A) (k : A -> M B) : M B :=
  fun w =>
    match m w with
    | (Ok a, w') => k a w'
    | (Throw e, w') => (Throw e, w')
    end.

(** [try { m } catch (e) { h e }] *)
Definition tryCatch {A} (m : M A) (h : jserror -> M A) : M A :=
  fun w =>
    match m w with
    | (Ok a, w') => (Ok a, w')
    | (Throw e, w') => h e w'
    end.

Definition log (l : level) (what : string) : M unit :=
  fun w =>
    (Ok tt, {| uuids := uuids w; signalReads := signalReads w;
               abortSeen := abortSeen w; console := console w ++ [(l, what)];
               localStorage := localStorage w; setItemCalls := setItemCalls w |}).

(** The abort signal, as the run sees it: the value of [signal.aborted] at
    each successive read.  [None] is a missing [signal] argument. *)
Definition AbortSignal := option (nat -> bool).

(** [signal?.aborted] *)
Definition aborted (signal : AbortSignal) : M bool :=
  fun w =>
    match signal with
    | None => (Ok false, w)
    | Some s =>
        let b := s (signalReads w) in
        (Ok b, {| uuids := uuids w; signalReads := S (signalReads w);
                  abortSeen := abortSeen w || b; console := console w;
                  localStorage := localStorage w; setItemCalls := setItemCalls w |})
    end.

(** [crypto.randomUUID()], drawing from the supply [gen]. *)
Definition randomUUID (gen : nat -> jsstring) : M jsstring :=
  fun w =>
    (Ok (gen (uuids w)),
     {| uuids := S (uuids w); signalReads := signalReads w;
        abortSeen := abortSeen w; console := console w;
        localStorage := localStorage w; setItemCalls := setItemCalls w |}).

(** [localStorage.getItem(key)] for the application's key; it throws when
    the storage is not [readable]. *)
Definition getItem (readable : bool) : M (option jsstring) :=
  fun w =>
    if readable then (Ok (localStorage w), w)
    else (Throw (DOMException (str "The operation is insecure.") (str "SecurityError")), w).

(** [localStorage.setItem(key, value)]; it throws when the value exceeds
    the [quota]. *)
Definition setItem (quota : jsstring -> bool) (value : jsstring) : M unit :=
  fun w =>
    if quota value then
      (Ok tt, {| uuids := uuids w; signalReads := signalReads w;
                 abortSeen := abortSeen w; console := console w;
                 localStorage := Some value; setItemCalls := S (setItemCalls w) |})
    else
      (Throw (DOMException (str "The quota has been exceeded.") (str "QuotaExceededError")),
       {| uuids := uuids w; signalReads := signalReads w;
          abortSeen := abortSeen w; console := console w;
          localStorage := localStorage w; setItemCalls := S (setItemCalls w) |}).

Declare Scope eff_scope.
Delimit Scope eff_scope with eff.
Notation "x <- m ;; k" := (bind m (fun x => k))
  (at level 100, m at next level, right associativity) : eff_scope.
Notation "m ;;; k" := (bind m (fun _ => k))
  (at level 100, right associativity) : eff_scope.

Fixpoint mapM {A B} (f : A -> M B) (l : list A) : M (list B) :=
  match l with
  | [] => ret []
  | a :: l' => bind (f a) (fun b => bind (mapM f l') (fun bs => ret (b :: bs)))
  end.

End Eff.

(* ================================================================== *)
(** * [services/geminiService.ts] *)
(* ================================================================== *)

Module GeminiService.
Import JS Types Eff.
Local Open Scope eff_scope.

(** The two requests the service receives.  Their prompts are fixed
    templates over the data kept here. *)
Inductive request :=
| TextRequest (topic : jsstring) (numOptions : Q)
| PdfRequest (base64PdfString : jsstring).

(** [await ai.models.generateContent(...)]: the [text] of the reply, or a
    rejection. *)
Inductive outcome :=
| Resolved (text : jsstring)
| Rejected (e : jserror).

(** What the module gets from outside: the client ([None] when [API_KEY] is
    not set), the identifier supply behind [crypto.randomUUID], and the
    message texts of engine faults. *)
Record platform := {
  ai : option (request -> outcome);
  uuid : nat -> jsstring;
  engineMessage : fault -> jsstring
}.

(** How the [FileReader] ends when nothing interrupts it. *)
Inductive reading :=
| Loaded (dataURL : jsstring)
| ReadFailed
| ReaderAborted.

Record File := {
  name : jsstring;
  readAsDataURL : reading
}.

Definition abortError (message : string) : jserror :=
  DOMException (str message) (str "AbortError").

(** [readFileAsBase64].  The second read of the signal is the [abort]
    listener: whether the signal fires before the reader is done. *)
Definition readFileAsBase64 (file : File) (signal : AbortSignal) : M jsstring :=
  b <- aborted signal ;;
  if b then throw (abortError "Aborted") else
  fired <- aborted signal ;;
  if fired then throw (abortError "Aborted") else
  match readAsDataURL file with
  | Loaded result =>
      match splitSecond 44%N result with
      | Some (c :: rest) => ret (c :: rest)
      | _ => throw (Error (str "Failed to extract base64 string from file."))
      end
  | ReadFailed => throw NonError
  | ReaderAborted => throw (abortError "Aborted by FileReader")
  end.

(** [fenceRegex], flag [s]: three backticks at the start of the text, an
    optional group of word characters ([\w] starred), [\s] starred, an
    optional line feed, the lazily starred [.] of group 2, an optional line
    feed, [\s] starred, three backticks at the end of the text.  The
    optional group around the word characters explores the same positions
    as the starred class alone, in the same order. *)
Definition fenceRegex : list atom :=
  [Chr 96; Chr 96; Chr 96; Star isWordChar; Star isWhiteSpace; Opt isLineFeed;
   LazyStar anyChar;
   Opt isLineFeed; Star isWhiteSpace; Chr 96; Chr 96; Chr 96]%N.

(** [match[2]] when [match && match[2]] holds. *)
Definition fenceBody (jsonStr : jsstring) : option jsstring :=
  match matchAtoms fenceRegex jsonStr with
  | Some m => match nth 6 m [] with [] => None | c :: body => Some (c :: body) end
  | None => None
  end.

(** [[
    let jsonStr = response.text.trim();
    const match = jsonStr.match(fenceRegex);
    if (match && match[2]) { jsonStr = match[2].trim(); }
    ]] *)
Definition stripFence (text : jsstring) : jsstring :=
  let jsonStr := trim text in
  match fenceBody jsonStr with
  | Some body => trim body
  | None => jsonStr
  end.

(** [x?.trim() || undefined] *)
Definition trimOrUndefined (P : platform) (expr : string) (x : jsref)
  : M (option jsstring) :=
  match x with
  | None | Some JNull => ret None
  | Some (JStr s) => ret (match trim s with [] => None | c :: t => Some (c :: t) end)
  | Some _ => throw (TypeError (engineMessage P (NotAFunction expr)))
  end.

Definition newOption (P : platform) (optText : jsvalue) : M MCQOption :=
  i <- randomUUID (uuid P) ;;
  ret {| id := i; text := optText |}.

Section Generate.
Variable P : platform.

(** The [if] guarding the single-question reply, for a reply other than
    [null]. *)
Definition invalidGenerated (generatedData : jsvalue) (numOptions : Q) : bool :=
  negb (truthy (get generatedData (str "question")))
  || match get generatedData (str "options") with
     | Some (JArr opts) =>
         negb (num_eq (num_of_nat (List.length opts)) numOptions)
         || match get generatedData (str "correctOptionIndex") with
            | Some (JNum n) => num_lt n 0%Q || num_ge n numOptions
            | _ => true
            end
     | _ => true
     end.

Definition generateBody (svc : request -> outcome) (topic : jsstring) (numOptions : Q)
  : M GeneratedMCQ :=
  match svc (TextRequest topic numOptions) with
  | Rejected e => throw e
  | Resolved text =>
      let jsonStr := stripFence text in
      generatedData <-
        match JSON_parse jsonStr with
        | Some v => ret v
        | None =>
            log LogError "JSON Parse Error during single MCQ generation. Raw string:" ;;;
            log LogError "Original parsing error:" ;;;
            throw (Error (str "Failed to parse response from AI: "
                          ++ engineMessage P (JsonSyntax jsonStr)))
        end ;;
      match generatedData with
      | JNull => throw (TypeError (engineMessage P (ReadOfNull "question")))
      | _ =>
          if invalidGenerated generatedData numOptions then
            throw (Error (str "Invalid response structure from Gemini API for single MCQ generation."))
          else
            let texts :=
              match get generatedData (str "options") with
              | Some (JArr l) => l
              | _ => []
              end in
            newOptions <- mapM (newOption P) texts ;;
            match
              match get generatedData (str "correctOptionIndex") with
              | Some (JNum n) => index newOptions n
              | _ => None
              end
            with
            | None => throw (TypeError (engineMessage P (ReadOfUndefined "id")))
            | Some correct =>
                expl <- trimOrUndefined P "generatedData.explanation?.trim"
                          (get generatedData (str "explanation")) ;;
                ret {| genQuestion :=
                         match get generatedData (str "question") with
                         | Some q => q
                         | None => JNull
                         end;
                       genOptions := newOptions;
                       genCorrectOptionId := id correct;
                       genTopic :=
                         match get generatedData (str "topic") with
                         | Some t => if truthy (Some t) then t else JStr topic
                         | None => JStr topic
                         end;
                       genExplanation := expl |}
            end
      end
  end.

(** [generateMCQWithGemini(topic, numOptions)] *)
Definition generateMCQWithGemini (topic : jsstring) (numOptions : Q) : M GeneratedMCQ :=
  match ai P with
  | None => throw (Error (str "Gemini API key not configured. Cannot generate questions."))
  | Some svc =>
      tryCatch (generateBody svc topic numOptions)
        (fun error =>
           log LogError "Error generating MCQ with Gemini:" ;;;
           if instanceofError error
           then throw (Error (str "Failed to generate MCQ: " ++ messageOf error))
           else throw (Error (str "Failed to generate MCQ due to an unknown error.")))
  end.
End Generate.

Section Extract.
Variable P : platform.
Variable signal : AbortSignal.

(** The [if] guarding each element of the reply, for an element other
    than [null]. *)
Definition invalidItem (item : jsvalue) : bool :=
  negb (truthy (get item (str "question")))
  || match get item (str "options") with
     | Some (JArr opts) =>
         existsb (fun opt => negb (isString opt)) opts
         || match get item (str "correctOptionIndex") with
            | Some (JNum n) => num_lt n 0%Q || num_ge n (num_of_nat (List.length opts))
            | _ => true
            end
     | _ => true
     end.

(** The body of the [for] loop after the guard: the element becomes a
    card.  The object literal draws the card's identifier before it reads
    [mcqOptions[item.correctOptionIndex].id]. *)
Definition promote (item : jsvalue) : M FlashcardMCQ :=
  let texts :=
    match get item (str "options") with
    | Some (JArr l) => l
    | _ => []
    end in
  mcqOptions <- mapM (newOption P) texts ;;
  cid <- randomUUID (uuid P) ;;
  match
    match get item (str "correctOptionIndex") with
    | Some (JNum n) => index mcqOptions n
    | _ => None
    end
  with
  | None => throw (TypeError (engineMessage P (ReadOfUndefined "id")))
  | Some correct =>
      expl <- trimOrUndefined P "item.explanation?.trim" (get item (str "explanation")) ;;
      tpc <- trimOrUndefined P "item.topic?.trim" (get item (str "topic")) ;;
      ret {| cardId := cid;
             question :=
               match get item (str "question") with
               | Some q => q
               | None => JNull
               end;
             options := mcqOptions;
             correctOptionId := id correct;
             topic := tpc;
             explanation := expl;
             sourcePdfName := None |}
  end.

(** [for (const item of extractedDataArray) { ... }], with the cards
    pushed so far. *)
Fixpoint processItems (items : list jsvalue) (flashcards : list FlashcardMCQ)
  : M (list FlashcardMCQ) :=
  match items with
  | [] => ret flashcards
  | item :: rest =>
      b <- aborted signal ;;
      if b then throw (abortError "Aborted during processing of results") else
      match item with
      | JNull => throw (TypeError (engineMessage P (ReadOfNull "question")))
      | _ =>
          if invalidItem item then
            log LogWarn "Skipping invalid MCQ item from PDF:" ;;;
            processItems rest flashcards
          else
            card <- promote item ;;
            processItems rest (flashcards ++ [card])
      end
  end.

Definition parseFailurePrefix : jsstring :=
  str "Failed to parse MCQs from PDF due to invalid JSON format:".

(** The [try] block around the request and everything after it. *)
Definition extractBody (svc : request -> outcome) (base64PdfString : jsstring)
  : M (list FlashcardMCQ) :=
  match svc (PdfRequest base64PdfString) with
  | Rejected e => throw e
  | Resolved text =>
      b <- aborted signal ;;
      if b then throw (abortError "Aborted during or after API call") else
      let jsonStr := stripFence text in
      extractedDataArray <-
        match JSON_parse jsonStr with
        | Some v => ret v
        | None =>
            log LogError "JSON Parse Error during PDF MCQ extraction. Raw string received from Gemini:" ;;;
            log LogError "Original parsing error details:" ;;;
            throw (Error (parseFailurePrefix ++ str " "
                          ++ engineMessage P (JsonSyntax jsonStr)))
        end ;;
      match extractedDataArray with
      | JArr items => processItems items []
      | _ =>
          log LogError "Invalid response structure from Gemini API for PDF: Expected an array, got:" ;;;
          log LogError "Raw string was:" ;;;
          throw (Error (str "Invalid response structure from Gemini API: Expected an array."))
      end
  end.

(** [extractMCQsFromPDF(pdfFile, signal)] *)
Definition extractMCQsFromPDF (pdfFile : File) : M (list FlashcardMCQ) :=
  match ai P with
  | None => throw (Error (str "Gemini API key not configured. Cannot process PDF."))
  | Some svc =>
      b <- aborted signal ;;
      if b then throw (abortError "Aborted before reading file") else
      base64PdfString <-
        tryCatch (readFileAsBase64 pdfFile signal)
          (fun error =>
             if isAbortError error then throw error else
             log LogError "Error reading PDF file:" ;;;
             throw (Error (str "Failed to read PDF file: "
                           ++ (if instanceofError error then messageOf error
                               else str "Unknown error")))) ;;
      b' <- aborted signal ;;
      if b' then throw (abortError "Aborted after reading file, before API call") else
      tryCatch (extractBody svc base64PdfString)
        (fun error =>
           if isAbortError error then throw error else
           log LogError "Error extracting MCQs from PDF with Gemini:" ;;;
           if instanceofError error then
             if startsWith (messageOf error) parseFailurePrefix then throw error
             else throw (Error (str "Failed to extract MCQs from PDF: " ++ messageOf error))
           else throw (Error (str "Failed to extract MCQs from PDF due to an unknown error.")))
  end.
End Extract.

End GeminiService.

(* ================================================================== *)
(** * [hooks/useFlashcards.ts] *)
(* ================================================================== *)

Module UseFlashcards.
Import JS Types Eff.
Local Open Scope eff_scope.

Section Hook.
(** The behaviour of the browser's storage, the texts of engine faults and
    [JSON.stringify] on a card list. *)
Variable readable : bool.
Variable quota : jsstring -> bool.
Variable engineMessage : fault -> jsstring.
Variable JSON_stringify : list FlashcardMCQ -> jsstring.

(** The initialiser of the [flashcards] state.  The parsed value is
    returned as it is; nothing inspects its shape. *)
Definition loadFlashcards : M jsvalue :=
  tryCatch
    (storedFlashcards <- getItem readable ;;
     match storedFlashcards with
     | Some (c :: rest) =>
         match JSON_parse (c :: rest) with
         | Some v => ret v
         | None => throw (SyntaxError (engineMessage (JsonSyntax (c :: rest))))
         end
     | _ => ret (JArr [])
     end)
    (fun error =>
       log LogError "Error loading flashcards from localStorage:" ;;;
       ret (JArr [])).

(** The effect that runs whenever [flashcards] has changed. *)
Definition persist (flashcards : list FlashcardMCQ) : M unit :=
  tryCatch (setItem quota (JSON_stringify flashcards))
    (fun error => log LogError "Error saving flashcards to localStorage:").

(** [setFlashcards(update)] followed by the effect it triggers. *)
Definition setFlashcards (update : list FlashcardMCQ -> list FlashcardMCQ)
    (prev : list FlashcardMCQ) : M (list FlashcardMCQ) :=
  let next := update prev in
  persist next ;;;
  ret next.

Definition appendCard (card : FlashcardMCQ) (prev : list FlashcardMCQ) :=
  prev ++ [card].

Definition replaceCard (updatedCard : FlashcardMCQ) (prev : list FlashcardMCQ) :=
  map (fun card =>
         if jsstring_eqb (cardId card) (cardId updatedCard) then updatedCard else card)
      prev.

Definition removeCard (id : jsstring) (prev : list FlashcardMCQ) :=
  filter (fun card => negb (jsstring_eqb (cardId card) id)) prev.

Definition addFlashcard (card : FlashcardMCQ) := setFlashcards (appendCard card).
Definition updateFlashcard (updatedCard : FlashcardMCQ) := setFlashcards (replaceCard updatedCard).
Definition deleteFlashcard (id : jsstring) := setFlashcards (removeCard id).
End Hook.

End UseFlashcards.

(* ================================================================== *)
(** * [App.tsx] *)
(* ================================================================== *)

Module App.
Import JS Types Eff GeminiService UseFlashcards.
Local Open Scope eff_scope.

(** The default comparison of [Array.prototype.sort] on strings: code unit
    by code unit. *)
Fixpoint lexLeb (a b : jsstring) : bool :=
  match a, b with
  | [], _ => true
  | _ :: _, [] => false
  | x :: a', y :: b' => N.ltb x y || (N.eqb x y && lexLeb a' b')
  end.

Fixpoint insertSorted (x : jsstring) (l : list jsstring) : list jsstring :=
  match l with
  | [] => [x]
  | y :: l' => if lexLeb x y then x :: y :: l' else y :: insertSorted x l'
  end.

(** [Array.prototype.sort()] without a comparison function, on strings. *)
Definition sort (l : list jsstring) : list jsstring :=
  fold_right insertSorted [] l.

(** [Set.prototype.add] on a set kept in insertion order. *)
Definition setAdd (x : jsstring) (s : list jsstring) : list jsstring :=
  if existsb (jsstring_eqb x) s then s else s ++ [x].

(** [[
    const sources = new Set<string>();
    flashcards.forEach(card => { if (card.sourcePdfName) sources.add(card.sourcePdfName); });
    return Array.from(sources).sort();
    ]] *)
Definition addSource (sources : list jsstring) (card : FlashcardMCQ) : list jsstring :=
  match sourcePdfName card with
  | Some (c :: n) => setAdd (c :: n) sources
  | _ => sources
  end.

Definition collectSources (flashcards : list FlashcardMCQ) : list jsstring :=
  fold_left addSource flashcards [].

Definition uniquePdfSources (flashcards : list FlashcardMCQ) : list jsstring :=
  sort (collectSources flashcards).

Inductive messageType := MsgInfo | MsgSuccess | MsgError | MsgWarning.

Section PdfImport.
Variable P : platform.
Variable quota : jsstring -> bool.
Variable JSON_stringify : list FlashcardMCQ -> jsstring.

Definition apiKeyAvailable : bool :=
  match ai P with Some _ => true | None => false end.

Definition withSource (file : File) (card : FlashcardMCQ) : FlashcardMCQ :=
  {| cardId := cardId card; question := question card; options := options card;
     correctOptionId := correctOptionId card; topic := topic card;
     explanation := explanation card; sourcePdfName := Some (name file) |}.

(** [handlePdfFileSelected(file)], started on the collection [flashcards]
    with the signal of a fresh [AbortController].  It returns the
    collection afterwards and the kind of message shown. *)
Definition handlePdfFileSelected (file : File) (signal : nat -> bool)
    (flashcards : list FlashcardMCQ) : M (list FlashcardMCQ * messageType) :=
  if negb apiKeyAvailable then ret (flashcards, MsgError) else
  tryCatch
    (extractedCards <- extractMCQsFromPDF P (Some signal) file ;;
     b <- aborted (Some signal) ;;
     if b then ret (flashcards, MsgWarning) else
     match extractedCards with
     | _ :: _ =>
         let newFlashcardsWithSource := map (withSource file) extractedCards in
         next <- setFlashcards quota JSON_stringify
                   (fun prev => prev ++ newFlashcardsWithSource) flashcards ;;
         ret (next, MsgSuccess)
     | [] => ret (flashcards, MsgInfo)
     end)
    (fun error =>
       if isAbortError error then ret (flashcards, MsgWarning)
       else log LogError "PDF Import Error:" ;;; ret (flashcards, MsgError)).
End PdfImport.

End App.

(* ================================================================== *)
(** * [components/FlashcardForm.tsx] *)
(* ================================================================== *)

Module FlashcardForm.
Import JS Types Eff.
Local Open Scope eff_scope.

(** The state of the form's inputs. *)
Record FormState := {
  formQuestion : jsstring;
  formOptions : list jsstring;
  formCorrectOptionIndex : option nat;
  formTopic : jsstring;
  formExplanation : jsstring
}.

Definition blankToUndefined (s : jsstring) : option jsstring :=
  match trim s with [] => None | c :: t => Some (c :: t) end.

Section Submit.
Variable gen : nat -> jsstring.
Variable engineMessage : fault -> jsstring.

(** [initialCard?.options[index]?.id || crypto.randomUUID()] *)
Definition optionId (initialOptions : list MCQOption) (index : nat) : M jsstring :=
  match nth_error initialOptions index with
  | Some o => match id o with [] => randomUUID gen | c :: r => ret (c :: r) end
  | None => randomUUID gen
  end.

(** [options.map((optText, index) => ...)], from position [index] on. *)
Fixpoint newMCQOptionsFrom (initialOptions : list MCQOption) (index : nat)
    (texts : list jsstring) : M (list MCQOption) :=
  match texts with
  | [] => ret []
  | optText :: rest =>
      i <- optionId initialOptions index ;;
      os <- newMCQOptionsFrom initialOptions (S index) rest ;;
      ret ({| id := i; text := JStr optText |} :: os)
  end.

(** [handleSubmit]: [None] when the form is rejected with its error
    message, otherwise the card handed to [onSave]. *)
Definition handleSubmit (initialCard : option FlashcardMCQ) (st : FormState)
  : M (option FlashcardMCQ) :=
  match trim (formQuestion st), formCorrectOptionIndex st with
  | [], _ => ret None
  | _ :: _, None => ret None
  | _ :: _, Some correctOptionIndex =>
      if existsb (fun opt => match trim opt with [] => true | _ :: _ => false end)
                 (formOptions st)
      then ret None
      else
        newMCQOptions <-
          newMCQOptionsFrom
            (match initialCard with Some c => options c | None => [] end)
            0 (formOptions st) ;;
        cid <- match initialCard with
               | Some c => match cardId c with [] => randomUUID gen | x :: r => ret (x :: r) end
               | None => randomUUID gen
               end ;;
        match nth_error newMCQOptions correctOptionIndex with
        | None => throw (TypeError (engineMessage (ReadOfUndefined "id")))
        | Some correct =>
            ret (Some {| cardId := cid;
                         question := JStr (formQuestion st);
                         options := newMCQOptions;
                         correctOptionId := id correct;
                         topic := blankToUndefined (formTopic st);
                         explanation := blankToUndefined (formExplanation st);
                         sourcePdfName :=
                           match initialCard with
                           | Some c => sourcePdfName c
                           | None => None
                           end |})
        end
  end.
End Submit.

End FlashcardForm.

(* ================================================================== *)
(** * Concrete surroundings for the examples *)
(* ================================================================== *)

Module Fixtures.
Import JS Types Eff GeminiService.

(** One choice of fault texts, after V8. *)
Definition v8 (f : fault) : jsstring :=
  match f with
  | JsonSyntax t => str "Unexpected token in JSON text " ++ t
  | ReadOfNull m => str "Cannot read properties of null (reading '" ++ str m ++ str "')"
  | ReadOfUndefined m =>
      str "Cannot read properties of undefined (reading '" ++ str m ++ str "')"
  | NotAFunction e => str e ++ str " is not a function"
  end.

(** An identifier supply without repetitions: the [n]-th identifier is
    [n + 1] times the letter x. *)
Definition serial (n : nat) : jsstring := repeat 120%N (S n).

(** JSON text written with apostrophes in place of quotation marks. *)
Definition json (s : string) : jsstring :=
  map (fun c => if N.eqb c 39 then 34%N else c) (str s).

(** A configured client that answers every request with [text]. *)
Definition replying (text : jsstring) : platform :=
  {| ai := Some (fun _ => Resolved text); uuid := serial; engineMessage := v8 |}.

Definition pdf : File :=
  {| name := str "notes.pdf";
     readAsDataURL := Loaded (str "data:application/pdf;base64,JVBERi0xLjQK") |}.

(** A storage that refuses every write, and one that accepts all. *)
Definition full (value : jsstring) : bool := false.
Definition roomy (value : jsstring) : bool := true.

(** A stand-in for [JSON.stringify] on card lists: the card identifiers,
    one per line. *)
Definition idsOnly (cards : list FlashcardMCQ) : jsstring :=
  List.concat (map (fun c => cardId c ++ [10%N]) cards).

Definition card (i q : string) (source : option jsstring) : FlashcardMCQ :=
  {| cardId := str i; question := JStr (str q);
     options := [ {| id := str "a"; text := JStr (str "yes") |};
                  {| id := str "b"; text := JStr (str "no") |} ];
     correctOptionId := str "a"; topic := None; explanation := None;
     sourcePdfName := source |}.

(** The world at start-up with [text] stored under the application's key. *)
Definition storing (text : jsstring) : world :=
  {| uuids := 0; signalReads := 0; abortSeen := false; console := [];
     localStorage := Some text; setItemCalls := 0 |}.

End Fixtures.

(* ================================================================== *)
(** * Notions used in the statements *)
(* ================================================================== *)

Module Notions.
Import JS Types.

(** "Replaces the first element whose id matches": only the first. *)
Fixpoint replaceFirst (card : FlashcardMCQ) (l : list FlashcardMCQ) : list FlashcardMCQ :=
  match l with
  | [] => []
  | c :: l' =>
      if jsstring_eqb (cardId c) (cardId card) then card :: l'
      else c :: replaceFirst card l'
  end.

(** Ascending, and strictly ascending, in the code-unit order. *)
Definition lexLe (a b : jsstring) : Prop := App.lexLeb a b = true.
Definition lexLt (a b : jsstring) : Prop := App.lexLeb a b = true /\ a <> b.

(** "Exactly one option has the id": the number of options with it. *)
Definition optionsWithId (i : jsstring) (opts : list MCQOption) : nat :=
  List.length (filter (fun o => jsstring_eqb (id o) i) opts).

(** "options.length equals optionCount" and "correctOptionIndex lies in
    [0, optionCount)", for a reply of the service. *)
Definition optionCountIs (reply : jsvalue) (optionCount : Q) : Prop :=
  exists opts, get reply (str "options") = Some (JArr opts)
               /\ (num_of_nat (List.length opts) == optionCount)%Q.

Definition indexWithin (reply : jsvalue) (optionCount : Q) : Prop :=
  exists i, get reply (str "correctOptionIndex") = Some (JNum i)
            /\ (0 <= i)%Q /\ (i < optionCount)%Q.

(** The fence marker. *)
Definition backticks : jsstring := [96; 96; 96]%N.

(** A reply wrapped in a fenced block: the opening marker with an optional
    language tag, a line feed, the text, a line feed, the closing marker. *)
Definition fenced (lang text : jsstring) : jsstring :=
  str "```" ++ lang ++ [10%N] ++ text ++ [10%N] ++ str "```".

(** The options [options.map(optText => ...)] builds when the next
    identifier drawn is the [n]-th. *)
Fixpoint freshOptions (gen : nat -> jsstring) (n : nat) (texts : list jsvalue)
  : list MCQOption :=
  match texts with
  | [] => []
  | t :: rest => {| id := gen n; text := t |} :: freshOptions gen (S n) rest
  end.

(** The shape of a card promoted from [item]. *)
Definition promoted (P : GeminiService.platform) (item : jsvalue) (c : FlashcardMCQ) : Prop :=
  exists n texts,
    get item (str "options") = Some (JArr texts)
    /\ options c = freshOptions (GeminiService.uuid P) n texts
    /\ (exists o, In o (options c) /\ correctOptionId c = id o)
    /\ get item (str "question") = Some (question c)
    /\ truthy (Some (question c)) = true
    /\ existsb (fun opt => negb (isString opt)) texts = false.

(** A computation that leaves the storage alone and that, once it has seen
    the signal aborted, can only end by throwing an [AbortError]. *)
Definition cancellable {A : Type} (m : Eff.M A) : Prop :=
  forall w r w', m w = (r, w') ->
    Eff.localStorage w' = Eff.localStorage w
    /\ Eff.setItemCalls w' = Eff.setItemCalls w
    /\ (Eff.abortSeen w = false -> Eff.abortSeen w' = true ->
        exists e, r = Eff.Throw e /\ Eff.isAbortError e = true).

(** The platform [P] with a client that answers every request with [text]. *)
Definition withReply (P : GeminiService.platform) (text : jsstring) : GeminiService.platform :=
  {| GeminiService.ai := Some (fun _ => GeminiService.Resolved text);
     GeminiService.uuid := GeminiService.uuid P;
     GeminiService.engineMessage := GeminiService.engineMessage P |}.

(** An element of the reply typed as [GeminiPDFMCQResponseItem] says, as
    far as the loop depends on it: it is not [null], a numeric
    [correctOptionIndex] is an integer, and [explanation] and [topic] are
    strings when present. *)
Definition trimmable (r : jsref) : Prop :=
  r = None \/ r = Some JNull \/ exists s, r = Some (JStr s).

Definition wellFormedItem (item : jsvalue) : Prop :=
  item <> JNull
  /\ (forall n, get item (str "correctOptionIndex") = Some (JNum n) -> isInteger n = true)
  /\ trimmable (get item (str "explanation"))
  /\ trimmable (get item (str "topic")).

Definition validItem (item : jsvalue) : bool := negb (GeminiService.invalidItem item).

(** A text without white space at either end. *)
Definition unpadded (s : jsstring) : Prop :=
  (forall c r, s = c :: r -> isWhiteSpace c = false)
  /\ (forall r c, s = r ++ [c] -> isWhiteSpace c = false).

(** Every value the computation can return satisfies [Q]. *)
Definition returns {A : Type} (Q : A -> Prop) (m : Eff.M A) : Prop :=
  forall w a w', m w = (Eff.Ok a, w') -> Q a.

End Notions.

(* ================================================================== *)
(** * [components/QuizMode.tsx] *)
(* ================================================================== *)

Module QuizMode.
Import JS Types.

Section Shuffle.
Context {T : Type}.

(** [array[k] = x] for an index inside the array. *)
Fixpoint assign (l : list T) (k : nat) (x : T) : list T :=
  match l, k with
  | [], _ => []
  | _ :: l', O => x :: l'
  | y :: l', S k' => y :: assign l' k' x
  end.

(** [[newArray[i], newArray[j]] = [newArray[j], newArray[i]]] for two indices
    inside the array.  [None] stands for an index outside it: the source
    would then store [undefined] and lengthen the array, which a list of
    cards does not represent. *)
Definition swap (newArray : list T) (i j : nat) : option (list T) :=
  match nth_error newArray i, nth_error newArray j with
  | Some x, Some y => Some (assign (assign newArray i y) j x)
  | _, _ => None
  end.

(** The loop of [shuffleArray] from index [i] down to 1.  [draw i] is the
    value of [Math.floor(Math.random() * (i + 1))] in the round with index
    [i]; the floating-point product is not modelled, only its result. *)
Fixpoint shuffleFrom (draw : nat -> nat) (i : nat) (newArray : list T) : option (list T) :=
  match i with
  | O => Some newArray
  | S i' =>
      match swap newArray i (draw i) with
      | Some swapped => shuffleFrom draw i' swapped
      | None => None
      end
  end.

(** The Fisher-Yates [shuffleArray].  The copy [[...array]] is the list
    itself. *)
Definition shuffleArray (draw : nat -> nat) (array : list T) : option (list T) :=
  shuffleFrom draw (List.length array - 1) array.
End Shuffle.

(** The state of the component. *)
Record QuizState := {
  quizCards : list FlashcardMCQ;
  currentIndex : nat;
  selectedOptionId : option jsstring;
  score : nat;
  showAnswer : bool;
  quizFinished : bool
}.

(** [initializeQuiz] on the deck [flashcards]. *)
Definition initializeQuiz (draw : nat -> nat) (flashcards : list FlashcardMCQ)
  : option QuizState :=
  match shuffleArray draw flashcards with
  | Some shuffled =>
      Some {| quizCards := shuffled; currentIndex := 0; selectedOptionId := None;
              score := 0; showAnswer := false; quizFinished := false |}
  | None => None
  end.

(** [quizCards[currentIndex]] *)
Definition currentCard (st : QuizState) : option FlashcardMCQ :=
  nth_error (quizCards st) (currentIndex st).

(** [handleOptionSelect(optionId)].  [None] stands for the [TypeError] of
    reading [currentCard.correctOptionId] when there is no current card. *)
Definition handleOptionSelect (optionId : jsstring) (st : QuizState) : option QuizState :=
  if showAnswer st then Some st else
  match currentCard st with
  | None => None
  | Some card =>
      Some {| quizCards := quizCards st; currentIndex := currentIndex st;
              selectedOptionId := Some optionId;
              score := if jsstring_eqb optionId (correctOptionId card)
                       then score st + 1 else score st;
              showAnswer := true; quizFinished := quizFinished st |}
  end.

(** [handleNextQuestion] *)
Definition handleNextQuestion (st : QuizState) : QuizState :=
  if Z.ltb (Z.of_nat (currentIndex st)) (Z.of_nat (List.length (quizCards st)) - 1) then
    {| quizCards := quizCards st; currentIndex := currentIndex st + 1;
       selectedOptionId := None; score := score st;
       showAnswer := false; quizFinished := quizFinished st |}
  else
    {| quizCards := quizCards st; currentIndex := currentIndex st;
       selectedOptionId := selectedOptionId st; score := score st;
       showAnswer := showAnswer st; quizFinished := true |}.

(** What the user can do: pick an option, go on, restart the quiz (with
    the draws of the new shuffle). *)
Inductive event :=
| Select (optionId : jsstring)
| Next
| Restart (draw : nat -> nat).

Definition handle (flashcards : list FlashcardMCQ) (e : event) (st : QuizState)
  : option QuizState :=
  match e with
  | Select optionId => handleOptionSelect optionId st
  | Next => Some (handleNextQuestion st)
  | Restart draw => initializeQuiz draw flashcards
  end.

Fixpoint play (flashcards : list FlashcardMCQ) (events : list event) (st : QuizState)
  : option QuizState :=
  match events with
  | [] => Some st
  | e :: rest =>
      match handle flashcards e st with
      | Some st' => play flashcards rest st'
      | None => None
      end
  end.

(** The user who picks the correct option of every card and goes on. *)
Fixpoint answerCorrectly (rounds : nat) (st : QuizState) : option QuizState :=
  match rounds with
  | O => Some st
  | S rounds' =>
      match currentCard st with
      | None => None
      | Some card =>
          match handleOptionSelect (correctOptionId card) st with
          | Some st' => answerCorrectly rounds' (handleNextQuestion st')
          | None => None
          end
      end
  end.

End QuizMode.

(* ================================================================== *)
(** * [components/DeckView.tsx] *)
(* ================================================================== *)

Module DeckView.
Import JS Types.

(** [card.sourcePdfName === sourceName] *)
Definition fromSource (sourceName : jsstring) (card : FlashcardMCQ) : bool :=
  match sourcePdfName card with
  | Some n => jsstring_eqb n sourceName
  | None => false
  end.

(** [displayedCards]; [None] is the tab of all cards. *)
Definition displayedCards (flashcards : list FlashcardMCQ) (activePdfSource : option jsstring)
  : list FlashcardMCQ :=
  match activePdfSource with
  | None => flashcards
  | Some s => filter (fromSource s) flashcards
  end.

Definition getCardCountForSource (flashcards : list FlashcardMCQ)
    (sourceName : option jsstring) : nat :=
  match sourceName with
  | None => List.length flashcards
  | Some s => List.length (filter (fromSource s) flashcards)
  end.

(** [handleNext] and [handlePrevious], on the index. *)
Definition handleNext (displayed : list FlashcardMCQ) (currentIndex : nat) : nat :=
  if Z.ltb (Z.of_nat currentIndex) (Z.of_nat (List.length displayed) - 1)
  then currentIndex + 1 else currentIndex.

Definition handlePrevious (currentIndex : nat) : nat :=
  if Nat.ltb 0 currentIndex then currentIndex - 1 else currentIndex.

End DeckView.

(* ================================================================== *)
(** * [App.tsx]: views and saving *)
(* ================================================================== *)

Module AppViews.
Import JS Types Eff UseFlashcards.
Local Open Scope eff_scope.

Inductive AppView := home | create | edit | deck | quiz | library.

Definition AppView_eqb (a b : AppView) : bool :=
  match a, b with
  | home, home | create, create | edit, edit
  | deck, deck | quiz, quiz | library, library => true
  | _, _ => false
  end.

Record AppState := {
  currentView : AppView;
  cardToEdit : option FlashcardMCQ
}.

Definition navigateTo (view : AppView) (st : AppState) : AppState :=
  {| currentView := view;
     cardToEdit := if AppView_eqb view edit then cardToEdit st else None |}.

Definition handleSetCardToEdit (card : FlashcardMCQ) (st : AppState) : AppState :=
  {| currentView := edit; cardToEdit := Some card |}.

Section Saving.
Variable quota : jsstring -> bool.
Variable JSON_stringify : list FlashcardMCQ -> jsstring.

(** [handleSaveFlashcard(card)] *)
Definition handleSaveFlashcard (card : FlashcardMCQ) (st : AppState)
    (flashcards : list FlashcardMCQ) : M (list FlashcardMCQ * AppState) :=
  next <- (match currentView st, cardToEdit st with
           | edit, Some _ => updateFlashcard quota JSON_stringify card flashcards
           | _, _ => addFlashcard quota JSON_stringify card flashcards
           end) ;;
  ret (next, navigateTo home st).

End Saving.

End AppViews.

(* ================================================================== *)
(** * [components/FlashcardForm.tsx]: loading a card into the form *)
(* ================================================================== *)

Module FormLoad.
Import JS Types.

(** [[...initialOptionsTexts, '', '', '', ''].slice(0, 4)] *)
Definition paddedOptions (initialCard : FlashcardMCQ) : list jsvalue :=
  firstn 4 (map text (options initialCard) ++ [JStr []; JStr []; JStr []; JStr []]).

(** [array.findIndex(p)], [None] for [-1]. *)
Fixpoint findIndex {T : Type} (p : T -> bool) (l : list T) : option nat :=
  match l with
  | [] => None
  | x :: l' => if p x then Some 0 else option_map S (findIndex p l')
  end.

(** The index handed to [setCorrectOptionIndex]: [null] when no option has
    the card's [correctOptionId]. *)
Definition correctIndex (initialCard : FlashcardMCQ) : option nat :=
  findIndex (fun opt => jsstring_eqb (id opt) (correctOptionId initialCard))
            (options initialCard).

(** The index [handleGenerateWithAI] hands to [setCorrectOptionIndex] after
    a generation: the position of the first generated option that has the
    generated [correctOptionId], [null] when there is none. *)
Definition generatedCorrectIndex (generatedData : GeneratedMCQ) : option nat :=
  findIndex (fun opt => jsstring_eqb (id opt) (genCorrectOptionId generatedData))
            (genOptions generatedData).

End FormLoad.

(* ================================================================== *)
(** * Further notions *)
(* ================================================================== *)

Module Notions2.
Import JS Types Eff GeminiService.

(** A signal that is missing or never yields [aborted]. *)
Definition quiet (signal : AbortSignal) : Prop :=
  match signal with
  | None => True
  | Some s => forall k, s k = false
  end.

(** [x?.trim() || undefined] as a value, for [x] a string, [null] or
    [undefined]. *)
Definition trimmedField (x : jsref) : option jsstring :=
  match x with
  | Some (JStr s) => match trim s with [] => None | c :: t => Some (c :: t) end
  | _ => None
  end.

(** The card [c] is the element [item] of the reply: its question, its
    option texts in order, the option at [correctOptionIndex] as the
    correct one, the trimmed explanation and topic, no source. *)
Definition cardOf (item : jsvalue) (c : FlashcardMCQ) : Prop :=
  exists texts n o,
    get item (str "options") = Some (JArr texts)
    /\ map text (options c) = texts
    /\ get item (str "question") = Some (question c)
    /\ get item (str "correctOptionIndex") = Some (JNum n)
    /\ index (options c) n = Some o
    /\ correctOptionId c = id o
    /\ explanation c = trimmedField (get item (str "explanation"))
    /\ topic c = trimmedField (get item (str "topic"))
    /\ sourcePdfName c = None.

(** The world [w1] differs from [w] at most in the number of reads of the
    signal. *)
Definition sameButReads (w w1 : world) : Prop :=
  uuids w1 = uuids w /\ abortSeen w1 = abortSeen w /\ console w1 = console w
  /\ localStorage w1 = localStorage w /\ setItemCalls w1 = setItemCalls w.

(** [card.sourcePdfName] is truthy. *)
Definition hasSource (card : FlashcardMCQ) : bool :=
  match sourcePdfName card with
  | Some (_ :: _) => true
  | _ => false
  end.

(** The identifiers a card carries: its own and those of its options. *)
Definition identifiers (card : FlashcardMCQ) : list jsstring :=
  cardId card :: map id (options card).

(** A value on which [x?.trim()] throws: neither a string nor [null] nor
    [undefined]. *)
Definition untrimmable (x : jsref) : bool :=
  match x with
  | Some (JBool _) | Some (JNum _) | Some (JArr _) | Some (JObj _) => true
  | _ => false
  end.

(** An element of the reply that is [null], or that passes the guard with
    an [explanation] or [topic] that is not a string. *)
Definition illTyped (item : jsvalue) : Prop :=
  item = JNull
  \/ (invalidItem item = false
      /\ (untrimmable (get item (str "explanation")) = true
          \/ untrimmable (get item (str "topic")) = true)).

(** Every error the computation can throw satisfies [R]. *)
Definition throwsOnly {A : Type} (R : jserror -> Prop) (m : M A) : Prop :=
  forall w e w', m w = (Throw e, w') -> R e.

(** The text an atom of a pattern may consume. *)
Definition pieceOf (a : atom) (t : jsstring) : Prop :=
  match a with
  | Chr c => t = [c]
  | Opt p => List.length t <= 1 /\ forallb p t = true
  | Star p | LazyStar p => forallb p t = true
  end.

(** The contract of [Math.floor(Math.random() * (i + 1))]: an index from
    0 to [i], since [Math.random()] lies in [[0, 1)]. *)
Definition fairDraw (draw : nat -> nat) : Prop := forall i, draw i <= i.

Definition fairEvent (e : QuizMode.event) : Prop :=
  match e with
  | QuizMode.Restart draw => fairDraw draw
  | _ => True
  end.

(** What holds of the quiz on the deck [flashcards] at every moment: it
    asks the cards of the deck, the current index names one of them, and
    the score counts at most the questions answered so far. *)
Definition quizInvariant (flashcards : list FlashcardMCQ) (st : QuizMode.QuizState) : Prop :=
  Permutation flashcards (QuizMode.quizCards st)
  /\ QuizMode.currentIndex st < List.length (QuizMode.quizCards st)
  /\ QuizMode.score st
     <= QuizMode.currentIndex st + (if QuizMode.showAnswer st then 1 else 0).

(** No character of [s] is [c]. *)
Definition without (c : char) (s : jsstring) : Prop :=
  forallb (fun x => negb (N.eqb x c)) s = true.

(** An [AbortError] thrown by [m] comes from a read of the signal that
    yielded [aborted], unless [cause] holds. *)
Definition abortsOnlyWhen {A : Type} (cause : Prop) (m : M A) : Prop :=
  forall w e w', m w = (Throw e, w') -> isAbortError e = true ->
    abortSeen w = false -> abortSeen w' = true \/ cause.

End Notions2.

(* ================================================================== *)
(** * Properties *)
(* ================================================================== *)

Import JS Types Eff GeminiService UseFlashcards App FlashcardForm Fixtures Notions.

(** ** Strings *)

Lemma jsstring_eqb_eq (a b : jsstring) : jsstring_eqb a b = true <-> a = b.
Proof.
  unfold jsstring_eqb. destruct (list_eq_dec N.eq_dec a b); split; congruence.
Qed.

Lemma jsstring_eqb_refl (a : jsstring) : jsstring_eqb a a = true.
Proof. apply jsstring_eqb_eq. reflexivity. Qed.

Lemma jsstring_eqb_neq (a b : jsstring) : jsstring_eqb a b = false <-> a <> b.
Proof.
  unfold jsstring_eqb. destruct (list_eq_dec N.eq_dec a b); split; congruence.
Qed.

(** ** The fuel of [JSON_parse] *)

Lemma dropWhile_length (p : char -> bool) (s : jsstring) :
  List.length (dropWhile p s) <= List.length s.
Proof.
  induction s as [|c s IH]; simpl; [lia|]. destruct (p c); simpl; lia.
Qed.

Lemma skipSpace_cons_length (s r : jsstring) (c : char) :
  skipSpace s = c :: r -> S (List.length r) <= List.length s.
Proof.
  intros E. pose proof (dropWhile_length isJsonSpace s) as H.
  unfold skipSpace in E. rewrite E in H. simpl in H. exact H.
Qed.

Lemma readDigits_length (acc : Z) (n : nat) (s : jsstring) (m : Z) (k : nat) (r : jsstring) :
  readDigits acc n s = (m, k, r) -> List.length r <= List.length s.
Proof.
  revert acc n. induction s as [|c s IH]; intros acc n; simpl.
  - intros H. inversion H; subst. simpl. lia.
  - destruct (isDigit c).
    + intros H. apply IH in H. lia.
    + intros H. inversion H; subst. simpl. lia.
Qed.

Lemma readSign_length (s r : jsstring) (neg : bool) :
  readSign s = (neg, r) -> List.length r <= List.length s.
Proof.
  unfold readSign. destruct s as [|c s]; [intros H; inversion H; subst; simpl; lia|].
  destruct (N.eqb c 45); intros H; inversion H; subst; simpl; lia.
Qed.

Lemma readInteger_length (s r : jsstring) (ip : Z) :
  readInteger s = Some (ip, r) -> List.length r <= List.length s.
Proof.
  unfold readInteger. destruct s as [|c s]; [discriminate|].
  destruct (negb (isDigit c)); [discriminate|].
  destruct (N.eqb c 48); [intros H; inversion H; subst; simpl; lia|].
  destruct (readDigits 0 0 (c :: s)) as [[m k] r'] eqn:E.
  intros H. inversion H; subst. eapply readDigits_length. exact E.
Qed.

Lemma readFraction_length (ip m : Z) (fl : nat) (s r : jsstring) :
  readFraction ip s = Some (m, fl, r) -> List.length r <= List.length s.
Proof.
  unfold readFraction. destruct s as [|d s]; [intros H; inversion H; subst; simpl; lia|].
  destruct (N.eqb d 46); [|intros H; inversion H; subst; simpl; lia].
  destruct (readDigits ip 0 s) as [[m' k] r'] eqn:E.
  apply readDigits_length in E.
  destruct k; [discriminate|]. intros H. inversion H; subst. simpl. lia.
Qed.

Lemma readExponent_length (x : Z) (s r : jsstring) :
  readExponent s = Some (x, r) -> List.length r <= List.length s.
Proof.
  unfold readExponent. destruct s as [|e s]; [intros H; inversion H; subst; simpl; lia|].
  destruct (N.eqb e 101 || N.eqb e 69); [|intros H; inversion H; subst; simpl; lia].
  destruct (match s with
            | [] => (false, s)
            | sg :: r0 =>
                if N.eqb sg 45 then (true, r0)
                else if N.eqb sg 43 then (false, r0) else (false, s)
            end) as [eneg r'] eqn:Es.
  assert (Hlen : List.length r' <= List.length s).
  { destruct s as [|sg s']; [inversion Es; subst; simpl; lia|].
    destruct (N.eqb sg 45); [inversion Es; subst; simpl; lia|].
    destruct (N.eqb sg 43); inversion Es; subst; simpl; lia. }
  destruct (readDigits 0 0 r') as [[m k] r''] eqn:E. apply readDigits_length in E.
  destruct k; [discriminate|]. intros H. inversion H; subst. simpl. lia.
Qed.

Lemma parseNumber_length (s r : jsstring) (q : Q) :
  parseNumber s = Some (q, r) -> List.length r <= List.length s.
Proof.
  unfold parseNumber.
  destruct (readSign s) as [neg s1] eqn:E1. apply readSign_length in E1.
  destruct (readInteger s1) as [[ip s2]|] eqn:E2; [|discriminate].
  apply readInteger_length in E2.
  destruct (readFraction ip s2) as [[[m fl] s3]|] eqn:E3; [|discriminate].
  apply readFraction_length in E3.
  destruct (readExponent s3) as [[x s4]|] eqn:E4; [|discriminate].
  apply readExponent_length in E4.
  intros H. inversion H; subst. lia.
Qed.

Lemma parseChars_length (n : nat) :
  forall acc s t r, List.length s <= n ->
    parseChars acc s = Some (t, r) -> List.length r <= List.length s.
Proof.
  induction n as [|n IH]; intros acc s t r Hn H.
  - destruct s; [discriminate|simpl in Hn; lia].
  - destruct s as [|c s]; [discriminate|]. simpl in H. simpl in Hn.
    destruct (N.eqb c 34); [inversion H; subst; simpl; lia|].
    destruct (N.eqb c 92).
    + destruct s as [|e s]; [discriminate|]. simpl in Hn.
      repeat match type of H with
             | (if ?b then parseChars ?a s else _) = _ =>
                 destruct b; [apply IH in H; simpl; lia|]
             end.
      destruct (N.eqb e 117); [|discriminate].
      destruct s as [|h1 [|h2 [|h3 [|h4 s]]]]; try discriminate.
      destruct (hexVal h1), (hexVal h2), (hexVal h3), (hexVal h4); try discriminate.
      simpl in Hn. apply IH in H; simpl; lia.
    + destruct (N.ltb c 32); [discriminate|]. apply IH in H; simpl; lia.
Qed.

Lemma isPrefix_length (p s r : jsstring) :
  isPrefix p s = Some r -> List.length r <= List.length s.
Proof.
  unfold isPrefix. destruct (startsWith s p); [|discriminate].
  intros H. inversion H; subst. rewrite length_skipn. lia.
Qed.

Lemma parse_rest_length (n : nat) :
  (forall s v r, parseValue n s = Some (v, r) -> List.length r <= List.length s)
  /\ (forall acc s v r, parseElements n acc s = Some (v, r) -> List.length r <= List.length s)
  /\ (forall acc s v r, parseMembers n acc s = Some (v, r) -> List.length r <= List.length s).
Proof.
  induction n as [|n (IHv & IHe & IHm)]; [repeat split; intros; discriminate|].
  split; [|split].
  - intros s v r H. simpl in H.
    destruct (skipSpace s) as [|c s1] eqn:Es; [discriminate|].
    apply skipSpace_cons_length in Es.
    destruct (N.eqb c 91).
    { destruct (skipSpace s1) as [|d s2] eqn:Es1; [discriminate|].
      apply skipSpace_cons_length in Es1.
      destruct (N.eqb d 93); [inversion H; subst; lia|]. apply IHe in H. lia. }
    destruct (N.eqb c 123).
    { destruct (skipSpace s1) as [|d s2] eqn:Es1; [discriminate|].
      apply skipSpace_cons_length in Es1.
      destruct (N.eqb d 125); [inversion H; subst; lia|]. apply IHm in H. lia. }
    destruct (N.eqb c 34).
    { destruct (parseChars [] s1) as [[t r']|] eqn:Ec; [|discriminate].
      apply (parseChars_length (n := List.length s1)) in Ec; [|lia].
      inversion H; subst. lia. }
    destruct (N.eqb c 116).
    { destruct (isPrefix (str "rue") s1) as [r'|] eqn:Ep; [|discriminate].
      apply isPrefix_length in Ep. inversion H; subst. lia. }
    destruct (N.eqb c 102).
    { destruct (isPrefix (str "alse") s1) as [r'|] eqn:Ep; [|discriminate].
      apply isPrefix_length in Ep. inversion H; subst. lia. }
    destruct (N.eqb c 110).
    { destruct (isPrefix (str "ull") s1) as [r'|] eqn:Ep; [|discriminate].
      apply isPrefix_length in Ep. inversion H; subst. lia. }
    destruct (parseNumber (c :: s1)) as [[q r']|] eqn:En; [|discriminate].
    apply parseNumber_length in En. simpl in En. inversion H; subst. lia.
  - intros acc s v r H. simpl in H.
    destruct (parseValue n s) as [[v1 r1]|] eqn:Ev; [|discriminate].
    apply IHv in Ev.
    destruct (skipSpace r1) as [|c r2] eqn:Es; [discriminate|].
    apply skipSpace_cons_length in Es.
    destruct (N.eqb c 44); [apply IHe in H; lia|].
    destruct (N.eqb c 93); [inversion H; subst; lia|discriminate].
  - intros acc s v r H. simpl in H.
    destruct (skipSpace s) as [|q s1] eqn:Es; [discriminate|].
    apply skipSpace_cons_length in Es.
    destruct (negb (N.eqb q 34)); [discriminate|].
    destruct (parseChars [] s1) as [[key r1]|] eqn:Ec; [|discriminate].
    apply (parseChars_length (n := List.length s1)) in Ec; [|lia].
    destruct (skipSpace r1) as [|colon r2] eqn:Es1; [discriminate|].
    apply skipSpace_cons_length in Es1.
    destruct (negb (N.eqb colon 58)); [discriminate|].
    destruct (parseValue n r2) as [[v1 r3]|] eqn:Ev; [|discriminate].
    apply IHv in Ev.
    destruct (skipSpace r3) as [|c r4] eqn:Es3; [discriminate|].
    apply skipSpace_cons_length in Es3.
    destruct (N.eqb c 44); [apply IHm in H; lia|].
    destruct (N.eqb c 125); [inversion H; subst; lia|discriminate].
Qed.

(** Once the fuel exceeds twice the length of the text, more fuel changes
    nothing: the parser never stops for lack of it. *)
Lemma parse_fuel_irrelevant (n : nat) :
  (forall m s, 2 * List.length s < n -> 2 * List.length s < m ->
     parseValue n s = parseValue m s)
  /\ (forall m acc s, 2 * List.length s + 1 < n -> 2 * List.length s + 1 < m ->
     parseElements n acc s = parseElements m acc s)
  /\ (forall m acc s, 2 * List.length s + 1 < n -> 2 * List.length s + 1 < m ->
     parseMembers n acc s = parseMembers m acc s).
Proof.
  induction n as [|n (IHv & IHe & IHm)]; [repeat split; intros; lia|].
  split; [|split].
  - intros [|m] s Hn Hm; [lia|]. simpl.
    destruct (skipSpace s) as [|c s1] eqn:Es; [reflexivity|].
    apply skipSpace_cons_length in Es.
    destruct (N.eqb c 91).
    { destruct (skipSpace s1) as [|d s2]; [reflexivity|].
      destruct (N.eqb d 93); [reflexivity|]. apply IHe; lia. }
    destruct (N.eqb c 123); [|reflexivity].
    destruct (skipSpace s1) as [|d s2]; [reflexivity|].
    destruct (N.eqb d 125); [reflexivity|]. apply IHm; lia.
  - intros [|m] acc s Hn Hm; [lia|]. simpl.
    rewrite (IHv m s) by lia.
    destruct (parseValue m s) as [[v1 r1]|] eqn:Ev; [|reflexivity].
    apply (proj1 (parse_rest_length m)) in Ev.
    destruct (skipSpace r1) as [|c r2] eqn:Es; [reflexivity|].
    apply skipSpace_cons_length in Es.
    destruct (N.eqb c 44); [|reflexivity]. apply IHe; lia.
  - intros [|m] acc s Hn Hm; [lia|]. simpl.
    destruct (skipSpace s) as [|q s1] eqn:Es; [reflexivity|].
    apply skipSpace_cons_length in Es.
    destruct (negb (N.eqb q 34)); [reflexivity|].
    destruct (parseChars [] s1) as [[key r1]|] eqn:Ec; [|reflexivity].
    apply (parseChars_length (n := List.length s1)) in Ec; [|lia].
    destruct (skipSpace r1) as [|colon r2] eqn:Es1; [reflexivity|].
    apply skipSpace_cons_length in Es1.
    destruct (negb (N.eqb colon 58)); [reflexivity|].
    rewrite (IHv m r2) by lia.
    destruct (parseValue m r2) as [[v1 r3]|] eqn:Ev; [|reflexivity].
    apply (proj1 (parse_rest_length m)) in Ev.
    destruct (skipSpace r3) as [|c r4] eqn:Es3; [reflexivity|].
    apply skipSpace_cons_length in Es3.
    destruct (N.eqb c 44); [|reflexivity]. apply IHm; lia.
Qed.

(** [JSON_parse] gives the answer of the parser at any larger fuel. *)
Lemma JSON_parse_fuel (text : jsstring) (n : nat) :
  2 * List.length text < n ->
  JSON_parse text =
  match parseValue n text with
  | Some (v, rest) => match skipSpace rest with [] => Some v | _ :: _ => None end
  | None => None
  end.
Proof.
  intros Hn. unfold JSON_parse.
  rewrite (proj1 (parse_fuel_irrelevant (2 * List.length text + 2)) n text) by lia.
  reflexivity.
Qed.

(** ** The card store *)

Section StoreFacts.
Variable quota : jsstring -> bool.
Variable JSON_stringify : list FlashcardMCQ -> jsstring.

Lemma persist_ok (cards : list FlashcardMCQ) (w : world) :
  exists w', persist quota JSON_stringify cards w = (Ok tt, w')
             /\ abortSeen w' = abortSeen w
             /\ uuids w' = uuids w
             /\ setItemCalls w' = S (setItemCalls w).
Proof.
  unfold persist, tryCatch, setItem, log.
  destruct (quota (JSON_stringify cards)); eexists; repeat split.
Qed.

Lemma setFlashcards_ok (update : list FlashcardMCQ -> list FlashcardMCQ)
    (prev : list FlashcardMCQ) (w : world) :
  exists w', setFlashcards quota JSON_stringify update prev w = (Ok (update prev), w')
             /\ abortSeen w' = abortSeen w
             /\ setItemCalls w' = S (setItemCalls w).
Proof.
  unfold setFlashcards, bind.
  destruct (persist_ok (update prev) w) as (w' & E & Ha & _ & Hc).
  rewrite E. exists w'. repeat split; assumption.
Qed.

End StoreFacts.

Lemma replaceCard_length (card : FlashcardMCQ) (prev : list FlashcardMCQ) :
  List.length (replaceCard card prev) = List.length prev.
Proof. unfold replaceCard. apply length_map. Qed.

Lemma replaceCard_nth (card : FlashcardMCQ) (prev : list FlashcardMCQ) (i : nat) (c : FlashcardMCQ) :
  nth_error prev i = Some c ->
  nth_error (replaceCard card prev) i =
  Some (if jsstring_eqb (cardId c) (cardId card) then card else c).
Proof.
  intros H. unfold replaceCard. rewrite nth_error_map, H. reflexivity.
Qed.

Lemma replaceCard_no_match (card : FlashcardMCQ) (prev : list FlashcardMCQ) :
  (forall c, In c prev -> cardId c <> cardId card) -> replaceCard card prev = prev.
Proof.
  induction prev as [|c l IH]; intros H; simpl; [reflexivity|].
  assert (E : jsstring_eqb (cardId c) (cardId card) = false).
  { apply jsstring_eqb_neq. apply H. left. reflexivity. }
  rewrite E. f_equal. apply IH. intros c' Hc'. apply H. right. exact Hc'.
Qed.

Lemma replaceCard_first (card : FlashcardMCQ) (prev : list FlashcardMCQ) :
  NoDup (map cardId prev) -> replaceCard card prev = replaceFirst card prev.
Proof.
  induction prev as [|c l IH]; intros H; simpl; [reflexivity|].
  inversion H as [|x xs Hnotin Hnodup]; subst.
  destruct (jsstring_eqb (cardId c) (cardId card)) eqn:E.
  - f_equal. apply replaceCard_no_match.
    apply jsstring_eqb_eq in E. intros c' Hc' Heq.
    apply Hnotin. rewrite E, <- Heq. apply in_map. exact Hc'.
  - f_equal. apply IH. exact Hnodup.
Qed.

(** C6, as amended.  [updateFlashcard] never fails and leaves the collection
    with [updatedCard] at every position whose card has its id and the old
    card everywhere else, so the length and the order are unchanged; when
    no id matches the collection is unchanged; when the ids of the
    collection are pairwise distinct this is the replacement of the first
    match. *)
Theorem updateFlashcard_replaces_every_match
    (quota : jsstring -> bool) (JSON_stringify : list FlashcardMCQ -> jsstring)
    (updatedCard : FlashcardMCQ) (prev : list FlashcardMCQ) (w : world) :
  (exists w', updateFlashcard quota JSON_stringify updatedCard prev w
              = (Ok (replaceCard updatedCard prev), w'))
  /\ List.length (replaceCard updatedCard prev) = List.length prev
  /\ (forall i c, nth_error prev i = Some c ->
        nth_error (replaceCard updatedCard prev) i =
        Some (if jsstring_eqb (cardId c) (cardId updatedCard) then updatedCard else c))
  /\ ((forall c, In c prev -> cardId c <> cardId updatedCard) ->
        replaceCard updatedCard prev = prev)
  /\ (NoDup (map cardId prev) ->
        replaceCard updatedCard prev = replaceFirst updatedCard prev).
Proof.
  split; [|split; [|split; [|split]]].
  - destruct (setFlashcards_ok quota JSON_stringify (replaceCard updatedCard) prev w)
      as (w' & E & _).
    exists w'. exact E.
  - apply replaceCard_length.
  - intros i c. apply replaceCard_nth.
  - apply replaceCard_no_match.
  - apply replaceCard_first.
Qed.

Lemma updateFlashcard_replaces_every_match_witness :
  replaceCard (card "k1" "new" None) [card "k1" "old" None; card "k2" "other" None]
  = replaceFirst (card "k1" "new" None) [card "k1" "old" None; card "k2" "other" None].
Proof.
  apply (updateFlashcard_replaces_every_match roomy idsOnly (card "k1" "new" None)
           [card "k1" "old" None; card "k2" "other" None] initial).
  repeat constructor; simpl; intuition discriminate.
Defined.

(** C6, as stated, fails on a collection in which two cards share an id:
    both are replaced, not only the first. *)
Lemma update_replaces_later_duplicates :
  replaceCard (card "k1" "new" None) [card "k1" "old" None; card "k1" "twin" None]
  = [card "k1" "new" None; card "k1" "new" None]
  /\ replaceCard (card "k1" "new" None) [card "k1" "old" None; card "k1" "twin" None]
     <> replaceFirst (card "k1" "new" None) [card "k1" "old" None; card "k1" "twin" None].
Proof.
  split; [reflexivity|]. vm_compute. discriminate.
Qed.

(** The three operations of the hook are [setFlashcards] at their update
    functions; the import appends through [setFlashcards] itself. *)
Lemma mutations_are_setFlashcards
    (quota : jsstring -> bool) (JSON_stringify : list FlashcardMCQ -> jsstring)
    (card : FlashcardMCQ) (i : jsstring) :
  addFlashcard quota JSON_stringify card
  = setFlashcards quota JSON_stringify (appendCard card)
  /\ updateFlashcard quota JSON_stringify card
     = setFlashcards quota JSON_stringify (replaceCard card)
  /\ deleteFlashcard quota JSON_stringify i
     = setFlashcards quota JSON_stringify (removeCard i).
Proof. repeat split. Qed.

(** C8.  Every change of the collection ([addFlashcard], [updateFlashcard],
    [deleteFlashcard], the append of an import) is [setFlashcards] at some
    update function.  When the write it triggers is refused, it still
    returns the changed collection, it does not throw, the failure is
    logged, and the stored value stays as it was. *)
Theorem persistence_failure_is_absorbed
    (quota : jsstring -> bool) (JSON_stringify : list FlashcardMCQ -> jsstring)
    (update : list FlashcardMCQ -> list FlashcardMCQ)
    (prev : list FlashcardMCQ) (w : world) :
  quota (JSON_stringify (update prev)) = false ->
  exists w',
    setFlashcards quota JSON_stringify update prev w = (Ok (update prev), w')
    /\ localStorage w' = localStorage w
    /\ console w' = console w ++ [(LogError, "Error saving flashcards to localStorage:"%string)].
Proof.
  intros H.
  unfold setFlashcards, persist. unfold bind, tryCatch, setItem.
  rewrite H. unfold log.
  eexists. split; [reflexivity|]. split; reflexivity.
Qed.

Lemma persistence_failure_is_absorbed_witness :
  exists w',
    setFlashcards full idsOnly (appendCard (card "k2" "q" None)) [card "k1" "p" None] initial
    = (Ok [card "k1" "p" None; card "k2" "q" None], w')
    /\ localStorage w' = localStorage initial
    /\ console w' = console initial ++ [(LogError, "Error saving flashcards to localStorage:"%string)].
Proof.
  apply (persistence_failure_is_absorbed full idsOnly (appendCard (card "k2" "q" None))
           [card "k1" "p" None] initial).
  reflexivity.
Defined.

(** What the initialiser does meet of C3.  [loadFlashcards] never throws.
    It returns the empty collection when the storage cannot be read, when
    nothing or the empty string is stored, and when the stored text is not
    JSON; the read failure and the parse failure are logged. *)
Lemma loadFlashcards_never_throws
    (readable : bool) (engineMessage : fault -> jsstring) (w : world) :
  exists w',
    loadFlashcards readable engineMessage w =
    (Ok (if readable then
           match localStorage w with
           | Some (c :: rest) =>
               match JSON_parse (c :: rest) with
               | Some v => v
               | None => JArr []
               end
           | _ => JArr []
           end
         else JArr []), w')
    /\ console w' =
       console w ++
       (if readable then
          match localStorage w with
          | Some (c :: rest) =>
              match JSON_parse (c :: rest) with
              | Some _ => []
              | None => [(LogError, "Error loading flashcards from localStorage:"%string)]
              end
          | _ => []
          end
        else [(LogError, "Error loading flashcards from localStorage:"%string)]).
Proof.
  unfold loadFlashcards, tryCatch, bind, getItem, log, ret, throw.
  destruct readable; simpl.
  - destruct (localStorage w) as [[|c rest]|] eqn:E; simpl.
    + eexists; repeat split; simpl; rewrite ?app_nil_r; auto.
    + destruct (JSON_parse (c :: rest)); simpl;
        eexists; repeat split; simpl; rewrite ?app_nil_r; auto.
    + eexists; repeat split; simpl; rewrite ?app_nil_r; auto.
  - eexists; repeat split.
Qed.

(** C3 does not hold of the code, by a case the initialiser misses.  Its
    [try] turns a failed read and a failed [JSON.parse] into the empty
    collection, but nothing looks at what [JSON.parse] returns: whenever the
    stored text is JSON for something that is no array (a number, a string,
    an object, [true]), that value is returned as the collection, without a
    message on the console, where the claim has the empty collection.  The
    state is typed [FlashcardMCQ[]], and the first render calls
    [flashcards.forEach] on it. *)
Theorem load_returns_unchecked_value
    (engineMessage : fault -> jsstring) (w : world)
    (c : char) (rest : jsstring) (v : jsvalue) :
  localStorage w = Some (c :: rest) ->
  JSON_parse (c :: rest) = Some v ->
  (forall cards, v <> JArr cards) ->
  exists w',
    loadFlashcards true engineMessage w = (Ok v, w')
    /\ v <> JArr []
    /\ console w' = console w.
Proof.
  intros Hstored Hparse Hshape.
  unfold loadFlashcards, tryCatch, bind, getItem, ret.
  rewrite Hstored, Hparse.
  eexists. split; [reflexivity|]. split; [apply Hshape|reflexivity].
Qed.

Lemma load_returns_unchecked_value_witness :
  exists w',
    loadFlashcards true v8 (storing (str "7")) = (Ok (JNum 7), w')
    /\ JNum 7 <> JArr []
    /\ console w' = console (storing (str "7")).
Proof.
  apply (@load_returns_unchecked_value v8 (storing (str "7")) 55%N [] (JNum 7)).
  - reflexivity.
  - vm_compute. reflexivity.
  - intros cards. discriminate.
Defined.

(** The same at the stored text [7], evaluated: it does not parse to an
    array, and it is returned as it is instead of the empty collection. *)
Example load_returns_stored_non_collection :
  fst (loadFlashcards true v8 (storing (str "7"))) = Ok (JNum 7)
  /\ fst (loadFlashcards true v8 (storing (str "7"))) <> Ok (JArr [])
  /\ (forall cards, JSON_parse (str "7") <> Some (JArr cards)).
Proof.
  split; [reflexivity|]. split; [vm_compute; discriminate|].
  intros cards. vm_compute. discriminate.
Qed.

(** ** The source index *)

Lemma lexLeb_refl (a : jsstring) : lexLeb a a = true.
Proof.
  induction a as [|x a IH]; simpl; [reflexivity|].
  rewrite N.eqb_refl, IH. apply orb_true_r.
Qed.

Lemma lexLeb_total (a b : jsstring) : lexLeb a b = false -> lexLeb b a = true.
Proof.
  revert b. induction a as [|x a IH]; intros [|y b]; simpl; try discriminate; auto.
  intros H. apply orb_false_iff in H. destruct H as [Hlt H].
  apply N.ltb_ge in Hlt.
  destruct (N.eqb x y) eqn:E.
  - apply N.eqb_eq in E. subst y. simpl in H.
    rewrite (IH _ H), N.eqb_refl. apply orb_true_r.
  - apply N.eqb_neq in E.
    assert (Hyx : (y < x)%N) by lia.
    apply N.ltb_lt in Hyx. rewrite Hyx. reflexivity.
Qed.

Lemma lexLeb_antisym (a b : jsstring) :
  lexLeb a b = true -> lexLeb b a = true -> a = b.
Proof.
  revert b. induction a as [|x a IH]; intros [|y b]; simpl; try discriminate; auto.
  intros H1 H2.
  apply orb_true_iff in H1. apply orb_true_iff in H2.
  destruct H1 as [H1|H1]; destruct H2 as [H2|H2];
    rewrite ?N.ltb_lt, ?andb_true_iff, ?N.eqb_eq in *;
    try (exfalso; lia); try (destruct H1; exfalso; lia); try (destruct H2; exfalso; lia).
  destruct H1 as [-> H1]. destruct H2 as [_ H2]. f_equal. apply IH; assumption.
Qed.

Lemma lexLeb_trans (a b c : jsstring) :
  lexLeb a b = true -> lexLeb b c = true -> lexLeb a c = true.
Proof.
  revert b c. induction a as [|x a IH]; intros [|y b] [|z c]; simpl; try discriminate; auto.
  intros H1 H2.
  apply orb_true_iff in H1. apply orb_true_iff in H2. apply orb_true_iff.
  rewrite ?N.ltb_lt, ?andb_true_iff, ?N.eqb_eq in *.
  destruct H1 as [H1|[H1 H1']]; destruct H2 as [H2|[H2 H2']].
  - left. lia.
  - left. lia.
  - left. lia.
  - right. split; [lia|]. eapply IH; eassumption.
Qed.

Lemma lexLt_trans (a b c : jsstring) : lexLt a b -> lexLt b c -> lexLt a c.
Proof.
  intros [H1 N1] [H2 N2]. split.
  - eapply lexLeb_trans; eassumption.
  - intros ->. apply N1. apply lexLeb_antisym; assumption.
Qed.

Lemma insertSorted_perm (x : jsstring) (l : list jsstring) :
  Permutation (x :: l) (insertSorted x l).
Proof.
  induction l as [|y l IH]; simpl; [reflexivity|].
  destruct (lexLeb x y); [reflexivity|].
  rewrite perm_swap. constructor. exact IH.
Qed.

Lemma sort_perm (l : list jsstring) : Permutation l (sort l).
Proof.
  induction l as [|x l IH]; simpl; [constructor|].
  unfold sort in *. simpl.
  rewrite <- insertSorted_perm. constructor. exact IH.
Qed.

Lemma insertSorted_sorted (x : jsstring) (l : list jsstring) :
  Sorted lexLe l -> Sorted lexLe (insertSorted x l).
Proof.
  induction l as [|y l IH]; intros H; simpl.
  - repeat constructor.
  - destruct (lexLeb x y) eqn:E.
    + constructor; [exact H|]. constructor. exact E.
    + inversion H as [|? ? Hs Hd]; subst.
      constructor; [apply IH; exact Hs|].
      destruct l as [|z l]; simpl.
      * constructor. apply lexLeb_total. exact E.
      * destruct (lexLeb x z).
        -- constructor. apply lexLeb_total. exact E.
        -- inversion Hd; subst. constructor. assumption.
Qed.

Lemma sort_sorted (l : list jsstring) : Sorted lexLe (sort l).
Proof.
  induction l as [|x l IH]; unfold sort in *; simpl.
  - constructor.
  - apply insertSorted_sorted. exact IH.
Qed.

Lemma sorted_nodup_strict (l : list jsstring) :
  Sorted lexLe l -> NoDup l -> Sorted lexLt l.
Proof.
  induction l as [|x l IH]; intros Hs Hn; [constructor|].
  inversion Hs as [|? ? Hs' Hd]; subst. inversion Hn as [|? ? Hnotin Hn']; subst.
  constructor; [apply IH; assumption|].
  destruct l as [|y l]; constructor.
  inversion Hd; subst. split; [assumption|].
  intros ->. apply Hnotin. left. reflexivity.
Qed.

Lemma setAdd_in (x s : jsstring) (acc : list jsstring) :
  In s (setAdd x acc) <-> In s acc \/ s = x.
Proof.
  unfold setAdd. destruct (existsb (jsstring_eqb x) acc) eqn:E.
  - split; [auto|]. intros [H| ->]; [exact H|].
    apply existsb_exists in E. destruct E as (y & Hy & Hxy).
    apply jsstring_eqb_eq in Hxy. subst y. exact Hy.
  - rewrite in_app_iff. simpl. intuition.
Qed.

Lemma setAdd_nodup (x : jsstring) (acc : list jsstring) :
  NoDup acc -> NoDup (setAdd x acc).
Proof.
  intros H. unfold setAdd. destruct (existsb (jsstring_eqb x) acc) eqn:E; [exact H|].
  apply NoDup_app; [exact H|repeat constructor; intros []|].
  intros a Ha [<-|[]].
  assert (T : existsb (jsstring_eqb x) acc = true).
  { apply existsb_exists. exists x. split; [exact Ha|apply jsstring_eqb_refl]. }
  congruence.
Qed.

Lemma collect_from (flashcards : list FlashcardMCQ) (acc : list jsstring) :
  NoDup acc ->
  NoDup (fold_left addSource flashcards acc)
  /\ forall s, In s (fold_left addSource flashcards acc) <->
               In s acc \/ (s <> [] /\ exists c, In c flashcards /\ sourcePdfName c = Some s).
Proof.
  revert acc. induction flashcards as [|c l IH]; intros acc Hacc; simpl.
  - split; [exact Hacc|]. intros s. split; [auto|].
    intros [H|(_ & c & [] & _)]. exact H.
  - assert (Hn : NoDup (addSource acc c)).
    { unfold addSource. destruct (sourcePdfName c) as [[|x n]|]; auto using setAdd_nodup. }
    destruct (IH _ Hn) as [IH1 IH2]. split; [exact IH1|].
    intros s. rewrite IH2. unfold addSource.
    destruct (sourcePdfName c) as [[|x n]|] eqn:E.
    + split.
      * intros [H|(Hs & c' & Hc' & Hsrc)]; [auto|]. right. split; [exact Hs|]. eauto.
      * intros [H|(Hs & c' & [<-|Hc'] & Hsrc)]; [auto| |].
        -- rewrite E in Hsrc. inversion Hsrc. congruence.
        -- right. split; [exact Hs|]. eauto.
    + rewrite setAdd_in. split.
      * intros [[H| ->]|(Hs & c' & Hc' & Hsrc)]; [auto| |].
        -- right. split; [discriminate|]. exists c. auto.
        -- right. split; [exact Hs|]. eauto.
      * intros [H|(Hs & c' & [<-|Hc'] & Hsrc)]; [auto| |].
        -- left. right. rewrite E in Hsrc. inversion Hsrc. reflexivity.
        -- right. split; [exact Hs|]. eauto.
    + split.
      * intros [H|(Hs & c' & Hc' & Hsrc)]; [auto|]. right. split; [exact Hs|]. eauto.
      * intros [H|(Hs & c' & [<-|Hc'] & Hsrc)]; [auto| |].
        -- rewrite E in Hsrc. discriminate.
        -- right. split; [exact Hs|]. eauto.
Qed.

(** C10.  The source index lists each non-empty source name of the
    collection exactly once, in strictly ascending code-unit order; cards
    without a source name, or with the empty one, add nothing. *)
Theorem uniquePdfSources_sorted_distinct (flashcards : list FlashcardMCQ) :
  StronglySorted lexLt (uniquePdfSources flashcards)
  /\ NoDup (uniquePdfSources flashcards)
  /\ forall s, In s (uniquePdfSources flashcards) <->
               (s <> [] /\ exists c, In c flashcards /\ sourcePdfName c = Some s).
Proof.
  unfold uniquePdfSources, collectSources.
  destruct (collect_from flashcards (NoDup_nil _)) as [Hn Hin].
  pose proof (sort_perm (fold_left addSource flashcards [])) as Hp.
  assert (Hn' : NoDup (sort (fold_left addSource flashcards []))).
  { eapply Permutation_NoDup; eassumption. }
  split; [|split].
  - apply Sorted_StronglySorted.
    + intros a b c. apply lexLt_trans.
    + apply sorted_nodup_strict; [apply sort_sorted|exact Hn'].
  - exact Hn'.
  - intros s. split; intros H.
    + assert (H' : In s (fold_left addSource flashcards [])).
      { eapply Permutation_in; [symmetry; exact Hp|exact H]. }
      apply Hin in H'. destruct H' as [[]|H']. exact H'.
    + eapply Permutation_in; [exact Hp|]. apply Hin. right. exact H.
Qed.

(** ** The single-question variant *)

Lemma invalidGenerated_when (reply : jsvalue) (numOptions : Q) :
  ~ optionCountIs reply numOptions \/ ~ indexWithin reply numOptions ->
  invalidGenerated reply numOptions = true.
Proof.
  intros H. unfold invalidGenerated.
  destruct (truthy (get reply (str "question"))); simpl; [|reflexivity].
  destruct (get reply (str "options")) as [[| | | |opts|]|] eqn:Eo; try reflexivity.
  destruct (num_eq (num_of_nat (List.length opts)) numOptions) eqn:El; simpl; [|reflexivity].
  apply Qeq_bool_iff in El.
  destruct H as [H|H].
  - exfalso. apply H. exists opts. rewrite Eo. split; [reflexivity|exact El].
  - destruct (get reply (str "correctOptionIndex")) as [[| |i| | |]|] eqn:Ei; try reflexivity.
    unfold num_lt, num_ge.
    destruct (Qle_bool 0 i) eqn:E0; simpl; [|reflexivity].
    destruct (Qle_bool numOptions i) eqn:E1; [reflexivity|].
    exfalso. apply H. exists i. rewrite Ei. split; [reflexivity|].
    apply Qle_bool_iff in E0. split; [exact E0|].
    apply Qnot_le_lt. intros Hle. apply Qle_bool_iff in Hle. congruence.
Qed.

(** C9.  When the reply is a JSON object whose [options] is not an array of
    [numOptions] elements, or whose [correctOptionIndex] is not a number in
    [0, numOptions), [generateMCQWithGemini] throws the invalid-structure
    error (under the prefix its [catch] adds); nothing is skipped and no
    card is returned. *)
Theorem generate_rejects_wrong_count_or_index
    (P : platform) (svc : request -> outcome) (topic text : jsstring)
    (numOptions : Q) (props : list (jsstring * jsvalue)) (w : world) :
  ai P = Some svc ->
  svc (TextRequest topic numOptions) = Resolved text ->
  JSON_parse (stripFence text) = Some (JObj props) ->
  ~ optionCountIs (JObj props) numOptions \/ ~ indexWithin (JObj props) numOptions ->
  fst (generateMCQWithGemini P topic numOptions w)
  = Throw (Eff.Error
             (str "Failed to generate MCQ: Invalid response structure from Gemini API for single MCQ generation.")).
Proof.
  intros Hai Hsvc Hparse Hbad.
  unfold generateMCQWithGemini. rewrite Hai.
  unfold tryCatch, generateBody. rewrite Hsvc.
  unfold bind at 1. rewrite Hparse. unfold ret at 1.
  rewrite (invalidGenerated_when Hbad).
  unfold throw at 1. unfold bind, log, throw. simpl. reflexivity.
Qed.

Lemma generate_rejects_wrong_count_or_index_witness :
  fst (generateMCQWithGemini
         (replying (json "{'question':'Q','options':['a','b','c'],'correctOptionIndex':0}"))
         (str "Photosynthesis") 4%Q initial)
  = Throw (Eff.Error
             (str "Failed to generate MCQ: Invalid response structure from Gemini API for single MCQ generation.")).
Proof.
  eapply (@generate_rejects_wrong_count_or_index _ _ _ _ _ _ initial).
  - reflexivity.
  - reflexivity.
  - vm_compute. reflexivity.
  - left. intros (opts & Ho & Hl). vm_compute in Ho. inversion Ho; subst.
    vm_compute in Hl. discriminate.
Defined.

(** ** Rules for what a computation returns *)

Section ReturnRules.
Context {A B : Type}.

Lemma returns_ret (Q : A -> Prop) (a : A) : Q a -> returns Q (ret a).
Proof. intros H w a' w' E. inversion E; subst. exact H. Qed.

Lemma returns_throw (Q : A -> Prop) (e : jserror) : returns Q (throw e).
Proof. intros w a w' E. discriminate. Qed.

Lemma returns_bind (R : A -> Prop) (Q : B -> Prop) (m : M A) (k : A -> M B) :
  returns R m -> (forall a, R a -> returns Q (k a)) -> returns Q (bind m k).
Proof.
  intros Hm Hk w b w' E. unfold bind in E.
  destruct (m w) as [[a|e] w1] eqn:Em; [|discriminate].
  eapply Hk; [eapply Hm; exact Em|exact E].
Qed.

Lemma returns_tryCatch (Q : A -> Prop) (m : M A) (h : jserror -> M A) :
  returns Q m -> (forall e, returns Q (h e)) -> returns Q (tryCatch m h).
Proof.
  intros Hm Hh w a w' E. unfold tryCatch in E.
  destruct (m w) as [[a1|e] w1] eqn:Em.
  - inversion E; subst. eapply Hm. exact Em.
  - eapply Hh. exact E.
Qed.

Lemma returns_weaken (Q Q' : A -> Prop) (m : M A) :
  (forall a, Q a -> Q' a) -> returns Q m -> returns Q' m.
Proof. intros H Hm w a w' E. apply H. eapply Hm. exact E. Qed.
End ReturnRules.

Lemma returns_any {A : Type} (m : M A) : returns (fun _ => True) m.
Proof. intros w a w' _. exact I. Qed.

Lemma returns_after_log {A : Type} (Q : A -> Prop) (l : level) (what : string) (k : M A) :
  returns Q k -> returns Q (bind (log l what) (fun _ => k)).
Proof.
  intros Hk. eapply returns_bind; [apply returns_any|]. intros _ _. exact Hk.
Qed.

Lemma returns_after_check {A : Type} (Q : A -> Prop) (signal : AbortSignal)
    (e : jserror) (k : M A) :
  returns Q k -> returns Q (bind (aborted signal) (fun b => if b then throw e else k)).
Proof.
  intros Hk. eapply returns_bind; [apply returns_any|].
  intros [|] _; [apply returns_throw|exact Hk].
Qed.

(** ** Rules for cancellation *)

Lemma isAbortError_abortError (message : string) : isAbortError (abortError message) = true.
Proof. reflexivity. Qed.

Section CancelRules.
Context {A B : Type}.

Lemma cancellable_ret (a : A) : cancellable (ret a).
Proof.
  intros w r w' E. inversion E; subst. repeat split. congruence.
Qed.

Lemma cancellable_throw (e : jserror) : cancellable (@throw A e).
Proof.
  intros w r w' E. inversion E; subst. repeat split. congruence.
Qed.

Lemma cancellable_bind (m : M A) (k : A -> M B) :
  cancellable m -> (forall a, cancellable (k a)) -> cancellable (bind m k).
Proof.
  intros Hm Hk w r w' E. unfold bind in E.
  destruct (m w) as [[a|e] w1] eqn:Em.
  - destruct (Hm _ _ _ Em) as (S1 & C1 & A1).
    destruct (Hk a _ _ _ E) as (S2 & C2 & A2).
    split; [congruence|]. split; [congruence|].
    intros H0 H1. destruct (abortSeen w1) eqn:E1.
    + destruct (A1 H0 eq_refl) as (e & He & _). discriminate.
    + apply A2; [reflexivity|exact H1].
  - inversion E; subst. destruct (Hm _ _ _ Em) as (S1 & C1 & A1).
    repeat split; auto. intros H0 H1.
    destruct (A1 H0 H1) as (e' & He' & Hab). inversion He'; subst e'.
    exists e. auto.
Qed.

Lemma cancellable_tryCatch (m : M A) (h : jserror -> M A) :
  cancellable m ->
  (forall e w, isAbortError e = true -> h e w = (Throw e, w)) ->
  (forall e, cancellable (h e)) ->
  cancellable (tryCatch m h).
Proof.
  intros Hm Hre Hh w r w' E. unfold tryCatch in E.
  destruct (m w) as [[a|e] w1] eqn:Em.
  - inversion E; subst. exact (Hm _ _ _ Em).
  - destruct (Hm _ _ _ Em) as (S1 & C1 & A1).
    destruct (Hh e _ _ _ E) as (S2 & C2 & A2).
    split; [congruence|]. split; [congruence|].
    intros H0 H1. destruct (abortSeen w1) eqn:E1.
    + destruct (A1 H0 eq_refl) as (e' & He' & Hab). inversion He'; subst e'.
      rewrite (Hre e w1 Hab) in E. inversion E; subst. exists e. auto.
    + apply A2; [reflexivity|exact H1].
Qed.
End CancelRules.

Lemma cancellable_log (l : level) (what : string) : cancellable (log l what).
Proof.
  intros w r w' E. unfold log in E. inversion E; subst; simpl. repeat split. congruence.
Qed.

Lemma cancellable_randomUUID (gen : nat -> jsstring) : cancellable (randomUUID gen).
Proof.
  intros w r w' E. unfold randomUUID in E. inversion E; subst; simpl. repeat split. congruence.
Qed.

(** A checkpoint: [if (signal?.aborted) throw new DOMException(..., 'AbortError')]. *)
Lemma cancellable_check {A : Type} (signal : AbortSignal) (message : string) (k : M A) :
  cancellable k ->
  cancellable (bind (aborted signal) (fun b => if b then throw (abortError message) else k)).
Proof.
  intros Hk w r w' E. unfold bind, aborted in E.
  destruct signal as [s|].
  - destruct (s (signalReads w)) eqn:Es.
    + inversion E; subst; simpl. repeat split.
      intros _ _. eexists. split; [reflexivity|apply isAbortError_abortError].
    + destruct (Hk _ _ _ E) as (S1 & C1 & A1). simpl in *.
      repeat split; auto. intros H0 H1. apply A1; [|exact H1].
      rewrite H0. reflexivity.
  - exact (Hk _ _ _ E).
Qed.

Lemma cancellable_mapM {A B : Type} (f : A -> M B) (l : list A) :
  (forall a, cancellable (f a)) -> cancellable (mapM f l).
Proof.
  intros Hf. induction l as [|a l IH]; simpl.
  - apply cancellable_ret.
  - apply cancellable_bind; [apply Hf|]. intros b.
    apply cancellable_bind; [exact IH|]. intros bs. apply cancellable_ret.
Qed.

Lemma cancellable_newOption (P : platform) (t : jsvalue) : cancellable (newOption P t).
Proof.
  unfold newOption. apply cancellable_bind; [apply cancellable_randomUUID|].
  intros i. apply cancellable_ret.
Qed.

Lemma cancellable_trimOrUndefined (P : platform) (expr : string) (x : jsref) :
  cancellable (trimOrUndefined P expr x).
Proof.
  unfold trimOrUndefined.
  destruct x as [[| | |s| |]|]; auto using cancellable_ret, cancellable_throw.
Qed.

Lemma cancellable_promote (P : platform) (item : jsvalue) : cancellable (promote P item).
Proof.
  unfold promote.
  apply cancellable_bind; [apply cancellable_mapM; apply cancellable_newOption|].
  intros mcqOptions. apply cancellable_bind; [apply cancellable_randomUUID|].
  intros cid.
  destruct (match get item (str "correctOptionIndex") with
            | Some (JNum n) => index mcqOptions n
            | _ => None
            end) as [correct|]; [|apply cancellable_throw].
  apply cancellable_bind; [apply cancellable_trimOrUndefined|]. intros expl.
  apply cancellable_bind; [apply cancellable_trimOrUndefined|]. intros tpc.
  apply cancellable_ret.
Qed.

Lemma cancellable_processItems (P : platform) (signal : AbortSignal)
    (items : list jsvalue) (flashcards : list FlashcardMCQ) :
  cancellable (processItems P signal items flashcards).
Proof.
  revert flashcards. induction items as [|item rest IH]; intros flashcards; simpl.
  - apply cancellable_ret.
  - apply cancellable_check.
    assert (Hgo : cancellable
                    (if invalidItem item
                     then bind (log LogWarn "Skipping invalid MCQ item from PDF:")
                            (fun _ => processItems P signal rest flashcards)
                     else bind (promote P item)
                            (fun card => processItems P signal rest (flashcards ++ [card])))).
    { destruct (invalidItem item).
      - apply cancellable_bind; [apply cancellable_log|]. intros _. apply IH.
      - apply cancellable_bind; [apply cancellable_promote|]. intros card. apply IH. }
    destruct item; try exact Hgo. apply cancellable_throw.
Qed.

Lemma cancellable_readFileAsBase64 (file : File) (signal : AbortSignal) :
  cancellable (readFileAsBase64 file signal).
Proof.
  unfold readFileAsBase64. apply cancellable_check. apply cancellable_check.
  destruct (readAsDataURL file) as [result| |].
  - destruct (splitSecond 44%N result) as [[|c rest]|];
      auto using cancellable_ret, cancellable_throw.
  - apply cancellable_throw.
  - apply cancellable_throw.
Qed.

Lemma cancellable_extractBody (P : platform) (signal : AbortSignal)
    (svc : request -> outcome) (base64 : jsstring) :
  cancellable (extractBody P signal svc base64).
Proof.
  unfold extractBody. destruct (svc (PdfRequest base64)) as [text|e].
  - apply cancellable_check. apply cancellable_bind.
    + destruct (JSON_parse (stripFence text)); [apply cancellable_ret|].
      apply cancellable_bind; [apply cancellable_log|]. intros _.
      apply cancellable_bind; [apply cancellable_log|]. intros _.
      apply cancellable_throw.
    + intros v.
      assert (Hno : cancellable
                (bind (log LogError "Invalid response structure from Gemini API for PDF: Expected an array, got:")
                   (fun _ => bind (log LogError "Raw string was:")
                     (fun _ => @throw (list FlashcardMCQ)
                        (Eff.Error (str "Invalid response structure from Gemini API: Expected an array.")))))).
      { apply cancellable_bind; [apply cancellable_log|]. intros _.
        apply cancellable_bind; [apply cancellable_log|]. intros _.
        apply cancellable_throw. }
      destruct v; try exact Hno. apply cancellable_processItems.
  - apply cancellable_throw.
Qed.

Lemma cancellable_extract (P : platform) (signal : AbortSignal) (file : File) :
  cancellable (extractMCQsFromPDF P signal file).
Proof.
  unfold extractMCQsFromPDF. destruct (ai P) as [svc|]; [|apply cancellable_throw].
  apply cancellable_check. apply cancellable_bind.
  - apply cancellable_tryCatch.
    + apply cancellable_readFileAsBase64.
    + intros e w He. rewrite He. reflexivity.
    + intros e. destruct (isAbortError e); [apply cancellable_throw|].
      apply cancellable_bind; [apply cancellable_log|]. intros _. apply cancellable_throw.
  - intros base64. apply cancellable_check. apply cancellable_tryCatch.
    + apply cancellable_extractBody.
    + intros e w He. rewrite He. reflexivity.
    + intros e. destruct (isAbortError e); [apply cancellable_throw|].
      apply cancellable_bind; [apply cancellable_log|]. intros _.
      destruct (instanceofError e); [|apply cancellable_throw].
      destruct (startsWith (messageOf e) parseFailurePrefix); apply cancellable_throw.
Qed.

(** C2.  In a run that starts before the signal was seen aborted, as soon as
    one read of the signal (before the file is read, while it is read, after
    it is read, after the request, at the head of the loop) yields
    [aborted], [extractMCQsFromPDF] ends by throwing an [AbortError]: it
    returns no list, truncated or not, and it never touches the storage.
    [handlePdfFileSelected] then (or when its own read of the signal after
    the extraction yields [aborted]) leaves the collection as it was, shows
    the cancellation warning, and makes no write. *)
Theorem cancelled_import_has_no_effect
    (P : platform) (quota : jsstring -> bool)
    (JSON_stringify : list FlashcardMCQ -> jsstring)
    (file : File) (signal : AbortSignal) (controllerSignal : nat -> bool)
    (flashcards : list FlashcardMCQ) (w : world) :
  abortSeen w = false ->
  (forall r w',
      extractMCQsFromPDF P signal file w = (r, w') ->
      abortSeen w' = true ->
      (exists e, r = Throw e /\ isAbortError e = true)
      /\ localStorage w' = localStorage w
      /\ setItemCalls w' = setItemCalls w)
  /\ (forall r w',
      handlePdfFileSelected P quota JSON_stringify file controllerSignal flashcards w
      = (r, w') ->
      abortSeen w' = true ->
      r = Ok (flashcards, MsgWarning)
      /\ localStorage w' = localStorage w
      /\ setItemCalls w' = setItemCalls w).
Proof.
  intros Hstart. split.
  - intros r w' E Hseen.
    destruct (cancellable_extract P signal file _ E) as (S1 & C1 & A1).
    auto.
  - intros r w' E Hseen. unfold handlePdfFileSelected in E.
    destruct (negb (apiKeyAvailable P)).
    { inversion E; subst. congruence. }
    unfold tryCatch in E. unfold bind at 1 in E.
    destruct (extractMCQsFromPDF P (Some controllerSignal) file w) as [[cards|e] w1] eqn:Ex.
    + destruct (cancellable_extract P (Some controllerSignal) file _ Ex) as (S1 & C1 & A1).
      assert (H1 : abortSeen w1 = false).
      { destruct (abortSeen w1) eqn:E1; [|reflexivity].
        destruct (A1 Hstart eq_refl) as (e & He & _). discriminate. }
      unfold bind at 1 in E. unfold aborted in E.
      destruct (controllerSignal (signalReads w1)) eqn:Eb.
      * unfold ret in E. inversion E; subst; simpl. auto.
      * destruct cards as [|c cards].
        -- unfold ret in E. inversion E; subst; simpl in Hseen.
           rewrite H1 in Hseen. discriminate.
        -- unfold bind in E.
           match type of E with
           | context [setFlashcards ?q ?j ?u ?p ?w0] =>
               destruct (setFlashcards_ok q j u p w0) as (w2 & E2 & Ha & _)
           end.
           rewrite E2 in E. unfold ret in E. inversion E; subst.
           rewrite Ha in Hseen. simpl in Hseen. rewrite H1 in Hseen. discriminate.
    + destruct (cancellable_extract P (Some controllerSignal) file _ Ex) as (S1 & C1 & A1).
      destruct (isAbortError e) eqn:Eab.
      * unfold ret in E. inversion E; subst. auto.
      * unfold bind, log, ret in E. inversion E; subst. simpl in Hseen.
        destruct (A1 Hstart Hseen) as (e' & He' & Hab). inversion He'; subst e'.
        congruence.
Qed.

Lemma cancelled_import_has_no_effect_witness :
  fst (handlePdfFileSelected
         (replying (json "[{'question':'Q1','options':['A','B'],'correctOptionIndex':0}]"))
         roomy idsOnly pdf (fun n => Nat.leb 3 n) [card "k1" "kept" None] initial)
  = Ok ([card "k1" "kept" None], MsgWarning).
Proof.
  apply (proj2 (@cancelled_import_has_no_effect
           (replying (json "[{'question':'Q1','options':['A','B'],'correctOptionIndex':0}]"))
           roomy idsOnly pdf None (fun n => Nat.leb 3 n) [card "k1" "kept" None]
           initial eq_refl) _ _ (surjective_pairing _)).
  vm_compute. reflexivity.
Defined.

(** ** What the pipeline returns *)

Lemma mapM_newOption_fresh (P : platform) (texts : list jsvalue) (w : world) :
  exists w', mapM (newOption P) texts w = (Ok (freshOptions (uuid P) (uuids w) texts), w')
             /\ uuids w' = uuids w + List.length texts
             /\ console w' = console w
             /\ signalReads w' = signalReads w.
Proof.
  revert w. induction texts as [|t rest IH]; intros w; simpl.
  - exists w. split; [reflexivity|]. split; [lia|auto].
  - unfold bind at 1. unfold newOption at 1, bind at 1, randomUUID at 1, ret at 1.
    unfold bind at 1.
    match goal with
    | |- context [mapM (newOption P) rest ?w0] =>
        destruct (IH w0) as (w' & E & Hu & Hc & Hs); rewrite E
    end.
    simpl in *. exists w'. split; [reflexivity|]. split; [lia|auto].
Qed.

Lemma freshOptions_texts (gen : nat -> jsstring) (n : nat) (texts : list jsvalue) :
  map text (freshOptions gen n texts) = texts.
Proof.
  revert n. induction texts as [|t rest IH]; intros n; simpl; [reflexivity|].
  f_equal. apply IH.
Qed.

Lemma freshOptions_ids (gen : nat -> jsstring) (n : nat) (texts : list jsvalue) :
  map id (freshOptions gen n texts) = map gen (seq n (List.length texts)).
Proof.
  revert n. induction texts as [|t rest IH]; intros n; simpl; [reflexivity|].
  f_equal. apply IH.
Qed.

Lemma freshOptions_distinct (gen : nat -> jsstring) (n : nat) (texts : list jsvalue) :
  (forall i j, gen i = gen j -> i = j) ->
  NoDup (map id (freshOptions gen n texts)).
Proof.
  intros Hinj. rewrite freshOptions_ids.
  apply Finite.Injective_map_NoDup; [exact Hinj|apply seq_NoDup].
Qed.

Lemma one_option_with_id (opts : list MCQOption) (o : MCQOption) :
  NoDup (map id opts) -> In o opts -> optionsWithId (id o) opts = 1.
Proof.
  unfold optionsWithId.
  induction opts as [|x l IH]; intros Hn Hin; [destruct Hin|].
  simpl in Hn. inversion Hn as [|? ? Hnotin Hn']; subst. simpl.
  destruct Hin as [->|Hin].
  - rewrite jsstring_eqb_refl. simpl. f_equal.
    assert (E : filter (fun o' => jsstring_eqb (id o') (id o)) l = []).
    { apply List.length_zero_iff_nil.
      destruct (filter (fun o' => jsstring_eqb (id o') (id o)) l) as [|y ys] eqn:Ef;
        [reflexivity|exfalso].
      assert (Hy : In y (filter (fun o' => jsstring_eqb (id o') (id o)) l))
        by (rewrite Ef; left; reflexivity).
      apply filter_In in Hy. destruct Hy as [Hy Hid].
      apply jsstring_eqb_eq in Hid. apply Hnotin. rewrite <- Hid.
      apply in_map. exact Hy. }
    rewrite E. reflexivity.
  - destruct (jsstring_eqb (id x) (id o)) eqn:E.
    + exfalso. apply jsstring_eqb_eq in E. apply Hnotin. rewrite E.
      apply in_map. exact Hin.
    + apply IH; assumption.
Qed.

Lemma index_In {A : Type} (l : list A) (n : Q) (x : A) : index l n = Some x -> In x l.
Proof.
  unfold index. destruct (isInteger n && (0 <=? Qnum (Qred n))%Z); [|discriminate].
  apply nth_error_In.
Qed.

Lemma promote_returns (P : platform) (item : jsvalue) :
  invalidItem item = false -> returns (promoted P item) (promote P item).
Proof.
  intros Hvalid w c w' E. unfold invalidItem in Hvalid.
  apply orb_false_iff in Hvalid. destruct Hvalid as [Hq Hrest].
  apply negb_false_iff in Hq.
  destruct (get item (str "options")) as [[| | | |texts|]|] eqn:Eo; try discriminate.
  apply orb_false_iff in Hrest. destruct Hrest as [Hstr _].
  unfold promote in E. rewrite Eo in E. unfold bind at 1 in E.
  destruct (mapM_newOption_fresh P texts w) as (w1 & Em & _). rewrite Em in E.
  unfold bind at 1, randomUUID at 1 in E.
  destruct (match get item (str "correctOptionIndex") with
            | Some (JNum n) => index (freshOptions (uuid P) (uuids w) texts) n
            | _ => None
            end) as [correct|] eqn:Ei; [|discriminate].
  assert (Hin : In correct (freshOptions (uuid P) (uuids w) texts)).
  { destruct (get item (str "correctOptionIndex")) as [[| |n| | |]|]; try discriminate.
    eapply index_In. exact Ei. }
  unfold bind at 1 in E.
  destruct (trimOrUndefined P "item.explanation?.trim" (get item (str "explanation")) _)
    as [[expl|e] w2]; [|discriminate].
  unfold bind at 1 in E.
  destruct (trimOrUndefined P "item.topic?.trim" (get item (str "topic")) _)
    as [[tpc|e] w3]; [|discriminate].
  unfold ret in E. inversion E; subst; simpl.
  exists (uuids w), texts. simpl.
  destruct (get item (str "question")) as [q|] eqn:Eq; [|discriminate].
  repeat split; auto. exists correct. auto.
Qed.

Lemma processItems_returns (P : platform) (signal : AbortSignal) (Q : FlashcardMCQ -> Prop)
    (items : list jsvalue) (flashcards : list FlashcardMCQ) :
  (forall item, invalidItem item = false -> returns Q (promote P item)) ->
  Forall Q flashcards ->
  returns (Forall Q) (processItems P signal items flashcards).
Proof.
  intros Hp. revert flashcards.
  induction items as [|item rest IH]; intros flashcards Hacc; simpl.
  - apply returns_ret. exact Hacc.
  - apply returns_after_check.
    assert (Hgo : returns (Forall Q)
                    (if invalidItem item
                     then bind (log LogWarn "Skipping invalid MCQ item from PDF:")
                            (fun _ => processItems P signal rest flashcards)
                     else bind (promote P item)
                            (fun card => processItems P signal rest (flashcards ++ [card])))).
    { destruct (invalidItem item) eqn:Ev.
      - apply returns_after_log. apply IH. exact Hacc.
      - eapply returns_bind; [apply Hp; exact Ev|].
        intros card Hcard. apply IH. apply Forall_app. split; [exact Hacc|].
        constructor; [exact Hcard|constructor]. }
    destruct item; try exact Hgo. apply returns_throw.
Qed.

Lemma extract_returns (P : platform) (signal : AbortSignal) (file : File)
    (Q : FlashcardMCQ -> Prop) :
  (forall item, invalidItem item = false -> returns Q (promote P item)) ->
  returns (Forall Q) (extractMCQsFromPDF P signal file).
Proof.
  intros Hp. unfold extractMCQsFromPDF.
  destruct (ai P) as [svc|]; [|apply returns_throw].
  apply returns_after_check.
  eapply returns_bind; [apply returns_any|]. intros base64 _.
  apply returns_after_check.
  apply returns_tryCatch.
  - unfold extractBody. destruct (svc (PdfRequest base64)) as [text|e]; [|apply returns_throw].
    apply returns_after_check.
    eapply returns_bind; [apply returns_any|]. intros v _.
    destruct v; try (do 2 apply returns_after_log; apply returns_throw).
    apply processItems_returns; [exact Hp|constructor].
  - intros e. destruct (isAbortError e); [apply returns_throw|].
    apply returns_after_log.
    destruct (instanceofError e); [|apply returns_throw].
    destruct (startsWith (messageOf e) parseFailurePrefix); apply returns_throw.
Qed.

Lemma generate_returns (P : platform) (topic : jsstring) (numOptions : Q) :
  returns (fun g => exists n texts,
               genOptions g = freshOptions (uuid P) n texts
               /\ exists o, In o (genOptions g) /\ genCorrectOptionId g = id o)
          (generateMCQWithGemini P topic numOptions).
Proof.
  unfold generateMCQWithGemini. destruct (ai P) as [svc|]; [|apply returns_throw].
  apply returns_tryCatch.
  - unfold generateBody.
    destruct (svc (TextRequest topic numOptions)) as [text|e]; [|apply returns_throw].
    eapply returns_bind; [apply returns_any|]. intros v _.
    assert (Hgo : returns (fun g => exists n texts,
               genOptions g = freshOptions (uuid P) n texts
               /\ exists o, In o (genOptions g) /\ genCorrectOptionId g = id o)
        (if invalidGenerated v numOptions then
           throw (Eff.Error (str "Invalid response structure from Gemini API for single MCQ generation."))
         else
           bind (mapM (newOption P)
                   match get v (str "options") with Some (JArr l) => l | _ => [] end)
             (fun newOptions =>
                match
                  match get v (str "correctOptionIndex") with
                  | Some (JNum n) => index newOptions n
                  | _ => None
                  end
                with
                | None => throw (TypeError (engineMessage P (ReadOfUndefined "id")))
                | Some correct =>
                    bind (trimOrUndefined P "generatedData.explanation?.trim"
                            (get v (str "explanation")))
                      (fun expl =>
                         ret {| genQuestion :=
                                  match get v (str "question") with
                                  | Some q => q
                                  | None => JNull
                                  end;
                                genOptions := newOptions;
                                genCorrectOptionId := id correct;
                                genTopic :=
                                  match get v (str "topic") with
                                  | Some t => if truthy (Some t) then t else JStr topic
                                  | None => JStr topic
                                  end;
                                genExplanation := expl |})
                end))).
    { destruct (invalidGenerated v numOptions); [apply returns_throw|].
      intros w g w' E. unfold bind at 1 in E.
      match type of E with
      | context [mapM (newOption P) ?texts w] =>
          destruct (mapM_newOption_fresh P texts w) as (w1 & Em & _);
          rewrite Em in E;
          destruct (match get v (str "correctOptionIndex") with
                    | Some (JNum n) => index (freshOptions (uuid P) (uuids w) texts) n
                    | _ => None
                    end) as [correct|] eqn:Ei; [|discriminate];
          assert (Hin : In correct (freshOptions (uuid P) (uuids w) texts))
      end.
      { destruct (get v (str "correctOptionIndex")) as [[| |n| | |]|]; try discriminate.
        eapply index_In. exact Ei. }
      unfold bind at 1 in E.
      destruct (trimOrUndefined P "generatedData.explanation?.trim"
                  (get v (str "explanation")) w1) as [[expl|e] w2]; [|discriminate].
      unfold ret in E. inversion E; subst; simpl.
      eexists _, _. split; [reflexivity|]. exists correct. auto. }
    destruct v; try exact Hgo. apply returns_throw.
  - intros e. apply returns_after_log. destruct (instanceofError e); apply returns_throw.
Qed.

Lemma serial_injective (i j : nat) : serial i = serial j -> i = j.
Proof.
  unfold serial. intros H. apply (f_equal (@List.length N)) in H.
  rewrite !repeat_length in H. lia.
Qed.

(** C5.  With an identifier supply that never repeats, every card returned
    by [extractMCQsFromPDF] and every question returned by
    [generateMCQWithGemini] has exactly one option whose id is the card's
    [correctOptionId]. *)
Theorem exactly_one_correct_option (P : platform) :
  (forall i j, uuid P i = uuid P j -> i = j) ->
  (forall signal file w cards w',
      extractMCQsFromPDF P signal file w = (Ok cards, w') ->
      forall c, In c cards -> optionsWithId (correctOptionId c) (options c) = 1)
  /\ (forall topic numOptions w g w',
      generateMCQWithGemini P topic numOptions w = (Ok g, w') ->
      optionsWithId (genCorrectOptionId g) (genOptions g) = 1).
Proof.
  intros Hinj. split.
  - intros signal file w cards w' E c Hc.
    assert (Hall : Forall (fun c => optionsWithId (correctOptionId c) (options c) = 1) cards).
    { eapply (@extract_returns P signal file); [|exact E].
      intros item Hvalid. eapply returns_weaken; [|apply promote_returns; exact Hvalid].
      intros c0 (n & texts & _ & Hopts & (o & Ho & Hid) & _).
      rewrite Hid. apply one_option_with_id; [|exact Ho].
      rewrite Hopts. apply freshOptions_distinct. exact Hinj. }
    rewrite Forall_forall in Hall. apply Hall. exact Hc.
  - intros topic numOptions w g w' E.
    destruct (generate_returns P topic numOptions _ E) as (n & texts & Hopts & o & Ho & Hid).
    rewrite Hid. apply one_option_with_id; [|exact Ho].
    rewrite Hopts. apply freshOptions_distinct. exact Hinj.
Qed.

Lemma exactly_one_correct_option_witness :
  Forall (fun c => optionsWithId (correctOptionId c) (options c) = 1)
    (match fst (extractMCQsFromPDF
                  (replying (json "[{'question':'Q1','options':['A','B'],'correctOptionIndex':1}]"))
                  None pdf initial) with
     | Ok cards => cards
     | Throw _ => []
     end).
Proof.
  apply Forall_forall. intros c Hc.
  eapply (proj1 (@exactly_one_correct_option
                   (replying (json "[{'question':'Q1','options':['A','B'],'correctOptionIndex':1}]"))
                   serial_injective) None pdf initial).
  - vm_compute. reflexivity.
  - vm_compute in Hc. vm_compute. exact Hc.
Defined.

(** ** Cards made by the form *)






(** ** A fractional index *)

Lemma promote_fractional_never_returns (P : platform) (item : jsvalue) (n : Q) :
  get item (str "correctOptionIndex") = Some (JNum n) ->
  isInteger n = false ->
  returns (fun _ => False) (promote P item).
Proof.
  intros Hn Hfrac. unfold promote. rewrite Hn.
  eapply returns_bind; [apply returns_any|]. intros mcqOptions _.
  eapply returns_bind; [apply returns_any|]. intros cid _.
  unfold index. rewrite Hfrac. simpl. apply returns_throw.
Qed.

Lemma processItems_never_returns (P : platform) (signal : AbortSignal)
    (bad : jsvalue) (items : list jsvalue) (flashcards : list FlashcardMCQ) :
  In bad items ->
  invalidItem bad = false ->
  returns (fun _ => False) (promote P bad) ->
  returns (fun _ => False) (processItems P signal items flashcards).
Proof.
  intros Hin Hvalid Hbad. revert flashcards.
  induction items as [|item rest IH]; intros flashcards; [destruct Hin|].
  simpl. apply returns_after_check.
  assert (Hgo : returns (fun _ => False)
                  (if invalidItem item
                   then bind (log LogWarn "Skipping invalid MCQ item from PDF:")
                          (fun _ => processItems P signal rest flashcards)
                   else bind (promote P item)
                          (fun card => processItems P signal rest (flashcards ++ [card])))).
  { destruct Hin as [->|Hin].
    - rewrite Hvalid. eapply returns_bind; [exact Hbad|]. intros card [].
    - destruct (invalidItem item).
      + apply returns_after_log. apply IH. exact Hin.
      + eapply returns_bind; [apply returns_any|]. intros card _. apply IH. exact Hin. }
  destruct item; try exact Hgo. apply returns_throw.
Qed.

(** C1 does not hold of the code, by a defect of the loop's guard.  The
    guard lets a [correctOptionIndex] through that is a number in range but
    not an integer; reading
    [mcqOptions[item.correctOptionIndex].id] then throws, and the error
    leaves the loop: whatever the signal and the file, a reply with such a
    record among its elements never yields cards.  The record is not
    skipped and its valid neighbours are lost with it. *)
Theorem fractional_index_fails_whole_batch
    (P : platform) (svc : request -> outcome) (text : jsstring)
    (items : list jsvalue) (item : jsvalue) (n : Q)
    (signal : AbortSignal) (file : File) (w : world) :
  ai P = Some svc ->
  (forall base64, svc (PdfRequest base64) = Resolved text) ->
  JSON_parse (stripFence text) = Some (JArr items) ->
  In item items ->
  invalidItem item = false ->
  get item (str "correctOptionIndex") = Some (JNum n) ->
  isInteger n = false ->
  exists e, fst (extractMCQsFromPDF P signal file w) = Throw e.
Proof.
  intros Hai Hsvc Hparse Hin Hvalid Hn Hfrac.
  assert (Hnever : returns (fun _ => False) (extractMCQsFromPDF P signal file)).
  { unfold extractMCQsFromPDF. rewrite Hai.
    apply returns_after_check.
    eapply returns_bind; [apply returns_any|]. intros base64 _.
    apply returns_after_check.
    apply returns_tryCatch.
    - unfold extractBody. rewrite Hsvc.
      apply returns_after_check. rewrite Hparse.
      eapply returns_bind with (R := fun v => v = JArr items);
        [apply returns_ret; reflexivity|].
      intros v ->.
      eapply processItems_never_returns; [exact Hin|exact Hvalid|].
      eapply promote_fractional_never_returns; eassumption.
    - intros e. destruct (isAbortError e); [apply returns_throw|].
      apply returns_after_log.
      destruct (instanceofError e); [|apply returns_throw].
      destruct (startsWith (messageOf e) parseFailurePrefix); apply returns_throw. }
  destruct (extractMCQsFromPDF P signal file w) as [[cards|e] w'] eqn:E.
  - destruct (Hnever _ _ _ E).
  - exists e. reflexivity.
Qed.

Lemma fractional_index_fails_whole_batch_witness :
  exists e,
    fst (extractMCQsFromPDF
           (replying (json "[{'question':'Q1','options':['A','B'],'correctOptionIndex':0},{'question':'Q2','options':['A','B'],'correctOptionIndex':0.5}]"))
           None pdf initial)
    = Throw e.
Proof.
  eapply (@fractional_index_fails_whole_batch
            (replying (json "[{'question':'Q1','options':['A','B'],'correctOptionIndex':0},{'question':'Q2','options':['A','B'],'correctOptionIndex':0.5}]"))
            _ _ _ _ (1 # 2)%Q None pdf initial).
  - reflexivity.
  - intros base64. reflexivity.
  - vm_compute. reflexivity.
  - right. left. reflexivity.
  - vm_compute. reflexivity.
  - vm_compute. reflexivity.
  - reflexivity.
Defined.

(** The reply of the specification's example: the second record is skipped
    for its empty question, the first becomes the only card, and its
    [correctOptionId] is the id of the option with text A. *)
Example extract_two_record_batch :
  fst (extractMCQsFromPDF
         (replying (json "[{'question':'Q1','options':['A','B'],'correctOptionIndex':0}, {'question':'','options':['A','B'],'correctOptionIndex':0}]"))
         None pdf initial)
  = Ok [ {| cardId := serial 2; question := JStr (str "Q1");
            options := [ {| id := serial 0; text := JStr (str "A") |};
                         {| id := serial 1; text := JStr (str "B") |} ];
            correctOptionId := serial 0; topic := None; explanation := None;
            sourcePdfName := None |} ].
Proof. vm_compute. reflexivity. Qed.

(** The same first record followed by one with the index 0.5: the error
    that reaches the caller, and no card. *)
Example extract_fractional_index_batch :
  fst (extractMCQsFromPDF
         (replying (json "[{'question':'Q1','options':['A','B'],'correctOptionIndex':0},{'question':'Q2','options':['A','B'],'correctOptionIndex':0.5}]"))
         None pdf initial)
  = Throw (Eff.Error
             (str "Failed to extract MCQs from PDF: Cannot read properties of undefined (reading 'id')")).
Proof. vm_compute. reflexivity. Qed.

(** A [null] element is fatal to the batch as well. *)
Example extract_null_element_batch :
  fst (extractMCQsFromPDF
         (replying (json "[{'question':'Q1','options':['A','B'],'correctOptionIndex':0},null]"))
         None pdf initial)
  = Throw (Eff.Error
             (str "Failed to extract MCQs from PDF: Cannot read properties of null (reading 'question')")).
Proof. vm_compute. reflexivity. Qed.

(** A question that is truthy without being a string passes the guard. *)
Example extract_numeric_question :
  fst (extractMCQsFromPDF
         (replying (json "[{'question':7,'options':['A','B'],'correctOptionIndex':1}]"))
         None pdf initial)
  = Ok [ {| cardId := serial 2; question := JNum 7;
            options := [ {| id := serial 0; text := JStr (str "A") |};
                         {| id := serial 1; text := JStr (str "B") |} ];
            correctOptionId := serial 1; topic := None; explanation := None;
            sourcePdfName := None |} ].
Proof. vm_compute. reflexivity. Qed.

(** ** [trim] *)

Lemma dropWhile_split (p : char -> bool) (s : jsstring) :
  exists u, s = u ++ dropWhile p s /\ forallb p u = true.
Proof.
  induction s as [|c s IH]; simpl.
  - exists []. auto.
  - destruct (p c) eqn:E.
    + destruct IH as (u & Hs & Hu). exists (c :: u). simpl. rewrite E, Hu.
      split; [f_equal; exact Hs|reflexivity].
    + exists []. auto.
Qed.

Lemma dropWhile_head (p : char -> bool) (s : jsstring) (c : char) (r : jsstring) :
  dropWhile p s = c :: r -> p c = false.
Proof.
  induction s as [|x s IH]; simpl; [discriminate|].
  destruct (p x) eqn:E; [exact IH|]. intros H. inversion H; subst. exact E.
Qed.

Lemma dropWhile_same (p : char -> bool) (s : jsstring) :
  (forall c r, s = c :: r -> p c = false) -> dropWhile p s = s.
Proof.
  intros H. destruct s as [|c r]; simpl; [reflexivity|].
  rewrite (H c r eq_refl). reflexivity.
Qed.

Lemma trim_unpadded (s : jsstring) : unpadded s -> trim s = s.
Proof.
  intros [Hh Hl]. unfold trim, trimEnd, trimStart.
  rewrite (dropWhile_same _ Hh).
  rewrite dropWhile_same; [apply rev_involutive|].
  intros c r E. apply (Hl (rev r) c).
  rewrite <- (rev_involutive s), E. reflexivity.
Qed.

Lemma trim_spec (s : jsstring) :
  exists u v, s = u ++ trim s ++ v
              /\ forallb isWhiteSpace u = true
              /\ forallb isWhiteSpace v = true
              /\ unpadded (trim s).
Proof.
  unfold trim, trimEnd, trimStart.
  destruct (dropWhile_split isWhiteSpace s) as (u & Hs & Hu).
  destruct (dropWhile_split isWhiteSpace (rev (dropWhile isWhiteSpace s))) as (v' & Hr & Hv').
  set (s1 := dropWhile isWhiteSpace s) in *.
  set (d := dropWhile isWhiteSpace (rev s1)) in *.
  assert (Hs1 : s1 = rev d ++ rev v').
  { rewrite <- rev_app_distr, <- Hr. symmetry. apply rev_involutive. }
  exists u, (rev v'). split; [|split; [|split]].
  - rewrite <- Hs1. exact Hs.
  - exact Hu.
  - rewrite forallb_forall in *. intros x Hx. apply Hv'. apply in_rev. exact Hx.
  - split.
    + intros c r E. rewrite E in Hs1. simpl in Hs1.
      apply (dropWhile_head isWhiteSpace s (r := r ++ rev v')). exact Hs1.
    + intros r c E.
      apply (dropWhile_head isWhiteSpace (rev s1) (r := rev r)).
      fold d. rewrite <- (rev_involutive d), E, rev_app_distr. reflexivity.
Qed.

(** ** The matcher on a fenced text *)

Lemma matchAtoms_Chr (c : char) (r : list atom) (x : char) (s : jsstring) :
  matchAtoms (Chr c :: r) (x :: s)
  = if N.eqb x c then option_map (cons [x]) (matchAtoms r s) else None.
Proof. reflexivity. Qed.

Lemma matchAtoms_Opt (p : char -> bool) (r : list atom) (s : jsstring) :
  matchAtoms (Opt p :: r) s = optional (matchAtoms r) p s.
Proof. reflexivity. Qed.

Lemma matchAtoms_Star (p : char -> bool) (r : list atom) (s : jsstring) :
  matchAtoms (Star p :: r) s = greedy (matchAtoms r) p [] s.
Proof. reflexivity. Qed.

Lemma matchAtoms_LazyStar (p : char -> bool) (r : list atom) (s : jsstring) :
  matchAtoms (LazyStar p :: r) s = lazy (matchAtoms r) p [] s.
Proof. reflexivity. Qed.

Section QuantifierFacts.
Variable k : jsstring -> option (list jsstring).
Variable p : char -> bool.

(** A greedy star takes the whole run when the rest matches after it. *)
Lemma greedy_max (u v acc : jsstring) (m : list jsstring) :
  forallb p u = true ->
  (forall c r, v = c :: r -> p c = false) ->
  k v = Some m ->
  greedy k p acc (u ++ v) = Some ((acc ++ u) :: m).
Proof.
  intros Hu Hv Hk. revert acc. induction u as [|x u IH]; intros acc.
  - rewrite app_nil_r. simpl. destruct v as [|c r]; simpl.
    + rewrite Hk. reflexivity.
    + rewrite (Hv c r eq_refl), Hk. reflexivity.
  - simpl in Hu. apply andb_true_iff in Hu. destruct Hu as [Hx Hu].
    simpl. rewrite Hx, (IH Hu (acc ++ [x])), <- app_assoc. reflexivity.
Qed.

(** A lazy star stops at the first position from which the rest matches. *)
Lemma lazy_first (u v acc : jsstring) (m : list jsstring) :
  forallb p u = true ->
  (forall u1 u2, u = u1 ++ u2 -> u2 <> [] -> k (u2 ++ v) = None) ->
  k v = Some m ->
  lazy k p acc (u ++ v) = Some ((acc ++ u) :: m).
Proof.
  intros Hu Hno Hk. revert acc. induction u as [|x u IH]; intros acc.
  - rewrite app_nil_r. simpl. destruct v; simpl; rewrite Hk; reflexivity.
  - simpl in Hu. apply andb_true_iff in Hu. destruct Hu as [Hx Hu].
    assert (E0 : k (x :: u ++ v) = None)
      by (apply (Hno [] (x :: u)); [reflexivity|discriminate]).
    simpl. rewrite E0, Hx, IH, <- app_assoc; [reflexivity|exact Hu|].
    intros u1 u2 E Hne. apply (Hno (x :: u1) u2); [rewrite E; reflexivity|exact Hne].
Qed.

Lemma optional_skip (s : jsstring) :
  (forall c r, s = c :: r -> p c = false) ->
  optional k p s = option_map (cons []) (k s).
Proof.
  intros H. destruct s as [|c r]; simpl; [reflexivity|].
  rewrite (H c r eq_refl). reflexivity.
Qed.

Lemma optional_take (x : char) (s : jsstring) (m : list jsstring) :
  p x = true -> k s = Some m -> optional k p (x :: s) = Some ([x] :: m).
Proof. intros Hx Hk. simpl. rewrite Hx, Hk. reflexivity. Qed.

(** What a successful quantifier consumed. *)
Lemma greedy_sound (acc s : jsstring) (m' : list jsstring) :
  greedy k p acc s = Some m' ->
  exists u v m, s = u ++ v /\ forallb p u = true /\ k v = Some m.
Proof.
  revert acc m'. induction s as [|x s IH]; intros acc m'; simpl.
  - destruct (k []) as [m|] eqn:E; [|discriminate]. intros _.
    exists [], [], m. auto.
  - destruct (p x) eqn:Hx.
    + destruct (greedy k p (acc ++ [x]) s) as [m1|] eqn:Eg.
      * intros _. destruct (IH _ _ Eg) as (u & v & m & Hs & Hu & Hk).
        exists (x :: u), v, m. simpl. rewrite Hx, Hu, Hs. auto.
      * destruct (k (x :: s)) as [m|] eqn:E; [|discriminate]. intros _.
        exists [], (x :: s), m. auto.
    + destruct (k (x :: s)) as [m|] eqn:E; [|discriminate]. intros _.
      exists [], (x :: s), m. auto.
Qed.

Lemma optional_sound (s : jsstring) (m' : list jsstring) :
  optional k p s = Some m' ->
  exists u v m, s = u ++ v /\ forallb p u = true /\ k v = Some m.
Proof.
  destruct s as [|x s]; simpl.
  - destruct (k []) as [m|] eqn:E; [|discriminate]. intros _. exists [], [], m. auto.
  - destruct (p x) eqn:Hx.
    + destruct (k s) as [m|] eqn:E.
      * intros _. exists [x], s, m. simpl. rewrite Hx. auto.
      * destruct (k (x :: s)) as [m|] eqn:E'; [|discriminate]. intros _.
        exists [], (x :: s), m. auto.
    + destruct (k (x :: s)) as [m|] eqn:E'; [|discriminate]. intros _.
      exists [], (x :: s), m. auto.
Qed.
End QuantifierFacts.

Lemma lineFeed_isWhiteSpace (x : char) : isLineFeed x = true -> isWhiteSpace x = true.
Proof. unfold isLineFeed. intros H. apply N.eqb_eq in H. subst x. reflexivity. Qed.

Lemma forallb_lineFeed_isWhiteSpace (u : jsstring) :
  forallb isLineFeed u = true -> forallb isWhiteSpace u = true.
Proof.
  rewrite !forallb_forall. intros H x Hx. apply lineFeed_isWhiteSpace. apply H. exact Hx.
Qed.

Lemma spaces_then_backticks (W : jsstring) :
  forallb isWhiteSpace W = true ->
  matchAtoms [Star isWhiteSpace; Chr 96; Chr 96; Chr 96]%N (W ++ backticks)
  = Some [W; [96]; [96]; [96]]%N.
Proof.
  intros HW. rewrite matchAtoms_Star.
  rewrite (@greedy_max _ _ W backticks [] [[96]; [96]; [96]]%N HW); [reflexivity| |reflexivity].
  intros c r E. inversion E; subst. reflexivity.
Qed.

(** The end of the pattern matches white space followed by the closing
    marker ... *)
Lemma closing_matches (W : jsstring) :
  forallb isWhiteSpace W = true ->
  exists m,
    matchAtoms [Opt isLineFeed; Star isWhiteSpace; Chr 96; Chr 96; Chr 96]%N (W ++ backticks)
    = Some m.
Proof.
  intros HW. rewrite matchAtoms_Opt. destruct W as [|x W'].
  - rewrite optional_skip.
    + rewrite (spaces_then_backticks [] eq_refl). eexists. reflexivity.
    + intros c r E. inversion E; subst. reflexivity.
  - simpl in HW. apply andb_true_iff in HW. destruct HW as [Hx HW'].
    destruct (isLineFeed x) eqn:El.
    + simpl app. erewrite optional_take; [eexists; reflexivity|exact El|].
      apply spaces_then_backticks. exact HW'.
    + rewrite optional_skip.
      * rewrite spaces_then_backticks; [eexists; reflexivity|].
        simpl. rewrite Hx, HW'. reflexivity.
      * intros c r E. inversion E; subst. exact El.
Qed.

(** ... and nothing else. *)
Lemma closing_sound (s : jsstring) (m : list jsstring) :
  matchAtoms [Opt isLineFeed; Star isWhiteSpace; Chr 96; Chr 96; Chr 96]%N s = Some m ->
  exists W, s = W ++ backticks /\ forallb isWhiteSpace W = true.
Proof.
  rewrite matchAtoms_Opt. intros H.
  apply optional_sound in H. destruct H as (u & v & m1 & Hs & Hu & Hk).
  rewrite matchAtoms_Star in Hk.
  apply greedy_sound in Hk. destruct Hk as (u' & v' & m2 & Hv & Hu' & Hk).
  assert (Hv' : v' = backticks).
  { destruct v' as [|a [|b [|c [|d r]]]]; simpl in Hk; try discriminate;
      repeat match type of Hk with
             | context [N.eqb ?x 96%N] => destruct (N.eqb_spec x 96%N); [subst|discriminate]
             end; try discriminate.
    reflexivity. }
  exists (u ++ u'). split.
  - rewrite Hs, Hv, Hv', app_assoc. reflexivity.
  - rewrite forallb_app, Hu', (forallb_lineFeed_isWhiteSpace _ Hu). reflexivity.
Qed.

Lemma unpadded_head (T : jsstring) (rest : jsstring) (c : char) (r : jsstring) :
  unpadded T -> T <> [] -> T ++ rest = c :: r -> isWhiteSpace c = false.
Proof.
  intros [Hh _] Hne E. destruct T as [|x T']; [congruence|].
  simpl in E. inversion E; subst. apply (Hh c T' eq_refl).
Qed.

Lemma unpadded_suffix_not_spaces (T u1 u2 rest : jsstring) :
  unpadded T -> T = u1 ++ u2 -> u2 <> [] ->
  forallb isWhiteSpace (u2 ++ rest) = true -> False.
Proof.
  intros [_ Hl] E Hne Hall.
  destruct (exists_last Hne) as (r & c & Hu2).
  assert (Hc : isWhiteSpace c = false).
  { apply (Hl (u1 ++ r) c). rewrite E, Hu2, app_assoc. reflexivity. }
  rewrite forallb_app in Hall. apply andb_true_iff in Hall. destruct Hall as [Hall _].
  rewrite Hu2, forallb_app in Hall. simpl in Hall. rewrite Hc in Hall.
  rewrite andb_false_r in Hall. discriminate.
Qed.

(** The pattern on a fenced text: group 2 is the text without the white
    space around it. *)
Lemma fenceBody_fenced (lang u T v : jsstring) :
  forallb isWordChar lang = true ->
  forallb isWhiteSpace u = true ->
  forallb isWhiteSpace v = true ->
  unpadded T -> T <> [] ->
  fenceBody (backticks ++ lang ++ (10%N :: u) ++ T ++ (v ++ [10%N]) ++ backticks) = Some T.
Proof.
  intros Hlang Hu Hv HT Hne.
  assert (Hv' : forallb isWhiteSpace (v ++ [10%N]) = true).
  { rewrite forallb_app, Hv. reflexivity. }
  destruct (closing_matches _ Hv') as (m4 & E4).
  assert (E3 : matchAtoms [LazyStar anyChar; Opt isLineFeed; Star isWhiteSpace;
                           Chr 96; Chr 96; Chr 96]%N
                 (T ++ (v ++ [10%N]) ++ backticks) = Some (T :: m4)).
  { rewrite matchAtoms_LazyStar.
    rewrite (@lazy_first _ _ T ((v ++ [10%N]) ++ backticks) [] m4); [reflexivity| | |exact E4].
    - apply forallb_forall. reflexivity.
    - intros u1 u2 E Hu2.
      destruct (matchAtoms _ (u2 ++ (v ++ [10%N]) ++ backticks)) as [m|] eqn:Em; [|reflexivity].
      exfalso. apply closing_sound in Em. destruct Em as (W & HW & Hall).
      rewrite app_assoc in HW. apply app_inv_tail in HW. subst W.
      eapply unpadded_suffix_not_spaces; eassumption. }
  assert (E2 : matchAtoms [Opt isLineFeed; LazyStar anyChar; Opt isLineFeed;
                           Star isWhiteSpace; Chr 96; Chr 96; Chr 96]%N
                 (T ++ (v ++ [10%N]) ++ backticks) = Some ([] :: T :: m4)).
  { rewrite matchAtoms_Opt, optional_skip, E3; [reflexivity|].
    intros c r E.
    assert (Hc : isWhiteSpace c = false) by (eapply unpadded_head; eassumption).
    unfold isLineFeed. destruct (N.eqb_spec c 10); [subst; discriminate|reflexivity]. }
  assert (E1 : matchAtoms [Star isWhiteSpace; Opt isLineFeed; LazyStar anyChar;
                           Opt isLineFeed; Star isWhiteSpace; Chr 96; Chr 96; Chr 96]%N
                 ((10%N :: u) ++ T ++ (v ++ [10%N]) ++ backticks)
               = Some ((10%N :: u) :: [] :: T :: m4)).
  { rewrite matchAtoms_Star.
    rewrite (@greedy_max _ _ (10%N :: u) (T ++ (v ++ [10%N]) ++ backticks) []
               ([] :: T :: m4)); [reflexivity| | |exact E2].
    - simpl. exact Hu.
    - intros c r E. eapply unpadded_head; eassumption. }
  assert (E0 : matchAtoms [Star isWordChar; Star isWhiteSpace; Opt isLineFeed;
                           LazyStar anyChar; Opt isLineFeed; Star isWhiteSpace;
                           Chr 96; Chr 96; Chr 96]%N
                 (lang ++ (10%N :: u) ++ T ++ (v ++ [10%N]) ++ backticks)
               = Some (lang :: (10%N :: u) :: [] :: T :: m4)).
  { rewrite matchAtoms_Star.
    rewrite (@greedy_max _ _ lang ((10%N :: u) ++ T ++ (v ++ [10%N]) ++ backticks) []
               ((10%N :: u) :: [] :: T :: m4) Hlang); [reflexivity| |exact E1].
    intros c r E. inversion E; subst. reflexivity. }
  unfold fenceBody.
  change (matchAtoms fenceRegex
            (backticks ++ lang ++ (10%N :: u) ++ T ++ (v ++ [10%N]) ++ backticks))
    with (option_map (cons [96%N]) (option_map (cons [96%N]) (option_map (cons [96%N])
            (matchAtoms [Star isWordChar; Star isWhiteSpace; Opt isLineFeed;
                         LazyStar anyChar; Opt isLineFeed; Star isWhiteSpace;
                         Chr 96; Chr 96; Chr 96]%N
               (lang ++ (10%N :: u) ++ T ++ (v ++ [10%N]) ++ backticks))))).
  rewrite E0. simpl.
  destruct T as [|c T']; [congruence|reflexivity].
Qed.

Lemma fenced_unpadded (lang text : jsstring) : unpadded (fenced lang text).
Proof.
  unfold fenced. change (str "```") with backticks. split.
  - intros c r E. inversion E; subst. reflexivity.
  - intros r c E.
    assert (H : rev (backticks ++ lang ++ [10%N] ++ text ++ [10%N] ++ backticks) = rev (r ++ [c]))
      by (rewrite E; reflexivity).
    rewrite !rev_app_distr in H. simpl in H. inversion H; subst. reflexivity.
Qed.

Lemma stripFence_fenced (lang t : jsstring) :
  forallb isWordChar lang = true ->
  trim t <> [] ->
  stripFence (fenced lang t) = trim t.
Proof.
  intros Hlang Hne. unfold stripFence.
  rewrite (trim_unpadded (fenced_unpadded lang t)).
  destruct (trim_spec t) as (u & v & Ht & Hu & Hv & HT).
  assert (E : fenced lang t
              = backticks ++ lang ++ (10%N :: u) ++ trim t ++ (v ++ [10%N]) ++ backticks).
  { unfold fenced. change (str "```") with backticks. rewrite Ht at 1.
    simpl. rewrite <- !app_assoc. reflexivity. }
  rewrite E, (@fenceBody_fenced lang u (trim t) v Hlang Hu Hv HT Hne).
  apply trim_unpadded. exact HT.
Qed.

(** C7, as amended.  For a reply [t] that has text besides white space and
    is not itself a fenced block (the fence pattern finds no body in it),
    wrapping [t] in a fenced block, with or without a language tag, changes
    nothing: the text handed to [JSON.parse] is the same, and so are the
    complete runs of [extractMCQsFromPDF] and of [generateMCQWithGemini]. *)
Theorem fence_is_transparent (P : platform) (lang t : jsstring) :
  forallb isWordChar lang = true ->
  trim t <> [] ->
  fenceBody (trim t) = None ->
  stripFence (fenced lang t) = stripFence t
  /\ (forall signal file w,
        extractMCQsFromPDF (withReply P (fenced lang t)) signal file w
        = extractMCQsFromPDF (withReply P t) signal file w)
  /\ (forall topic numOptions w,
        generateMCQWithGemini (withReply P (fenced lang t)) topic numOptions w
        = generateMCQWithGemini (withReply P t) topic numOptions w).
Proof.
  intros Hlang Hne Hbare.
  assert (E : stripFence (fenced lang t) = stripFence t).
  { rewrite (@stripFence_fenced lang t Hlang Hne). unfold stripFence.
    rewrite Hbare. reflexivity. }
  split; [exact E|]. split.
  - intros signal file w.
    unfold extractMCQsFromPDF, extractBody, withReply. simpl.
    rewrite E. reflexivity.
  - intros topic numOptions w.
    unfold generateMCQWithGemini, generateBody, withReply. simpl.
    rewrite E. reflexivity.
Qed.

Lemma fence_is_transparent_witness :
  extractMCQsFromPDF
    (withReply (replying [])
       (fenced (str "json")
          (json "[{'question':'Q1','options':['A','B'],'correctOptionIndex':0}]")))
    None pdf initial
  = extractMCQsFromPDF
      (withReply (replying [])
         (json "[{'question':'Q1','options':['A','B'],'correctOptionIndex':0}]"))
      None pdf initial.
Proof.
  apply (@fence_is_transparent (replying []) (str "json")
           (json "[{'question':'Q1','options':['A','B'],'correctOptionIndex':0}]")).
  - reflexivity.
  - vm_compute. discriminate.
  - vm_compute. reflexivity.
Defined.

(** C7, as stated, fails for a reply that is itself fenced: only one fence
    is removed, so the wrapped reply no longer parses while the bare one
    yields the empty list. *)
Lemma fenced_fence_parses_differently :
  fst (extractMCQsFromPDF (replying (fenced (str "json") (str "```[]```"))) None pdf initial)
  = Throw (Eff.Error
             (str "Failed to parse MCQs from PDF due to invalid JSON format: Unexpected token in JSON text ```[]```"))
  /\ fst (extractMCQsFromPDF (replying (str "```[]```")) None pdf initial) = Ok []
  /\ fst (extractMCQsFromPDF (replying (fenced (str "json") (str "```[]```"))) None pdf initial)
     <> fst (extractMCQsFromPDF (replying (str "```[]```")) None pdf initial).
Proof.
  split; [vm_compute; reflexivity|]. split; [vm_compute; reflexivity|].
  vm_compute. discriminate.
Qed.

(** A reply without text fails to parse either way, on different texts. *)
Example fenced_empty_reply :
  stripFence (fenced (str "json") []) = fenced (str "json") []
  /\ stripFence [] = [].
Proof. split; vm_compute; reflexivity. Qed.

(** ** Replies typed as the interface says *)

Lemma index_integer_in_range {A : Type} (l : list A) (n : Q) :
  isInteger n = true ->
  num_lt n 0 = false ->
  num_ge n (num_of_nat (List.length l)) = false ->
  exists x, index l n = Some x.
Proof.
  unfold index. unfold isInteger, num_lt, num_ge, num_of_nat. intros Hint Hlo Hhi.
  rewrite Hint. apply Pos.eqb_eq in Hint.
  apply negb_false_iff in Hlo. apply Qle_bool_iff in Hlo.
  assert (Hhi' : ~ (inject_Z (Z.of_nat (List.length l)) <= n)%Q).
  { intros H. apply Qle_bool_iff in H. congruence. }
  pose proof (Qred_correct n) as Hred.
  rewrite <- Hred in Hlo, Hhi'.
  destruct (Qred n) as [a d] eqn:Eq. simpl in *. subst d.
  unfold Qle in Hlo, Hhi'. simpl in Hlo, Hhi'.
  assert (Ha : (0 <= a)%Z) by lia.
  assert (Hb : (a < Z.of_nat (List.length l))%Z) by lia.
  assert (E : (0 <=? a)%Z = true) by (apply Z.leb_le; exact Ha).
  rewrite E. simpl.
  destruct (nth_error l (Z.to_nat a)) as [x|] eqn:En; [exists x; reflexivity|].
  apply nth_error_None in En. lia.
Qed.

Lemma trimOrUndefined_trimmable (P : platform) (expr : string) (r : jsref) (w : world) :
  trimmable r -> exists t, trimOrUndefined P expr r w = (Ok t, w).
Proof.
  intros [->|[->|(s & ->)]]; simpl; eexists; reflexivity.
Qed.

Lemma promote_succeeds (P : platform) (item : jsvalue) (w : world) :
  wellFormedItem item ->
  invalidItem item = false ->
  exists c w', promote P item w = (Ok c, w')
               /\ console w' = console w
               /\ signalReads w' = signalReads w.
Proof.
  intros (_ & Hint & Hexpl & Htopic) Hvalid.
  unfold invalidItem in Hvalid.
  apply orb_false_iff in Hvalid. destruct Hvalid as [_ Hrest].
  destruct (get item (str "options")) as [[| | | |texts|]|] eqn:Eo; try discriminate.
  apply orb_false_iff in Hrest. destruct Hrest as [_ Hidx].
  destruct (get item (str "correctOptionIndex")) as [[| |n| | |]|] eqn:Ei; try discriminate.
  apply orb_false_iff in Hidx. destruct Hidx as [Hlo Hhi].
  unfold promote. rewrite Eo, Ei.
  destruct (mapM_newOption_fresh P texts w) as (w1 & Em & Hu1 & Hc1 & Hs1).
  assert (Hlen : List.length (freshOptions (uuid P) (uuids w) texts) = List.length texts).
  { rewrite <- (length_map text), freshOptions_texts. reflexivity. }
  destruct (@index_integer_in_range _ (freshOptions (uuid P) (uuids w) texts) n
              (Hint n eq_refl) Hlo) as (correct & Ecorrect).
  { rewrite Hlen. exact Hhi. }
  unfold bind at 1. rewrite Em. unfold bind at 1, randomUUID at 1. rewrite Ecorrect.
  unfold bind at 1.
  match goal with
  | |- context [trimOrUndefined P ?e ?r ?w0] =>
      destruct (@trimOrUndefined_trimmable P e r w0 Hexpl) as (expl & Ee); rewrite Ee
  end.
  unfold bind at 1.
  match goal with
  | |- context [trimOrUndefined P ?e ?r ?w0] =>
      destruct (@trimOrUndefined_trimmable P e r w0 Htopic) as (tpc & Et); rewrite Et
  end.
  unfold ret. eexists _, _. split; [reflexivity|]. simpl. auto.
Qed.

(** Without a signal and on elements typed as the interface says, the loop
    keeps exactly the elements that pass the guard, in the order of the
    reply, and logs one warning for each element it skips. *)
Lemma processItems_keeps_valid_in_order (P : platform) (items : list jsvalue)
    (flashcards : list FlashcardMCQ) (w : world) :
  Forall wellFormedItem items ->
  exists cards w',
    processItems P None items flashcards w = (Ok (flashcards ++ cards), w')
    /\ Forall2 (promoted P) (filter validItem items) cards
    /\ console w' =
       console w ++
       repeat (LogWarn, "Skipping invalid MCQ item from PDF:"%string)
         (List.length (filter invalidItem items)).
Proof.
  intros Hall. revert flashcards w.
  induction Hall as [|item rest Hitem Hrest IH]; intros flashcards w.
  - exists [], w. simpl. rewrite !app_nil_r. repeat split. constructor.
  - assert (Hgo : exists cards w',
               (if invalidItem item
                then bind (log LogWarn "Skipping invalid MCQ item from PDF:")
                       (fun _ => processItems P None rest flashcards)
                else bind (promote P item)
                       (fun card => processItems P None rest (flashcards ++ [card]))) w
               = (Ok (flashcards ++ cards), w')
               /\ Forall2 (promoted P) (filter validItem (item :: rest)) cards
               /\ console w' =
                  console w ++
                  repeat (LogWarn, "Skipping invalid MCQ item from PDF:"%string)
                    (List.length (filter invalidItem (item :: rest)))).
    { simpl filter. unfold validItem at 1. destruct (invalidItem item) eqn:Ev; simpl negb; cbv iota.
      - unfold bind at 1, log at 1.
        match goal with
        | |- context [processItems P None rest flashcards ?w0] =>
            destruct (IH flashcards w0) as (cards & w' & E & HF & Hc)
        end.
        exists cards, w'. rewrite E. split; [reflexivity|]. split; [exact HF|].
        rewrite Hc. simpl. rewrite <- app_assoc. reflexivity.
      - destruct (promote_succeeds P w Hitem Ev) as (c & w1 & Ep & Hc1 & _).
        destruct (IH (flashcards ++ [c]) w1) as (cards & w' & E & HF & Hc).
        exists (c :: cards), w'. unfold bind at 1. rewrite Ep, E.
        split; [rewrite <- app_assoc; reflexivity|]. split.
        + constructor; [|exact HF]. eapply promote_returns; eassumption.
        + rewrite Hc, Hc1. reflexivity. }
    destruct Hgo as (cards & w' & E & HF & Hc).
    exists cards, w'. split; [|split; assumption].
    simpl processItems. unfold bind at 1, aborted at 1.
    destruct Hitem as (Hnn & _). destruct item; try exact E. congruence.
Qed.

(** The guard of the loop, read as a property of the element. *)
Lemma validItem_iff (item : jsvalue) :
  validItem item = true <->
  truthy (get item (str "question")) = true
  /\ exists opts n,
       get item (str "options") = Some (JArr opts)
       /\ forallb isString opts = true
       /\ get item (str "correctOptionIndex") = Some (JNum n)
       /\ (0 <= n)%Q /\ (n < num_of_nat (List.length opts))%Q.
Proof.
  unfold validItem, invalidItem. rewrite negb_true_iff, orb_false_iff, negb_false_iff.
  split.
  - intros [Hq Hrest]. split; [exact Hq|].
    destruct (get item (str "options")) as [[| | | |opts|]|]; try discriminate.
    apply orb_false_iff in Hrest. destruct Hrest as [Hstr Hidx].
    destruct (get item (str "correctOptionIndex")) as [[| |n| | |]|]; try discriminate.
    apply orb_false_iff in Hidx. destruct Hidx as [Hlo Hhi].
    exists opts, n. repeat split.
    + apply forallb_forall. intros x Hx.
      destruct (isString x) eqn:Ex; [reflexivity|exfalso].
      assert (H : existsb (fun opt => negb (isString opt)) opts = true).
      { apply existsb_exists. exists x. rewrite Ex. auto. }
      congruence.
    + unfold num_lt in Hlo. apply negb_false_iff in Hlo. apply Qle_bool_iff. exact Hlo.
    + unfold num_ge in Hhi. apply Qnot_le_lt. intros H. apply Qle_bool_iff in H. congruence.
  - intros (Hq & opts & n & -> & Hstr & -> & Hlo & Hhi). split; [exact Hq|].
    apply orb_false_iff. split.
    + destruct (existsb _ opts) eqn:E; [exfalso|reflexivity].
      apply existsb_exists in E. destruct E as (x & Hx & Hn).
      rewrite forallb_forall in Hstr. rewrite (Hstr x Hx) in Hn. discriminate.
    + apply orb_false_iff. unfold num_lt, num_ge. split.
      * apply negb_false_iff. apply Qle_bool_iff. exact Hlo.
      * destruct (Qle_bool (num_of_nat (List.length opts)) n) eqn:E; [exfalso|reflexivity].
        apply Qle_bool_iff in E. apply (Qlt_not_le _ _ Hhi). exact E.
Qed.

(** With a readable file, no signal and a reply whose elements are typed
    as the interface says, [extractMCQsFromPDF] returns one card for each
    element that passes the guard, in the order of the reply. *)
Lemma extract_keeps_valid_in_order
    (P : platform) (svc : request -> outcome) (file : File)
    (dataURL base64 text : jsstring) (c : char) (items : list jsvalue) (w : world) :
  ai P = Some svc ->
  readAsDataURL file = Loaded dataURL ->
  splitSecond 44%N dataURL = Some (c :: base64) ->
  svc (PdfRequest (c :: base64)) = Resolved text ->
  JSON_parse (stripFence text) = Some (JArr items) ->
  Forall wellFormedItem items ->
  exists cards w',
    extractMCQsFromPDF P None file w = (Ok cards, w')
    /\ Forall2 (promoted P) (filter validItem items) cards.
Proof.
  intros Hai Hread Hsplit Hsvc Hparse Hall.
  destruct (processItems_keeps_valid_in_order P [] w Hall) as (cards & w' & E & HF & _).
  exists cards, w'. split; [|exact HF].
  unfold extractMCQsFromPDF. rewrite Hai.
  unfold bind at 1, aborted at 1.
  unfold bind at 1, tryCatch at 1, readFileAsBase64.
  unfold bind at 1, aborted at 1. unfold bind at 1, aborted at 1.
  rewrite Hread, Hsplit. unfold ret at 1.
  unfold bind at 1, aborted at 1.
  unfold tryCatch, extractBody. rewrite Hsvc.
  unfold bind at 1, aborted at 1. rewrite Hparse.
  unfold bind at 1, ret at 1. rewrite E. reflexivity.
Qed.

(* ================================================================== *)
(** * Further properties of the code *)
(* ================================================================== *)

Import QuizMode DeckView FormLoad Notions2.

(* ------------------------------------------------------------------ *)
(** ** The store: deleting and adding *)

Lemma removeCard_In (i : jsstring) (prev : list FlashcardMCQ) (c : FlashcardMCQ) :
  In c (removeCard i prev) <-> In c prev /\ cardId c <> i.
Proof.
  unfold removeCard. rewrite filter_In, negb_true_iff, jsstring_eqb_neq. reflexivity.
Qed.

Lemma removeCard_no_match (i : jsstring) (prev : list FlashcardMCQ) :
  (forall c, In c prev -> cardId c <> i) -> removeCard i prev = prev.
Proof.
  unfold removeCard. induction prev as [|c l IH]; intros H; simpl; [reflexivity|].
  destruct (jsstring_eqb (cardId c) i) eqn:E; simpl.
  - apply jsstring_eqb_eq in E. destruct (H c (or_introl eq_refl) E).
  - f_equal. apply IH. intros x Hx. apply H. right. exact Hx.
Qed.

Lemma removeCard_app (i : jsstring) (l1 l2 : list FlashcardMCQ) :
  removeCard i (l1 ++ l2) = removeCard i l1 ++ removeCard i l2.
Proof. unfold removeCard. apply filter_app. Qed.

(** X1.  [deleteFlashcard(id)] always succeeds with one write, and the new
    collection is the old one without the cards whose id is [id]: a card
    stays exactly when its id differs, the cards that stay keep their
    order (when one card has the id, the result is what was before it
    followed by what was after it), an unknown id changes nothing, and
    deleting twice is deleting once. *)
Theorem deleteFlashcard_removes_every_match
    (quota : jsstring -> bool) (JSON_stringify : list FlashcardMCQ -> jsstring)
    (i : jsstring) (prev : list FlashcardMCQ) (w : world) :
  (exists w', deleteFlashcard quota JSON_stringify i prev w = (Ok (removeCard i prev), w')
              /\ setItemCalls w' = S (setItemCalls w))
  /\ (forall c, In c (removeCard i prev) <-> In c prev /\ cardId c <> i)
  /\ (forall l1 c l2, prev = l1 ++ c :: l2 -> cardId c = i ->
        (forall x, In x (l1 ++ l2) -> cardId x <> i) ->
        removeCard i prev = l1 ++ l2)
  /\ ((forall c, In c prev -> cardId c <> i) -> removeCard i prev = prev)
  /\ removeCard i (removeCard i prev) = removeCard i prev.
Proof.
  split; [|split; [|split; [|split]]].
  - destruct (setFlashcards_ok quota JSON_stringify (removeCard i) prev w) as [w' [E [_ Hc]]].
    exists w'. split; [exact E|exact Hc].
  - intros c. apply removeCard_In.
  - intros l1 c l2 -> Hc Hrest.
    rewrite removeCard_app. change (c :: l2) with ([c] ++ l2). rewrite removeCard_app.
    rewrite (@removeCard_no_match i l1), (@removeCard_no_match i l2).
    + unfold removeCard at 1. simpl. rewrite <- Hc, jsstring_eqb_refl. reflexivity.
    + intros x Hx. apply Hrest. apply in_or_app. right. exact Hx.
    + intros x Hx. apply Hrest. apply in_or_app. left. exact Hx.
  - apply removeCard_no_match.
  - apply removeCard_no_match. intros c Hc. apply removeCard_In in Hc. apply Hc.
Qed.

(** X2.  Adding a card whose id is new and then deleting that id gives
    the collection back: the card is put last, both steps succeed, each
    writes once, and when the storage accepts the writes it ends up holding
    the original collection. *)
Theorem add_then_delete_restores
    (quota : jsstring -> bool) (JSON_stringify : list FlashcardMCQ -> jsstring)
    (c : FlashcardMCQ) (prev : list FlashcardMCQ) (w : world) :
  (forall x, In x prev -> cardId x <> cardId c) ->
  exists w1 w2,
    addFlashcard quota JSON_stringify c prev w = (Ok (prev ++ [c]), w1)
    /\ deleteFlashcard quota JSON_stringify (cardId c) (prev ++ [c]) w1 = (Ok prev, w2)
    /\ setItemCalls w2 = 2 + setItemCalls w
    /\ (quota (JSON_stringify prev) = true -> localStorage w2 = Some (JSON_stringify prev)).
Proof.
  intros Hnew.
  assert (Hrm : removeCard (cardId c) (prev ++ [c]) = prev).
  { rewrite removeCard_app, (@removeCard_no_match _ _ Hnew).
    unfold removeCard. simpl. rewrite jsstring_eqb_refl. simpl. apply app_nil_r. }
  destruct (setFlashcards_ok quota JSON_stringify (appendCard c) prev w) as [w1 [E1 [_ C1]]].
  exists w1. 
  unfold deleteFlashcard, setFlashcards, persist, tryCatch, bind, setItem, ret, log.
  rewrite Hrm.
  destruct (quota (JSON_stringify prev)) eqn:Eq; eexists; (split; [exact E1|]);
    (split; [reflexivity|]); simpl; (split; [rewrite C1; reflexivity|]).
  - reflexivity.
  - discriminate.
Qed.

Lemma add_then_delete_restores_witness :
  exists w1 w2,
    addFlashcard roomy idsOnly (card "k2" "q" None) [card "k1" "p" None] initial
    = (Ok ([card "k1" "p" None] ++ [card "k2" "q" None]), w1)
    /\ deleteFlashcard roomy idsOnly (cardId (card "k2" "q" None))
         ([card "k1" "p" None] ++ [card "k2" "q" None]) w1
       = (Ok [card "k1" "p" None], w2)
    /\ setItemCalls w2 = 2 + setItemCalls initial
    /\ (roomy (idsOnly [card "k1" "p" None]) = true ->
        localStorage w2 = Some (idsOnly [card "k1" "p" None])).
Proof.
  apply (@add_then_delete_restores roomy idsOnly (card "k2" "q" None) [card "k1" "p" None] initial).
  intros x [<-|[]]. vm_compute. discriminate.
Defined.

(* ------------------------------------------------------------------ *)
(** ** The source index and the tabs of the deck view *)

Lemma uniquePdfSources_In (flashcards : list FlashcardMCQ) (s : jsstring) :
  In s (uniquePdfSources flashcards) <->
  (s <> [] /\ exists c, In c flashcards /\ sourcePdfName c = Some s).
Proof.
  unfold uniquePdfSources, collectSources.
  destruct (@collect_from flashcards [] (NoDup_nil _)) as [_ Hin].
  split.
  - intros H. apply (Permutation_in _ (Permutation_sym (sort_perm _))) in H.
    apply Hin in H. destruct H as [[]|H]. exact H.
  - intros H. apply (Permutation_in _ (sort_perm _)). apply Hin. right. exact H.
Qed.

Lemma uniquePdfSources_NoDup (flashcards : list FlashcardMCQ) :
  NoDup (uniquePdfSources flashcards).
Proof.
  unfold uniquePdfSources, collectSources.
  destruct (@collect_from flashcards [] (NoDup_nil _)) as [Hnd _].
  exact (Permutation_NoDup (sort_perm _) Hnd).
Qed.

Lemma fromSource_iff (s : jsstring) (c : FlashcardMCQ) :
  fromSource s c = true <-> sourcePdfName c = Some s.
Proof.
  unfold fromSource. destruct (sourcePdfName c) as [n|].
  - rewrite jsstring_eqb_eq. split; [intros ->; reflexivity|intros [= ->]; reflexivity].
  - split; discriminate.
Qed.

(** The number of tabs of [sources] a card is shown under. *)
Lemma tabs_of_card (c : FlashcardMCQ) (sources : list jsstring) :
  NoDup sources ->
  list_sum (map (fun s => if fromSource s c then 1 else 0) sources)
  = if existsb (fun s => fromSource s c) sources then 1 else 0.
Proof.
  induction sources as [|s l IH]; intros Hnd; [reflexivity|].
  inversion Hnd as [|? ? Hnotin Hnd']; subst. simpl.
  destruct (fromSource s c) eqn:E; simpl.
  - rewrite (IH Hnd').
    destruct (existsb (fun s0 => fromSource s0 c) l) eqn:Ex; [|reflexivity].
    apply existsb_exists in Ex. destruct Ex as [s' [Hs' E']].
    apply fromSource_iff in E, E'. rewrite E in E'. injection E' as ->.
    destruct (Hnotin Hs').
  - apply IH. exact Hnd'.
Qed.

Lemma tab_counts_sum (flashcards : list FlashcardMCQ) (sources : list jsstring) :
  NoDup sources ->
  list_sum (map (fun s => getCardCountForSource flashcards (Some s)) sources)
  = List.length (filter (fun c => existsb (fun s => fromSource s c) sources) flashcards).
Proof.
  intros Hnd. unfold getCardCountForSource.
  induction flashcards as [|c l IH].
  - simpl. induction sources as [|s r IHr]; [reflexivity|]. simpl. apply IHr.
    inversion Hnd; assumption.
  - simpl filter at 2.
    assert (Hsplit : forall ss,
      list_sum (map (fun s => List.length (filter (fromSource s) (c :: l))) ss)
      = list_sum (map (fun s => if fromSource s c then 1 else 0) ss)
        + list_sum (map (fun s => List.length (filter (fromSource s) l)) ss)).
    { assert (Hcons : forall x xs, list_sum (x :: xs) = x + list_sum xs) by reflexivity.
      induction ss as [|s r IHr]; [reflexivity|]. rewrite !map_cons, !Hcons, IHr.
      cbn [filter]. destruct (fromSource s c); cbn [List.length]; lia. }
    rewrite Hsplit, IH, (tabs_of_card c Hnd).
    destruct (existsb (fun s => fromSource s c) sources); reflexivity.
Qed.

(** X4.  The tabs of the deck view, one per entry of [uniquePdfSources],
    split the cards that have a source: no tab is empty, every card with a
    non-empty source name is shown under the tab of that name and under no
    other, a tab shows only cards of the collection, and the counts of the
    tabs add up to the number of cards with a source. *)
Theorem source_tabs_partition_sourced_cards (flashcards : list FlashcardMCQ) :
  (forall s, In s (uniquePdfSources flashcards) ->
     0 < getCardCountForSource flashcards (Some s))
  /\ (forall c, In c flashcards -> hasSource c = true ->
        exists s, In s (uniquePdfSources flashcards)
                  /\ In c (displayedCards flashcards (Some s))
                  /\ forall s', In c (displayedCards flashcards (Some s')) -> s' = s)
  /\ (forall s c, In c (displayedCards flashcards (Some s)) ->
        In c flashcards /\ sourcePdfName c = Some s)
  /\ list_sum (map (fun s => getCardCountForSource flashcards (Some s))
                   (uniquePdfSources flashcards))
     = List.length (filter hasSource flashcards).
Proof.
  split; [|split; [|split]].
  - intros s Hs. apply uniquePdfSources_In in Hs. destruct Hs as [_ [c [Hc Hsrc]]].
    unfold getCardCountForSource.
    assert (Hin : In c (filter (fromSource s) flashcards)).
    { apply filter_In. split; [exact Hc|]. apply fromSource_iff. exact Hsrc. }
    destruct (filter (fromSource s) flashcards); [destruct Hin|simpl; lia].
  - intros c Hc Hsrc. unfold hasSource in Hsrc.
    destruct (sourcePdfName c) as [[|x n]|] eqn:E; try discriminate.
    exists (x :: n). split; [|split].
    + apply uniquePdfSources_In. split; [discriminate|]. exists c. split; assumption.
    + simpl. apply filter_In. split; [exact Hc|]. apply fromSource_iff. exact E.
    + intros s' Hs'. simpl in Hs'. apply filter_In in Hs'. destruct Hs' as [_ Hs'].
      apply fromSource_iff in Hs'. rewrite E in Hs'. injection Hs' as <-. reflexivity.
  - intros s c Hc. simpl in Hc. apply filter_In in Hc. destruct Hc as [Hc Hs].
    split; [exact Hc|]. apply fromSource_iff. exact Hs.
  - rewrite (tab_counts_sum flashcards (uniquePdfSources_NoDup flashcards)).
    f_equal. apply filter_ext_in. intros c Hc.
    unfold hasSource. destruct (sourcePdfName c) as [[|x n]|] eqn:E.
    + destruct (existsb _ _) eqn:Ex; [|reflexivity].
      apply existsb_exists in Ex. destruct Ex as [s [Hs Hf]].
      apply fromSource_iff in Hf. rewrite E in Hf. injection Hf as <-.
      apply uniquePdfSources_In in Hs. destruct Hs as [Hne _]. destruct (Hne eq_refl).
    + apply existsb_exists. exists (x :: n). split.
      * apply uniquePdfSources_In. split; [discriminate|]. exists c. split; assumption.
      * apply fromSource_iff. exact E.
    + destruct (existsb _ _) eqn:Ex; [|reflexivity].
      apply existsb_exists in Ex. destruct Ex as [s [_ Hf]].
      apply fromSource_iff in Hf. rewrite E in Hf. discriminate.
Qed.

(** X5.  Paging through the displayed cards never leaves them: from an
    index that names a displayed card, [handleNext] and [handlePrevious]
    give one that does; [handleNext] stops at the last card and
    [handlePrevious] at the first; and going on and back returns to the
    card one started from. *)
Theorem deck_paging_stays_on_cards (displayed : list FlashcardMCQ) (currentIndex : nat) :
  currentIndex < List.length displayed ->
  DeckView.handleNext displayed currentIndex < List.length displayed
  /\ handlePrevious currentIndex < List.length displayed
  /\ (currentIndex + 1 < List.length displayed ->
        DeckView.handleNext displayed currentIndex = currentIndex + 1
        /\ handlePrevious (DeckView.handleNext displayed currentIndex) = currentIndex)
  /\ (currentIndex + 1 = List.length displayed ->
        DeckView.handleNext displayed currentIndex = currentIndex)
  /\ (0 < currentIndex ->
        DeckView.handleNext displayed (handlePrevious currentIndex) = currentIndex)
  /\ handlePrevious 0 = 0.
Proof.
  intros H. unfold DeckView.handleNext, handlePrevious.
  repeat split.
  - destruct (Z.ltb_spec (Z.of_nat currentIndex) (Z.of_nat (List.length displayed) - 1)); lia.
  - destruct (Nat.ltb_spec 0 currentIndex); lia.
  - destruct (Z.ltb_spec (Z.of_nat currentIndex) (Z.of_nat (List.length displayed) - 1)); lia.
  - destruct (Z.ltb_spec (Z.of_nat currentIndex) (Z.of_nat (List.length displayed) - 1)); [|lia].
    destruct (Nat.ltb_spec 0 (currentIndex + 1)); lia.
  - intros Hl. destruct (Z.ltb_spec (Z.of_nat currentIndex) (Z.of_nat (List.length displayed) - 1)); lia.
  - intros Hp. destruct (Nat.ltb_spec 0 currentIndex); [|lia].
    destruct (Z.ltb_spec (Z.of_nat (currentIndex - 1)) (Z.of_nat (List.length displayed) - 1)); lia.
Qed.

Lemma deck_paging_stays_on_cards_witness :
  DeckView.handleNext [card "k1" "p" None; card "k2" "q" None] 1 < 2
  /\ handlePrevious 1 < 2.
Proof.
  destruct (@deck_paging_stays_on_cards [card "k1" "p" None; card "k2" "q" None] 1) as [H1 [H2 _]].
  - simpl. lia.
  - split; [exact H1|exact H2].
Defined.

(* ------------------------------------------------------------------ *)
(** ** The import pipeline under a signal that stays quiet *)

Lemma sameButReads_refl (w : world) : sameButReads w w.
Proof. repeat split. Qed.

Lemma sameButReads_trans (w w1 w2 : world) :
  sameButReads w w1 -> sameButReads w1 w2 -> sameButReads w w2.
Proof.
  intros [A1 [A2 [A3 [A4 A5]]]] [B1 [B2 [B3 [B4 B5]]]].
  repeat split; congruence.
Qed.

Lemma check_quiet {A : Type} (signal : AbortSignal) (e : jserror) (k : M A) (w : world) :
  quiet signal ->
  exists w1, bind (aborted signal) (fun b => if b then throw e else k) w = k w1
             /\ sameButReads w w1.
Proof.
  intros Hq. destruct signal as [s|]; simpl in Hq.
  - unfold bind, aborted. rewrite Hq. eexists. split; [reflexivity|].
    repeat split. simpl. apply orb_false_r.
  - exists w. split; [reflexivity|apply sameButReads_refl].
Qed.

Ltac pass_check Hq :=
  match goal with
  | |- context [bind (aborted ?s) (fun b => if b then throw ?e else ?k) ?w] =>
      let w1 := fresh "w" in
      let E := fresh "E" in
      let S := fresh "S" in
      destruct (@check_quiet _ s e k w Hq) as [w1 [E S]]; rewrite E; clear E
  end.

Lemma startsWith_app (p s : jsstring) : startsWith (p ++ s) p = true.
Proof.
  induction p as [|c p IH]; simpl; [destruct s; reflexivity|].
  rewrite N.eqb_refl. exact IH.
Qed.

Lemma startsWith_shorter (s p q : jsstring) :
  startsWith s (p ++ q) = true -> startsWith s p = true.
Proof.
  revert s. induction p as [|c p IH]; intros s H; [destruct s; reflexivity|].
  destruct s as [|x s]; simpl in *; [discriminate|].
  apply andb_true_iff in H. destruct H as [H1 H2]. rewrite H1. simpl. apply IH. exact H2.
Qed.

(** The file is read just as when no signal is given. *)
Lemma readFileAsBase64_quiet (file : File) (signal : AbortSignal) (w : world) :
  quiet signal ->
  exists w1,
    readFileAsBase64 file signal w =
    (match readAsDataURL file with
     | Loaded result =>
         match splitSecond 44%N result with
         | Some (c :: rest) => Ok (c :: rest)
         | _ => Throw (Eff.Error (str "Failed to extract base64 string from file."))
         end
     | ReadFailed => Throw NonError
     | ReaderAborted => Throw (abortError "Aborted by FileReader")
     end, w1)
    /\ sameButReads w w1.
Proof.
  intros Hq. unfold readFileAsBase64.
  pass_check Hq. pass_check Hq.
  exists w1. split; [|eapply sameButReads_trans; eassumption].
  destruct (readAsDataURL file) as [result| |]; try reflexivity.
  destruct (splitSecond 44%N result) as [[|c rest]|]; reflexivity.
Qed.

(** X6.  A file that cannot be turned into base64 text is reported before
    the service is asked: a failed read as "Unknown error" (what the reader
    rejects with is no [Error]), a data URL without a comma or with nothing
    after it by the message of [readFileAsBase64], both under the prefix
    "Failed to read PDF file: "; a read the reader aborted as an
    [AbortError], also when no signal was given. *)
Theorem unreadable_file_is_reported
    (P : platform) (svc : request -> outcome) (signal : AbortSignal)
    (file : File) (w : world) :
  ai P = Some svc ->
  quiet signal ->
  (readAsDataURL file = ReadFailed ->
     fst (extractMCQsFromPDF P signal file w)
     = Throw (Eff.Error (str "Failed to read PDF file: Unknown error")))
  /\ (forall dataURL, readAsDataURL file = Loaded dataURL ->
        splitSecond 44%N dataURL = None \/ splitSecond 44%N dataURL = Some [] ->
        fst (extractMCQsFromPDF P signal file w)
        = Throw (Eff.Error
                   (str "Failed to read PDF file: Failed to extract base64 string from file.")))
  /\ (readAsDataURL file = ReaderAborted ->
        fst (extractMCQsFromPDF P signal file w) = Throw (abortError "Aborted by FileReader")).
Proof.
  intros Hai Hq.
  assert (Hstart : exists w1 w2,
    extractMCQsFromPDF P signal file w =
    bind (tryCatch (fun _ => (match readAsDataURL file with
                       | Loaded result =>
                           match splitSecond 44%N result with
                           | Some (c :: rest) => Ok (c :: rest)
                           | _ => Throw (Eff.Error (str "Failed to extract base64 string from file."))
                           end
                       | ReadFailed => Throw NonError
                       | ReaderAborted => Throw (abortError "Aborted by FileReader")
                       end, w2))
            (fun error =>
               if isAbortError error then throw error else
               bind (log LogError "Error reading PDF file:") (fun _ =>
               throw (Eff.Error (str "Failed to read PDF file: "
                             ++ (if instanceofError error then messageOf error
                                 else str "Unknown error"))))))
         (fun base64PdfString =>
            bind (aborted signal) (fun b' =>
            if b' then throw (abortError "Aborted after reading file, before API call") else
            tryCatch (extractBody P signal svc base64PdfString)
              (fun error =>
                 if isAbortError error then throw error else
                 bind (log LogError "Error extracting MCQs from PDF with Gemini:") (fun _ =>
                 if instanceofError error then
                   if startsWith (messageOf error) parseFailurePrefix then throw error
                   else throw (Eff.Error (str "Failed to extract MCQs from PDF: " ++ messageOf error))
                 else throw (Eff.Error (str "Failed to extract MCQs from PDF due to an unknown error."))))))
         w1).
  { unfold extractMCQsFromPDF. rewrite Hai. pass_check Hq.
    destruct (@readFileAsBase64_quiet file signal w0 Hq) as [w2 [E2 _]].
    exists w0, w2. unfold bind at 1 3. unfold tryCatch at 1 3. rewrite E2. reflexivity. }
  destruct Hstart as [w1 [w2 ->]].
  split; [|split].
  - intros ->. reflexivity.
  - intros dataURL -> [->| ->]; reflexivity.
  - intros ->. reflexivity.
Qed.

Lemma unreadable_file_is_reported_witness :
  fst (extractMCQsFromPDF (replying (str "[]")) (Some (fun _ => false))
         {| name := str "notes.pdf"; readAsDataURL := Loaded (str "no separator") |} initial)
  = Throw (Eff.Error
             (str "Failed to read PDF file: Failed to extract base64 string from file.")).
Proof.
  refine (proj1 (proj2 (@unreadable_file_is_reported (replying (str "[]")) (fun _ => Resolved (str "[]"))
                    (Some (fun _ => false))
                    {| name := str "notes.pdf"; readAsDataURL := Loaded (str "no separator") |}
                    initial eq_refl _)) (str "no separator") eq_refl (or_introl eq_refl)).
  intros k. reflexivity.
Defined.

(** With a readable file, a quiet signal and a reply of the service, the
    run comes down to parsing the reply and what follows, inside the outer
    [try]. *)
Lemma extract_after_reply
    (P : platform) (svc : request -> outcome) (signal : AbortSignal) (file : File)
    (dataURL base64 text : jsstring) (c : char) (w : world) :
  ai P = Some svc ->
  quiet signal ->
  readAsDataURL file = Loaded dataURL ->
  splitSecond 44%N dataURL = Some (c :: base64) ->
  svc (PdfRequest (c :: base64)) = Resolved text ->
  exists w1,
    sameButReads w w1
    /\ extractMCQsFromPDF P signal file w =
       tryCatch
         (bind
            (match JSON_parse (stripFence text) with
             | Some v => ret v
             | None =>
                 bind (log LogError "JSON Parse Error during PDF MCQ extraction. Raw string received from Gemini:") (fun _ =>
                 bind (log LogError "Original parsing error details:") (fun _ =>
                 throw (Eff.Error (parseFailurePrefix ++ str " "
                               ++ engineMessage P (JsonSyntax (stripFence text))))))
             end)
            (fun extractedDataArray =>
               match extractedDataArray with
               | JArr items => processItems P signal items []
               | _ =>
                   bind (log LogError "Invalid response structure from Gemini API for PDF: Expected an array, got:") (fun _ =>
                   bind (log LogError "Raw string was:") (fun _ =>
                   throw (Eff.Error (str "Invalid response structure from Gemini API: Expected an array."))))
               end))
         (fun error =>
            if isAbortError error then throw error else
            bind (log LogError "Error extracting MCQs from PDF with Gemini:") (fun _ =>
            if instanceofError error then
              if startsWith (messageOf error) parseFailurePrefix then throw error
              else throw (Eff.Error (str "Failed to extract MCQs from PDF: " ++ messageOf error))
            else throw (Eff.Error (str "Failed to extract MCQs from PDF due to an unknown error."))))
         w1.
Proof.
  intros Hai Hq Hfile Hsplit Hsvc.
  unfold extractMCQsFromPDF. rewrite Hai. pass_check Hq.
  destruct (@readFileAsBase64_quiet file signal w0 Hq) as [w2 [E2 S2]].
  rewrite Hfile, Hsplit in E2.
  unfold bind at 1. unfold tryCatch at 1. rewrite E2.
  pass_check Hq.
  unfold extractBody. rewrite Hsvc.
  unfold tryCatch at 1.
  pass_check Hq.
  exists w3. split.
  - eapply sameButReads_trans; [exact S|].
    eapply sameButReads_trans; [exact S2|].
    eapply sameButReads_trans; [exact S0|exact S1].
  - reflexivity.
Qed.

(** X7.  A reply that is not JSON, once trimmed and stripped of its
    fence, fails the import with the parse message: the fixed prefix, a
    space and the engine's text.  The outer handler recognises the prefix
    and does not wrap the message a second time. *)
Theorem unparsable_reply_is_reported_once
    (P : platform) (svc : request -> outcome) (signal : AbortSignal) (file : File)
    (dataURL base64 text : jsstring) (c : char) (w : world) :
  ai P = Some svc ->
  quiet signal ->
  readAsDataURL file = Loaded dataURL ->
  splitSecond 44%N dataURL = Some (c :: base64) ->
  svc (PdfRequest (c :: base64)) = Resolved text ->
  JSON_parse (stripFence text) = None ->
  fst (extractMCQsFromPDF P signal file w)
  = Throw (Eff.Error (parseFailurePrefix ++ str " "
                      ++ engineMessage P (JsonSyntax (stripFence text)))).
Proof.
  intros Hai Hq Hfile Hsplit Hsvc Hparse.
  destruct (@extract_after_reply P svc signal file dataURL base64 text c w
              Hai Hq Hfile Hsplit Hsvc) as [w1 [_ ->]].
  rewrite Hparse.
  unfold tryCatch, bind, log, throw. cbn [isAbortError instanceofError messageOf fst].
  rewrite startsWith_app. reflexivity.
Qed.

Lemma unparsable_reply_is_reported_once_witness :
  fst (extractMCQsFromPDF (replying (str "I found no questions.")) (Some (fun _ => false))
         pdf initial)
  = Throw (Eff.Error
             (parseFailurePrefix ++ str " "
              ++ v8 (JsonSyntax (stripFence (str "I found no questions."))))).
Proof.
  apply (@unparsable_reply_is_reported_once (replying (str "I found no questions."))
           (fun _ => Resolved (str "I found no questions.")) (Some (fun _ => false)) pdf
           (str "data:application/pdf;base64,JVBERi0xLjQK") (str "VBERi0xLjQK")
           (str "I found no questions.") 74%N initial);
    first [intros k; reflexivity | vm_compute; reflexivity].
Defined.

(** X8.  A reply that is JSON but not an array (an object, a string, a
    number, [null]) fails the import with the wrapped message "Expected an
    array"; no card is made of it. *)
Theorem non_array_reply_is_rejected
    (P : platform) (svc : request -> outcome) (signal : AbortSignal) (file : File)
    (dataURL base64 text : jsstring) (c : char) (v : jsvalue) (w : world) :
  ai P = Some svc ->
  quiet signal ->
  readAsDataURL file = Loaded dataURL ->
  splitSecond 44%N dataURL = Some (c :: base64) ->
  svc (PdfRequest (c :: base64)) = Resolved text ->
  JSON_parse (stripFence text) = Some v ->
  (forall items, v <> JArr items) ->
  fst (extractMCQsFromPDF P signal file w)
  = Throw (Eff.Error
             (str "Failed to extract MCQs from PDF: Invalid response structure from Gemini API: Expected an array.")).
Proof.
  intros Hai Hq Hfile Hsplit Hsvc Hparse Hshape.
  destruct (@extract_after_reply P svc signal file dataURL base64 text c w
              Hai Hq Hfile Hsplit Hsvc) as [w1 [_ ->]].
  rewrite Hparse.
  assert (Hno : startsWith
                  (str "Invalid response structure from Gemini API: Expected an array.")
                  parseFailurePrefix = false) by (vm_compute; reflexivity).
  destruct v; try (destruct (Hshape _ eq_refl));
    unfold tryCatch, bind, log, throw, ret;
    cbn [isAbortError instanceofError messageOf fst]; rewrite Hno; reflexivity.
Qed.

Lemma non_array_reply_is_rejected_witness :
  fst (extractMCQsFromPDF
         (replying (json "{'question':'Q1','options':['A','B'],'correctOptionIndex':0}"))
         (Some (fun _ => false)) pdf initial)
  = Throw (Eff.Error
             (str "Failed to extract MCQs from PDF: Invalid response structure from Gemini API: Expected an array.")).
Proof.
  apply (@non_array_reply_is_rejected
           (replying (json "{'question':'Q1','options':['A','B'],'correctOptionIndex':0}"))
           (fun _ => Resolved (json "{'question':'Q1','options':['A','B'],'correctOptionIndex':0}"))
           (Some (fun _ => false)) pdf
           (str "data:application/pdf;base64,JVBERi0xLjQK") (str "VBERi0xLjQK")
           (json "{'question':'Q1','options':['A','B'],'correctOptionIndex':0}") 74%N
           (JObj [(str "question", JStr (str "Q1"));
                  (str "options", JArr [JStr (str "A"); JStr (str "B")]);
                  (str "correctOptionIndex", JNum 0)])
           initial);
    first [vm_compute; reflexivity | intros items; discriminate].
Defined.

Lemma trimOrUndefined_trimmedField (P : platform) (expr : string) (r : jsref) (w : world) :
  trimmable r -> trimOrUndefined P expr r w = (Ok (trimmedField r), w).
Proof. intros [->|[->|[s ->]]]; reflexivity. Qed.

Lemma freshOptions_length (gen : nat -> jsstring) (n : nat) (texts : list jsvalue) :
  List.length (freshOptions gen n texts) = List.length texts.
Proof. rewrite <- (length_map text), freshOptions_texts. reflexivity. Qed.

(** A well-formed element that passes the guard becomes the card it
    describes. *)
Lemma promote_well_formed (P : platform) (item : jsvalue) (w : world) :
  wellFormedItem item ->
  invalidItem item = false ->
  exists c w', promote P item w = (Ok c, w')
               /\ cardOf item c
               /\ console w' = console w.
Proof.
  intros (_ & Hint & Hexpl & Htopic) Hvalid.
  unfold invalidItem in Hvalid.
  apply orb_false_iff in Hvalid. destruct Hvalid as [Hq Hrest].
  apply negb_false_iff in Hq.
  destruct (get item (str "options")) as [[| | | |texts|]|] eqn:Eo; try discriminate.
  apply orb_false_iff in Hrest. destruct Hrest as [_ Hidx].
  destruct (get item (str "correctOptionIndex")) as [[| |n| | |]|] eqn:Ei; try discriminate.
  apply orb_false_iff in Hidx. destruct Hidx as [Hlo Hhi].
  unfold promote. rewrite Eo, Ei.
  destruct (mapM_newOption_fresh P texts w) as (w1 & Em & Hu1 & Hc1 & Hs1).
  destruct (@index_integer_in_range _ (freshOptions (uuid P) (uuids w) texts) n
              (Hint n eq_refl) Hlo) as (correct & Ecorrect).
  { rewrite freshOptions_length. exact Hhi. }
  unfold bind at 1. rewrite Em. unfold bind at 1, randomUUID at 1. rewrite Ecorrect.
  unfold bind at 1. rewrite (trimOrUndefined_trimmedField _ _ _ Hexpl).
  unfold bind at 1. rewrite (trimOrUndefined_trimmedField _ _ _ Htopic).
  unfold ret. eexists _, _. split; [reflexivity|]. split; [|exact Hc1].
  exists texts, n, correct. cbn [options question correctOptionId explanation topic sourcePdfName].
  rewrite freshOptions_texts.
  destruct (get item (str "question")) as [q|] eqn:Eq; [|discriminate].
  repeat split; try reflexivity; assumption.
Qed.

Lemma processItems_well_formed (P : platform) (signal : AbortSignal)
    (items : list jsvalue) (flashcards : list FlashcardMCQ) (w : world) :
  quiet signal ->
  Forall wellFormedItem items ->
  exists cards w',
    processItems P signal items flashcards w = (Ok (flashcards ++ cards), w')
    /\ Forall2 cardOf (filter validItem items) cards
    /\ console w' =
       console w ++
       repeat (LogWarn, "Skipping invalid MCQ item from PDF:"%string)
         (List.length (filter invalidItem items)).
Proof.
  intros Hq Hall. revert flashcards w.
  induction Hall as [|item rest Hitem Hrest IH]; intros flashcards w.
  - exists [], w. simpl. rewrite !app_nil_r. repeat split. constructor.
  - simpl processItems. pass_check Hq.
    destruct S as (_ & _ & Sc & _).
    assert (Hnn : item <> JNull) by apply Hitem.
    assert (Hgo : exists cards w',
               (if invalidItem item
                then bind (log LogWarn "Skipping invalid MCQ item from PDF:")
                       (fun _ => processItems P signal rest flashcards)
                else bind (promote P item)
                       (fun card => processItems P signal rest (flashcards ++ [card]))) w0
               = (Ok (flashcards ++ cards), w')
               /\ Forall2 cardOf (filter validItem (item :: rest)) cards
               /\ console w' =
                  console w0 ++
                  repeat (LogWarn, "Skipping invalid MCQ item from PDF:"%string)
                    (List.length (filter invalidItem (item :: rest)))).
    { simpl filter. unfold validItem at 1. destruct (invalidItem item) eqn:Ev; simpl negb; cbv iota.
      - unfold bind at 1, log at 1.
        match goal with
        | |- context [processItems P signal rest flashcards ?w1] =>
            destruct (IH flashcards w1) as (cards & w' & E & HF & Hc)
        end.
        exists cards, w'. rewrite E. split; [reflexivity|]. split; [exact HF|].
        rewrite Hc. simpl. rewrite <- app_assoc. reflexivity.
      - destruct (promote_well_formed P w0 Hitem Ev) as (c & w1 & Ep & Hcard & Hc1).
        destruct (IH (flashcards ++ [c]) w1) as (cards & w' & E & HF & Hc).
        exists (c :: cards), w'. unfold bind at 1. rewrite Ep, E.
        split; [rewrite <- app_assoc; reflexivity|]. split.
        + constructor; [exact Hcard|exact HF].
        + rewrite Hc, Hc1. reflexivity. }
    destruct Hgo as (cards & w' & E & HF & Hc).
    exists cards, w'. rewrite <- Sc. split; [|split; assumption].
    destruct item; try exact E. congruence.
Qed.

(** X9.  On a reply whose elements are of the declared type (not
    [null], integer index, string explanation and topic where present) the
    import is the lenient filter it is meant to be: it returns one card for
    each element that passes the guard, in the order of the reply; each
    card has the element's question and option texts, the option at
    [correctOptionIndex] as its correct one, the trimmed explanation and
    topic (absent when blank) and no source; and each element that fails
    the guard leaves one warning and nothing else. *)
Theorem well_typed_reply_is_filtered_in_order
    (P : platform) (svc : request -> outcome) (signal : AbortSignal) (file : File)
    (dataURL base64 text : jsstring) (c : char) (items : list jsvalue) (w : world) :
  ai P = Some svc ->
  quiet signal ->
  readAsDataURL file = Loaded dataURL ->
  splitSecond 44%N dataURL = Some (c :: base64) ->
  svc (PdfRequest (c :: base64)) = Resolved text ->
  JSON_parse (stripFence text) = Some (JArr items) ->
  Forall wellFormedItem items ->
  exists cards w',
    extractMCQsFromPDF P signal file w = (Ok cards, w')
    /\ Forall2 cardOf (filter validItem items) cards
    /\ console w' =
       console w ++
       repeat (LogWarn, "Skipping invalid MCQ item from PDF:"%string)
         (List.length (filter invalidItem items)).
Proof.
  intros Hai Hq Hfile Hsplit Hsvc Hparse Hall.
  destruct (@extract_after_reply P svc signal file dataURL base64 text c w
              Hai Hq Hfile Hsplit Hsvc) as [w1 [(_ & _ & Sc & _) ->]].
  rewrite Hparse.
  destruct (@processItems_well_formed P signal items [] w1 Hq Hall) as (cards & w' & E & HF & Hc).
  exists cards, w'. unfold tryCatch, bind, ret. rewrite E.
  split; [reflexivity|]. split; [exact HF|]. rewrite <- Sc. exact Hc.
Qed.

Lemma well_typed_reply_is_filtered_in_order_witness :
  exists cards w',
    extractMCQsFromPDF
      (replying (json "[{'question':'Q1','options':['A','B'],'correctOptionIndex':1,'explanation':' why '},{'question':'','options':['A'],'correctOptionIndex':0}]"))
      (Some (fun _ => false)) pdf initial
    = (Ok cards, w')
    /\ Forall2 cardOf
         (filter validItem
            [JObj [(str "question", JStr (str "Q1"));
                   (str "options", JArr [JStr (str "A"); JStr (str "B")]);
                   (str "correctOptionIndex", JNum 1);
                   (str "explanation", JStr (str " why "))];
             JObj [(str "question", JStr []);
                   (str "options", JArr [JStr (str "A")]);
                   (str "correctOptionIndex", JNum 0)]])
         cards
    /\ console w' =
       console initial ++
       repeat (LogWarn, "Skipping invalid MCQ item from PDF:"%string)
         (List.length
            (filter invalidItem
               [JObj [(str "question", JStr (str "Q1"));
                      (str "options", JArr [JStr (str "A"); JStr (str "B")]);
                      (str "correctOptionIndex", JNum 1);
                      (str "explanation", JStr (str " why "))];
                JObj [(str "question", JStr []);
                      (str "options", JArr [JStr (str "A")]);
                      (str "correctOptionIndex", JNum 0)]])).
Proof.
  apply (@well_typed_reply_is_filtered_in_order
           (replying (json "[{'question':'Q1','options':['A','B'],'correctOptionIndex':1,'explanation':' why '},{'question':'','options':['A'],'correctOptionIndex':0}]"))
           (fun _ => Resolved (json "[{'question':'Q1','options':['A','B'],'correctOptionIndex':1,'explanation':' why '},{'question':'','options':['A'],'correctOptionIndex':0}]"))
           (Some (fun _ => false)) pdf
           (str "data:application/pdf;base64,JVBERi0xLjQK") (str "VBERi0xLjQK")
           (json "[{'question':'Q1','options':['A','B'],'correctOptionIndex':1,'explanation':' why '},{'question':'','options':['A'],'correctOptionIndex':0}]")
           74%N);
    try first [intros k; reflexivity | vm_compute; reflexivity].
  apply Forall_cons; [|apply Forall_cons; [|apply Forall_nil]];
    (split; [discriminate|split; [intros n [= <-]; reflexivity|]]);
    split; vm_compute;
    first [left; reflexivity | right; right; eexists; reflexivity].
Defined.

(* ------------------------------------------------------------------ *)
(** ** Whatever the reply: identifiers, fatal elements *)

(** Once the service has replied with an array, what the import returns
    is what the loop returns. *)
Lemma extract_returns_what_the_loop_returns
    (P : platform) (signal : AbortSignal) (file : File)
    (Q : list FlashcardMCQ -> Prop) :
  (forall svc base64 text items,
      ai P = Some svc -> svc (PdfRequest base64) = Resolved text ->
      JSON_parse (stripFence text) = Some (JArr items) ->
      returns Q (processItems P signal items [])) ->
  returns Q (extractMCQsFromPDF P signal file).
Proof.
  intros Hloop. unfold extractMCQsFromPDF.
  destruct (ai P) as [svc|] eqn:Hai; [|apply returns_throw].
  apply returns_after_check.
  eapply returns_bind; [apply returns_any|]. intros base64 _.
  apply returns_after_check.
  apply returns_tryCatch.
  - unfold extractBody. destruct (svc (PdfRequest base64)) as [text|e] eqn:Hsvc;
      [|apply returns_throw].
    apply returns_after_check.
    destruct (JSON_parse (stripFence text)) as [v|] eqn:Hparse.
    + eapply returns_bind with (R := fun x => x = v); [apply returns_ret; reflexivity|].
      intros x ->.
      destruct v; try (do 2 apply returns_after_log; apply returns_throw).
      eapply Hloop; eauto.
    + eapply returns_bind with (R := fun _ => False).
      * do 2 apply returns_after_log. apply returns_throw.
      * intros x [].
  - intros e. destruct (isAbortError e); [apply returns_throw|].
    apply returns_after_log.
    destruct (instanceofError e); [|apply returns_throw].
    destruct (startsWith (messageOf e) parseFailurePrefix); apply returns_throw.
Qed.

Lemma aborted_frame (signal : AbortSignal) (w : world) (r : result bool) (w1 : world) :
  aborted signal w = (r, w1) -> exists b, r = Ok b /\ uuids w1 = uuids w.
Proof.
  unfold aborted. destruct signal as [s|]; intros [= <- <-]; eexists; split; reflexivity.
Qed.

Lemma trimOrUndefined_frame (P : platform) (expr : string) (x : jsref)
    (w : world) (r : result (option jsstring)) (w' : world) :
  trimOrUndefined P expr x w = (r, w') -> w' = w.
Proof.
  unfold trimOrUndefined. destruct x as [[]|]; intros [= _ <-]; reflexivity.
Qed.

(** The identifiers of a promoted card are the next ones of the supply:
    one for each option, then the card's. *)
Lemma promote_identifiers (P : platform) (item : jsvalue) (w : world)
    (c : FlashcardMCQ) (w' : world) :
  promote P item w = (Ok c, w') ->
  exists n, identifiers c = map (uuid P) ((uuids w + n) :: seq (uuids w) n)
            /\ uuids w' = S (uuids w + n).
Proof.
  unfold promote.
  set (texts := match get item (str "options") with Some (JArr l) => l | _ => [] end).
  destruct (mapM_newOption_fresh P texts w) as (w1 & Em & Hu1 & _ & _).
  unfold bind at 1. rewrite Em. unfold bind at 1, randomUUID at 1.
  match goal with
  | |- context [match ?ix with Some _ => _ | None => _ end] => destruct ix as [correct|]
  end; [|discriminate].
  unfold bind at 1.
  match goal with
  | |- context [trimOrUndefined P ?e ?r ?w0] =>
      destruct (trimOrUndefined P e r w0) as [[expl|err] w2] eqn:Ee;
        [apply trimOrUndefined_frame in Ee; subst w2|discriminate]
  end.
  unfold bind at 1.
  match goal with
  | |- context [trimOrUndefined P ?e ?r ?w0] =>
      destruct (trimOrUndefined P e r w0) as [[tpc|err] w3] eqn:Et;
        [apply trimOrUndefined_frame in Et; subst w3|discriminate]
  end.
  unfold ret. intros [= <- <-]. exists (List.length texts).
  unfold identifiers. cbn [cardId options uuids map].
  rewrite freshOptions_ids, Hu1. split; reflexivity.
Qed.

Lemma processItems_identifiers (P : platform) (signal : AbortSignal) (items : list jsvalue) :
  forall (flashcards : list FlashcardMCQ) (w : world) (cards : list FlashcardMCQ) (w' : world),
  processItems P signal items flashcards w = (Ok cards, w') ->
  exists new ks,
    cards = flashcards ++ new
    /\ List.concat (map identifiers new) = map (uuid P) ks
    /\ NoDup ks
    /\ (forall k, In k ks -> uuids w <= k < uuids w')
    /\ uuids w <= uuids w'.
Proof.
  induction items as [|item rest IH]; intros flashcards w cards w'.
  - simpl. intros [= <- <-]. exists [], []. rewrite app_nil_r.
    split; [reflexivity|split; [reflexivity|split; [constructor|split; [intros k []|lia]]]].
  - simpl processItems. unfold bind at 1.
    destruct (aborted signal w) as [r w1] eqn:Ea.
    destruct (aborted_frame signal w Ea) as [b [-> Hu1]].
    destruct b; [discriminate|].
    assert (Hgo :
      (if invalidItem item
       then bind (log LogWarn "Skipping invalid MCQ item from PDF:")
              (fun _ => processItems P signal rest flashcards)
       else bind (promote P item)
              (fun card => processItems P signal rest (flashcards ++ [card]))) w1
      = (Ok cards, w') ->
      exists new ks,
        cards = flashcards ++ new
        /\ List.concat (map identifiers new) = map (uuid P) ks
        /\ NoDup ks
        /\ (forall k, In k ks -> uuids w <= k < uuids w')
        /\ uuids w <= uuids w').
    { destruct (invalidItem item).
      - unfold bind at 1, log at 1. intros E. apply IH in E.
        destruct E as (new & ks & Hcards & Hids & Hnd & Hrange & Hle).
        cbn [uuids] in Hrange, Hle. rewrite Hu1 in Hrange, Hle.
        exists new, ks. split; [exact Hcards|split; [exact Hids|split; [exact Hnd|]]].
        split; [exact Hrange|exact Hle].
      - unfold bind at 1. destruct (promote P item w1) as [[c|e] w2] eqn:Ep; [|discriminate].
        destruct (promote_identifiers P item w1 Ep) as (n & Hc & Hu2).
        intros E. apply IH in E.
        destruct E as (new & ks & Hcards & Hids & Hnd & Hrange & Hle).
        rewrite Hu2, Hu1 in Hrange, Hle. rewrite Hu1 in Hc.
        exists (c :: new), (((uuids w + n) :: seq (uuids w) n) ++ ks).
        split; [rewrite Hcards, <- app_assoc; reflexivity|].
        split; [cbn [map List.concat]; rewrite map_app, Hc, Hids; reflexivity|].
        split; [|split].
        + apply NoDup_app.
          * constructor; [rewrite in_seq; lia|apply seq_NoDup].
          * exact Hnd.
          * intros k Hk Hk'. apply Hrange in Hk'.
            destruct Hk as [<-|Hk]; [lia|apply in_seq in Hk; lia].
        + intros k Hk. apply in_app_or in Hk. destruct Hk as [[<-|Hk]|Hk].
          * lia.
          * apply in_seq in Hk. lia.
          * apply Hrange in Hk. lia.
        + lia. }
    destruct item; try exact Hgo. discriminate.
Qed.

(** X10.  With a supply of identifiers that does not repeat, all the
    identifiers made during one import differ from each other: the ids of
    the cards and the ids of all their options, across the whole batch. *)
Theorem import_identifiers_are_distinct
    (P : platform) (signal : AbortSignal) (file : File)
    (w : world) (cards : list FlashcardMCQ) (w' : world) :
  (forall i j, uuid P i = uuid P j -> i = j) ->
  extractMCQsFromPDF P signal file w = (Ok cards, w') ->
  NoDup (List.concat (map identifiers cards)).
Proof.
  intros Hinj E.
  eapply (@extract_returns_what_the_loop_returns P signal file
            (fun cards => NoDup (List.concat (map identifiers cards)))); [|exact E].
  intros svc base64 text items _ _ _ w0 cards0 w0' E0.
  apply processItems_identifiers in E0.
  destruct E0 as (new & ks & -> & Hids & Hnd & _). simpl.
  rewrite Hids. apply Finite.Injective_map_NoDup; [exact Hinj|exact Hnd].
Qed.

Lemma import_identifiers_are_distinct_witness :
  NoDup (List.concat (map identifiers
    (match fst (extractMCQsFromPDF
                  (replying (json "[{'question':'Q1','options':['A','B'],'correctOptionIndex':1},{'question':'Q2','options':['C','D'],'correctOptionIndex':0}]"))
                  None pdf initial) with
     | Ok cards => cards
     | Throw _ => []
     end))).
Proof.
  eapply (@import_identifiers_are_distinct
            (replying (json "[{'question':'Q1','options':['A','B'],'correctOptionIndex':1},{'question':'Q2','options':['C','D'],'correctOptionIndex':0}]"))
            None pdf initial _ _ serial_injective).
  vm_compute. reflexivity.
Defined.

Lemma trimOrUndefined_untrimmable (P : platform) (expr : string) (x : jsref) :
  untrimmable x = true -> returns (fun _ => False) (trimOrUndefined P expr x).
Proof.
  intros H w a w'. destruct x as [[]|]; simpl in H; try discriminate; simpl;
    unfold throw; discriminate.
Qed.

Lemma promote_ill_typed_never_returns (P : platform) (item : jsvalue) :
  untrimmable (get item (str "explanation")) = true
  \/ untrimmable (get item (str "topic")) = true ->
  returns (fun _ => False) (promote P item).
Proof.
  intros H. unfold promote.
  eapply returns_bind; [apply returns_any|]. intros mcqOptions _.
  eapply returns_bind; [apply returns_any|]. intros cid _.
  match goal with
  | |- context [match ?ix with Some _ => _ | None => _ end] => destruct ix as [correct|]
  end; [|apply returns_throw].
  destruct H as [H|H].
  - eapply returns_bind; [apply trimOrUndefined_untrimmable; exact H|]. intros x [].
  - eapply returns_bind; [apply returns_any|]. intros expl _.
    eapply returns_bind; [apply trimOrUndefined_untrimmable; exact H|]. intros x [].
Qed.

Lemma processItems_stops_at_null (P : platform) (signal : AbortSignal)
    (items : list jsvalue) (flashcards : list FlashcardMCQ) :
  In JNull items ->
  returns (fun _ => False) (processItems P signal items flashcards).
Proof.
  revert flashcards. induction items as [|item rest IH]; intros flashcards Hin; [destruct Hin|].
  simpl processItems. apply returns_after_check.
  destruct Hin as [->|Hin]; [apply returns_throw|].
  assert (Hgo : returns (fun _ => False)
                  (if invalidItem item
                   then bind (log LogWarn "Skipping invalid MCQ item from PDF:")
                          (fun _ => processItems P signal rest flashcards)
                   else bind (promote P item)
                          (fun card => processItems P signal rest (flashcards ++ [card])))).
  { destruct (invalidItem item).
    - apply returns_after_log. apply IH. exact Hin.
    - eapply returns_bind; [apply returns_any|]. intros card _. apply IH. exact Hin. }
  destruct item; try exact Hgo. apply returns_throw.
Qed.

(** X11.  One ill-typed element costs the whole batch.  When the reply is
    an array that holds [null], or an element that passes the guard but
    whose [explanation] or [topic] is neither a string nor [null] (a
    number, say), the import returns no cards at all, whatever the signal
    and the file: the [TypeError] leaves the loop, and the cards made from
    the elements before it are dropped. *)
Theorem ill_typed_element_fails_whole_batch
    (P : platform) (svc : request -> outcome) (text : jsstring)
    (items : list jsvalue) (item : jsvalue)
    (signal : AbortSignal) (file : File) (w : world) :
  ai P = Some svc ->
  (forall base64, svc (PdfRequest base64) = Resolved text) ->
  JSON_parse (stripFence text) = Some (JArr items) ->
  In item items ->
  illTyped item ->
  exists e, fst (extractMCQsFromPDF P signal file w) = Throw e.
Proof.
  intros Hai Hsvc Hparse Hin Hill.
  assert (Hnever : returns (fun _ => False) (extractMCQsFromPDF P signal file)).
  { apply extract_returns_what_the_loop_returns.
    intros svc' base64 text' items' Hai' Hsvc' Hparse'.
    rewrite Hai in Hai'. injection Hai' as <-.
    rewrite Hsvc in Hsvc'. injection Hsvc' as <-.
    rewrite Hparse in Hparse'. injection Hparse' as <-.
    destruct Hill as [->|[Hvalid Htype]].
    - apply processItems_stops_at_null. exact Hin.
    - eapply processItems_never_returns; [exact Hin|exact Hvalid|].
      apply promote_ill_typed_never_returns. exact Htype. }
  destruct (extractMCQsFromPDF P signal file w) as [[cards|e] w'] eqn:E.
  - destruct (Hnever _ _ _ E).
  - exists e. reflexivity.
Qed.

Lemma ill_typed_element_fails_whole_batch_witness :
  exists e,
    fst (extractMCQsFromPDF
           (replying (json "[{'question':'Q1','options':['A','B'],'correctOptionIndex':0},{'question':'Q2','options':['A','B'],'correctOptionIndex':1,'explanation':42}]"))
           None pdf initial)
    = Throw e.
Proof.
  apply (@ill_typed_element_fails_whole_batch
           (replying (json "[{'question':'Q1','options':['A','B'],'correctOptionIndex':0},{'question':'Q2','options':['A','B'],'correctOptionIndex':1,'explanation':42}]"))
           (fun _ => Resolved (json "[{'question':'Q1','options':['A','B'],'correctOptionIndex':0},{'question':'Q2','options':['A','B'],'correctOptionIndex':1,'explanation':42}]"))
           (json "[{'question':'Q1','options':['A','B'],'correctOptionIndex':0},{'question':'Q2','options':['A','B'],'correctOptionIndex':1,'explanation':42}]")
           [JObj [(str "question", JStr (str "Q1"));
                  (str "options", JArr [JStr (str "A"); JStr (str "B")]);
                  (str "correctOptionIndex", JNum 0)];
            JObj [(str "question", JStr (str "Q2"));
                  (str "options", JArr [JStr (str "A"); JStr (str "B")]);
                  (str "correctOptionIndex", JNum 1);
                  (str "explanation", JNum 42)]]
           (JObj [(str "question", JStr (str "Q2"));
                  (str "options", JArr [JStr (str "A"); JStr (str "B")]);
                  (str "correctOptionIndex", JNum 1);
                  (str "explanation", JNum 42)])
           None pdf initial).
  - reflexivity.
  - intros base64. reflexivity.
  - vm_compute. reflexivity.
  - right. left. reflexivity.
  - right. split; [vm_compute; reflexivity|left; vm_compute; reflexivity].
Defined.

(* ------------------------------------------------------------------ *)
(** ** Which errors leave the service functions *)

Section ThrowRules.
Context {A B : Type}.
Variable R : jserror -> Prop.

Lemma throwsOnly_ret (a : A) : throwsOnly R (ret a).
Proof. intros w e w' H. discriminate. Qed.

Lemma throwsOnly_throw (e : jserror) : R e -> throwsOnly R (@throw A e).
Proof. intros He w e' w' [= <- _]. exact He. Qed.

Lemma throwsOnly_bind (m : M A) (k : A -> M B) :
  throwsOnly R m -> (forall a, throwsOnly R (k a)) -> throwsOnly R (bind m k).
Proof.
  intros Hm Hk w e w'. unfold bind.
  destruct (m w) as [[a|e1] w1] eqn:E.
  - apply Hk.
  - intros [= <- <-]. eapply Hm. exact E.
Qed.

Lemma throwsOnly_tryCatch (m : M A) (h : jserror -> M A) :
  (forall e, throwsOnly R (h e)) -> throwsOnly R (tryCatch m h).
Proof.
  intros Hh w e w'. unfold tryCatch.
  destruct (m w) as [[a|e1] w1]; [discriminate|apply Hh].
Qed.

Lemma throwsOnly_after_log (l : level) (what : string) (k : M A) :
  throwsOnly R k -> throwsOnly R (bind (log l what) (fun _ => k)).
Proof. intros Hk w e w'. unfold bind, log. apply Hk. Qed.

Lemma throwsOnly_after_check (signal : AbortSignal) (e : jserror) (k : M A) :
  R e -> throwsOnly R k ->
  throwsOnly R (bind (aborted signal) (fun b => if b then throw e else k)).
Proof.
  intros He Hk w e' w'. unfold bind, aborted.
  destruct signal as [s|]; [destruct (s (signalReads w))|];
    first [apply Hk | intros [= <- _]; exact He].
Qed.
End ThrowRules.

Lemma throwsOnly_weaken {A : Type} (R R' : jserror -> Prop) (m : M A) :
  (forall e, R e -> R' e) -> throwsOnly R m -> throwsOnly R' m.
Proof. intros H Hm w e w' E. apply H. eapply Hm. exact E. Qed.

Lemma throwsOnly_mapM_newOption (R : jserror -> Prop) (P : platform) (texts : list jsvalue) :
  throwsOnly R (mapM (newOption P) texts).
Proof.
  intros w e w' E. destruct (mapM_newOption_fresh P texts w) as (w1 & E1 & _).
  rewrite E1 in E. discriminate.
Qed.

Lemma throwsOnly_trimOrUndefined (P : platform) (expr : string) (x : jsref) :
  throwsOnly (fun e => isAbortError e = false) (trimOrUndefined P expr x).
Proof.
  intros w e w'. unfold trimOrUndefined, ret, throw.
  destruct x as [[]|]; intros [= <- _]; reflexivity.
Qed.

Lemma promote_throws_no_abort (P : platform) (item : jsvalue) :
  throwsOnly (fun e => isAbortError e = false) (promote P item).
Proof.
  unfold promote.
  apply throwsOnly_bind; [apply throwsOnly_mapM_newOption|]. intros mcqOptions.
  apply throwsOnly_bind; [intros w e w'; discriminate|]. intros cid.
  match goal with
  | |- context [match ?ix with Some _ => _ | None => _ end] => destruct ix as [correct|]
  end; [|apply throwsOnly_throw; reflexivity].
  apply throwsOnly_bind; [apply throwsOnly_trimOrUndefined|]. intros expl.
  apply throwsOnly_bind; [apply throwsOnly_trimOrUndefined|]. intros tpc.
  apply throwsOnly_ret.
Qed.

(** "Failed to " opens every message the import makes up itself. *)
Lemma parseFailurePrefix_failed (m : jsstring) :
  startsWith m parseFailurePrefix = true -> startsWith m (str "Failed to ") = true.
Proof.
  change parseFailurePrefix
    with (str "Failed to " ++ str "parse MCQs from PDF due to invalid JSON format:").
  apply startsWith_shorter.
Qed.

(** X12.  The callers of the two service functions only ever see their
    errors in a few shapes.  [generateMCQWithGemini] throws an [Error] whose
    message starts with "Failed to generate MCQ", or the one about the
    missing key, whatever went wrong inside.  [extractMCQsFromPDF] throws an
    [AbortError], or an instance of [Error] whose message starts with
    "Failed to ", or the one about the missing key; a value that is no
    [Error] never leaves it. *)
Theorem service_failures_are_wrapped (P : platform) :
  (forall topic numOptions,
     throwsOnly (fun e => exists m, e = Eff.Error m
                   /\ (startsWith m (str "Failed to generate MCQ") = true
                       \/ m = str "Gemini API key not configured. Cannot generate questions."))
       (generateMCQWithGemini P topic numOptions))
  /\ (forall signal file,
        throwsOnly (fun e => isAbortError e = true
                      \/ (instanceofError e = true
                          /\ (startsWith (messageOf e) (str "Failed to ") = true
                              \/ e = Eff.Error (str "Gemini API key not configured. Cannot process PDF."))))
          (extractMCQsFromPDF P signal file)).
Proof.
  split.
  - intros topic numOptions. unfold generateMCQWithGemini.
    destruct (ai P) as [svc|].
    + apply throwsOnly_tryCatch. intros e. apply throwsOnly_after_log.
      destruct (instanceofError e); apply throwsOnly_throw; eexists;
        (split; [reflexivity|left; reflexivity]).
    + apply throwsOnly_throw. eexists. split; [reflexivity|right; reflexivity].
  - intros signal file. unfold extractMCQsFromPDF.
    destruct (ai P) as [svc|];
      [|apply throwsOnly_throw; right; split; [reflexivity|right; reflexivity]].
    apply throwsOnly_after_check; [left; reflexivity|].
    apply throwsOnly_bind.
    + apply throwsOnly_tryCatch. intros e.
      destruct (isAbortError e) eqn:Ea; [apply throwsOnly_throw; left; exact Ea|].
      apply throwsOnly_after_log. apply throwsOnly_throw. right.
      split; [reflexivity|left; reflexivity].
    + intros base64. apply throwsOnly_after_check; [left; reflexivity|].
      apply throwsOnly_tryCatch. intros e.
      destruct (isAbortError e) eqn:Ea; [apply throwsOnly_throw; left; exact Ea|].
      apply throwsOnly_after_log.
      destruct (instanceofError e) eqn:Ei.
      * destruct (startsWith (messageOf e) parseFailurePrefix) eqn:Es;
          apply throwsOnly_throw; right.
        -- split; [exact Ei|left; apply parseFailurePrefix_failed; exact Es].
        -- split; [reflexivity|left; reflexivity].
      * apply throwsOnly_throw. right. split; [reflexivity|left; reflexivity].
Qed.

(* ------------------------------------------------------------------ *)
(** ** Where an [AbortError] comes from *)

Section AbortRules.
Context {A B : Type}.
Variable cause : Prop.

Lemma abortsOnlyWhen_quiet (m : M A) :
  throwsOnly (fun e => isAbortError e = false) m -> abortsOnlyWhen cause m.
Proof. intros H w e w' E Ha. rewrite (H _ _ _ E) in Ha. discriminate. Qed.

Lemma abortsOnlyWhen_throw_cause (e : jserror) : cause -> abortsOnlyWhen cause (@throw A e).
Proof. intros H w e' w' _ _ _. right. exact H. Qed.

Lemma abortsOnlyWhen_bind (m : M A) (k : A -> M B) :
  cancellable m -> abortsOnlyWhen cause m -> (forall a, abortsOnlyWhen cause (k a)) ->
  abortsOnlyWhen cause (bind m k).
Proof.
  intros Hc Hm Hk w e w'. unfold bind.
  destruct (m w) as [[a|e1] w1] eqn:E.
  - intros Ek Ha Hw. destruct (abortSeen w1) eqn:Hw1.
    + destruct (Hc _ _ _ E) as (_ & _ & Habort).
      destruct (Habort Hw Hw1) as (e0 & He0 & _). discriminate.
    + eapply Hk; eassumption.
  - intros [= <- <-]. eapply Hm. exact E.
Qed.

Lemma abortsOnlyWhen_tryCatch (m : M A) (h : jserror -> M A) :
  abortsOnlyWhen cause m ->
  (forall e1 w1 e w', h e1 w1 = (Throw e, w') -> isAbortError e = true -> e = e1 /\ w' = w1) ->
  abortsOnlyWhen cause (tryCatch m h).
Proof.
  intros Hm Hh w e w'. unfold tryCatch.
  destruct (m w) as [[a|e1] w1] eqn:E; [discriminate|].
  intros Eh Ha Hw. destruct (Hh _ _ _ _ Eh Ha) as [-> ->].
  eapply Hm; eassumption.
Qed.

Lemma abortsOnlyWhen_check (signal : AbortSignal) (message : string) (k : M A) :
  abortsOnlyWhen cause k ->
  abortsOnlyWhen cause
    (bind (aborted signal) (fun b => if b then throw (abortError message) else k)).
Proof.
  intros Hk w e w'. unfold bind, aborted.
  destruct signal as [s|]; [|apply Hk].
  destruct (s (signalReads w)) eqn:Es.
  - intros [= <- <-] _ _. left. simpl. apply orb_true_r.
  - intros E Ha Hw. eapply Hk; [exact E|exact Ha|]. simpl. rewrite Hw. reflexivity.
Qed.

Lemma abortsOnlyWhen_after_log (l : level) (what : string) (k : M A) :
  abortsOnlyWhen cause k -> abortsOnlyWhen cause (bind (log l what) (fun _ => k)).
Proof. intros Hk w e w' E Ha Hw. eapply Hk; [exact E|exact Ha|exact Hw]. Qed.
End AbortRules.

Lemma abortsOnlyWhen_weaken {A : Type} (c c' : Prop) (m : M A) :
  (c -> c') -> abortsOnlyWhen c m -> abortsOnlyWhen c' m.
Proof.
  intros H Hm w e w' E Ha Hw. destruct (Hm _ _ _ E Ha Hw) as [?|?]; [left|right]; auto.
Qed.

Lemma processItems_aborts_when_seen (P : platform) (signal : AbortSignal)
    (items : list jsvalue) (flashcards : list FlashcardMCQ) :
  abortsOnlyWhen False (processItems P signal items flashcards).
Proof.
  revert flashcards. induction items as [|item rest IH]; intros flashcards.
  - apply abortsOnlyWhen_quiet. apply throwsOnly_ret.
  - simpl processItems. apply abortsOnlyWhen_check.
    assert (Hgo : abortsOnlyWhen False
                    (if invalidItem item
                     then bind (log LogWarn "Skipping invalid MCQ item from PDF:")
                            (fun _ => processItems P signal rest flashcards)
                     else bind (promote P item)
                            (fun card => processItems P signal rest (flashcards ++ [card])))).
    { destruct (invalidItem item).
      - apply abortsOnlyWhen_after_log. apply IH.
      - apply abortsOnlyWhen_bind; [apply cancellable_promote| |intros card; apply IH].
        apply abortsOnlyWhen_quiet. apply promote_throws_no_abort. }
    destruct item; try exact Hgo.
    apply abortsOnlyWhen_quiet. apply throwsOnly_throw. reflexivity.
Qed.

Lemma extract_aborts_for_a_reason (P : platform) (signal : AbortSignal) (file : File) :
  abortsOnlyWhen
    (readAsDataURL file = ReaderAborted
     \/ exists svc base64 e', ai P = Some svc /\ svc (PdfRequest base64) = Rejected e'
                              /\ isAbortError e' = true)
    (extractMCQsFromPDF P signal file).
Proof.
  unfold extractMCQsFromPDF. destruct (ai P) as [svc|] eqn:Hai;
    [|apply abortsOnlyWhen_quiet; apply throwsOnly_throw; reflexivity].
  apply abortsOnlyWhen_check.
  apply abortsOnlyWhen_bind.
  - apply cancellable_tryCatch.
    + apply cancellable_readFileAsBase64.
    + intros e w Ha. rewrite Ha. reflexivity.
    + intros e. destruct (isAbortError e); [apply cancellable_throw|].
      apply cancellable_bind; [apply cancellable_log|intros _; apply cancellable_throw].
  - apply abortsOnlyWhen_tryCatch.
    + unfold readFileAsBase64. do 2 apply abortsOnlyWhen_check.
      destruct (readAsDataURL file) as [result| |].
      * apply abortsOnlyWhen_quiet.
        destruct (splitSecond 44%N result) as [[|c rest]|];
          first [apply throwsOnly_ret | apply throwsOnly_throw; reflexivity].
      * apply abortsOnlyWhen_quiet. apply throwsOnly_throw. reflexivity.
      * apply abortsOnlyWhen_throw_cause. left. reflexivity.
    + intros e1 w1 e w'. destruct (isAbortError e1) eqn:Ea.
      * intros [= <- <-] _. split; reflexivity.
      * unfold bind, log, throw. intros [= <- _]. discriminate.
  - intros base64. apply abortsOnlyWhen_check.
    apply abortsOnlyWhen_tryCatch.
    + unfold extractBody. destruct (svc (PdfRequest base64)) as [text|e0] eqn:Hsvc.
      * apply abortsOnlyWhen_check.
        apply abortsOnlyWhen_bind.
        -- destruct (JSON_parse (stripFence text)); [apply cancellable_ret|].
           do 2 (apply cancellable_bind; [apply cancellable_log|intros _]).
           apply cancellable_throw.
        -- apply abortsOnlyWhen_quiet.
           destruct (JSON_parse (stripFence text)); [apply throwsOnly_ret|].
           do 2 apply throwsOnly_after_log. apply throwsOnly_throw. reflexivity.
        -- intros v. apply (@abortsOnlyWhen_weaken _ False); [intros []|].
           destruct v; try (apply abortsOnlyWhen_quiet; do 2 apply throwsOnly_after_log;
                            apply throwsOnly_throw; reflexivity).
           apply processItems_aborts_when_seen.
      * intros w e w' [= <- <-] Ha _. right. right. exists svc, base64, e0. auto.
    + intros e1 w1 e w'. destruct (isAbortError e1) eqn:Ea.
      * intros [= <- <-] _. split; reflexivity.
      * unfold bind, log, throw.
        destruct (instanceofError e1);
          [destruct (startsWith (messageOf e1) parseFailurePrefix)|];
          intros [= <- _]; try discriminate.
        intros Ha. rewrite Ha in Ea. discriminate.
Qed.

(** X13.  "Cancelled" is never reported out of thin air.  When the
    import ends in an [AbortError], and when the application shows the
    warning for a cancelled import, then the signal was read as aborted
    during the run, or the file reader was aborted, or the service itself
    rejected the request with an [AbortError]. *)
Theorem cancellation_is_reported_for_a_reason
    (P : platform) (quota : jsstring -> bool)
    (JSON_stringify : list FlashcardMCQ -> jsstring)
    (file : File) (signal : AbortSignal) (controllerSignal : nat -> bool)
    (flashcards : list FlashcardMCQ) (w : world) :
  abortSeen w = false ->
  (forall e w',
      extractMCQsFromPDF P signal file w = (Throw e, w') ->
      isAbortError e = true ->
      abortSeen w' = true
      \/ readAsDataURL file = ReaderAborted
      \/ exists svc base64 e', ai P = Some svc /\ svc (PdfRequest base64) = Rejected e'
                               /\ isAbortError e' = true)
  /\ (forall cards w',
      handlePdfFileSelected P quota JSON_stringify file controllerSignal flashcards w
      = (Ok (cards, MsgWarning), w') ->
      abortSeen w' = true
      \/ readAsDataURL file = ReaderAborted
      \/ exists svc base64 e', ai P = Some svc /\ svc (PdfRequest base64) = Rejected e'
                               /\ isAbortError e' = true).
Proof.
  intros Hw. split.
  - intros e w' E Ha. exact (@extract_aborts_for_a_reason P signal file w e w' E Ha Hw).
  - intros cards w'. unfold handlePdfFileSelected.
    destruct (negb (apiKeyAvailable P)); [intros [= _ _]|].
    unfold tryCatch, bind.
    destruct (extractMCQsFromPDF P (Some controllerSignal) file w) as [[extracted|e] w1] eqn:E.
    + unfold aborted. destruct (controllerSignal (signalReads w1)) eqn:Es.
      * intros [= _ <-]. left. simpl. apply orb_true_r.
      * destruct extracted as [|c rest]; [intros [= _ _]|].
        destruct (setFlashcards_ok quota JSON_stringify
                    (fun prev => prev ++ map (withSource file) (c :: rest)) flashcards
                    {| uuids := uuids w1; signalReads := S (signalReads w1);
                       abortSeen := abortSeen w1 || false; console := console w1;
                       localStorage := localStorage w1; setItemCalls := setItemCalls w1 |})
          as (w2 & E2 & _).
        unfold ret. rewrite E2. intros [= _ _].
    + destruct (isAbortError e) eqn:Ea.
      * intros [= _ <-]. exact (@extract_aborts_for_a_reason P _ file w e w1 E Ea Hw).
      * unfold log, ret. intros [= _ _].
Qed.

Lemma cancellation_is_reported_for_a_reason_witness :
  fst (handlePdfFileSelected
         {| ai := Some (fun _ => Rejected (abortError "The user aborted a request."));
            uuid := serial; engineMessage := v8 |}
         roomy idsOnly pdf (fun _ => false) [card "k1" "kept" None] initial)
  = Ok ([card "k1" "kept" None], MsgWarning)
  /\ (abortSeen
        (snd (handlePdfFileSelected
                {| ai := Some (fun _ => Rejected (abortError "The user aborted a request."));
                   uuid := serial; engineMessage := v8 |}
                roomy idsOnly pdf (fun _ => false) [card "k1" "kept" None] initial)) = true
      \/ readAsDataURL pdf = ReaderAborted
      \/ exists svc base64 e',
           ai {| ai := Some (fun _ => Rejected (abortError "The user aborted a request."));
                 uuid := serial; engineMessage := v8 |} = Some svc
           /\ svc (PdfRequest base64) = Rejected e' /\ isAbortError e' = true).
Proof.
  split; [vm_compute; reflexivity|].
  apply (proj2 (@cancellation_is_reported_for_a_reason
                  {| ai := Some (fun _ => Rejected (abortError "The user aborted a request."));
                     uuid := serial; engineMessage := v8 |}
                  roomy idsOnly pdf None (fun _ => false) [card "k1" "kept" None] initial
                  eq_refl) [card "k1" "kept" None]).
  vm_compute. reflexivity.
Defined.

(* ------------------------------------------------------------------ *)
(** ** A successful import in the application *)

(** X14.  When the extraction returns cards and the signal is still
    quiet afterwards, the application appends them to the collection, in
    the order of the reply and each with the file's name as its source,
    shows the success message and writes the collection once; the cards
    already there are not touched.  When the extraction returns no card it
    shows the information message and writes nothing. *)
Theorem successful_import_appends_with_source
    (P : platform) (quota : jsstring -> bool)
    (JSON_stringify : list FlashcardMCQ -> jsstring)
    (file : File) (signal : nat -> bool)
    (flashcards cards : list FlashcardMCQ) (w w1 : world) :
  extractMCQsFromPDF P (Some signal) file w = (Ok cards, w1) ->
  signal (signalReads w1) = false ->
  exists w',
    handlePdfFileSelected P quota JSON_stringify file signal flashcards w
    = (Ok (match cards with
           | [] => (flashcards, MsgInfo)
           | _ :: _ => (flashcards ++ map (withSource file) cards, MsgSuccess)
           end), w')
    /\ setItemCalls w' = setItemCalls w + match cards with [] => 0 | _ :: _ => 1 end
    /\ localStorage w' =
       match cards with
       | [] => localStorage w
       | _ :: _ =>
           if quota (JSON_stringify (flashcards ++ map (withSource file) cards))
           then Some (JSON_stringify (flashcards ++ map (withSource file) cards))
           else localStorage w
       end.
Proof.
  intros E Hs.
  destruct (cancellable_extract P (Some signal) file _ E) as (Hl & Hc & _).
  assert (Hkey : negb (apiKeyAvailable P) = false).
  { unfold apiKeyAvailable. unfold extractMCQsFromPDF in E.
    destruct (ai P); [reflexivity|discriminate]. }
  unfold handlePdfFileSelected. rewrite Hkey.
  unfold tryCatch at 1. unfold bind at 1. rewrite E.
  unfold bind at 1, aborted at 1. rewrite Hs.
  destruct cards as [|c rest].
  - eexists. split; [reflexivity|]. simpl. split; [lia|exact Hl].
  - unfold bind, setFlashcards, persist, tryCatch, bind, setItem, log, ret.
    destruct (quota (JSON_stringify (flashcards ++ map (withSource file) (c :: rest))));
      eexists; (split; [reflexivity|]); simpl; (split; [lia|]);
      first [reflexivity | exact Hl].
Qed.

Lemma successful_import_appends_with_source_witness :
  exists w',
    handlePdfFileSelected
      (replying (json "[{'question':'Q1','options':['A','B'],'correctOptionIndex':0}]"))
      roomy idsOnly pdf (fun _ => false) [card "k1" "kept" None] initial
    = (Ok ([card "k1" "kept" None]
           ++ map (withSource pdf)
                [ {| cardId := serial 2; question := JStr (str "Q1");
                     options := [ {| id := serial 0; text := JStr (str "A") |};
                                  {| id := serial 1; text := JStr (str "B") |} ];
                     correctOptionId := serial 0; topic := None; explanation := None;
                     sourcePdfName := None |} ],
           MsgSuccess), w')
    /\ setItemCalls w' = setItemCalls initial + 1
    /\ localStorage w' =
       (if roomy (idsOnly ([card "k1" "kept" None]
                           ++ map (withSource pdf)
                                [ {| cardId := serial 2; question := JStr (str "Q1");
                                     options := [ {| id := serial 0; text := JStr (str "A") |};
                                                  {| id := serial 1; text := JStr (str "B") |} ];
                                     correctOptionId := serial 0; topic := None;
                                     explanation := None; sourcePdfName := None |} ]))
        then Some (idsOnly ([card "k1" "kept" None]
                            ++ map (withSource pdf)
                                 [ {| cardId := serial 2; question := JStr (str "Q1");
                                      options := [ {| id := serial 0; text := JStr (str "A") |};
                                                   {| id := serial 1; text := JStr (str "B") |} ];
                                      correctOptionId := serial 0; topic := None;
                                      explanation := None; sourcePdfName := None |} ]))
        else localStorage initial).
Proof.
  apply (@successful_import_appends_with_source
           (replying (json "[{'question':'Q1','options':['A','B'],'correctOptionIndex':0}]"))
           roomy idsOnly pdf (fun _ => false) [card "k1" "kept" None]
           [ {| cardId := serial 2; question := JStr (str "Q1");
                options := [ {| id := serial 0; text := JStr (str "A") |};
                             {| id := serial 1; text := JStr (str "B") |} ];
                correctOptionId := serial 0; topic := None; explanation := None;
                sourcePdfName := None |} ]
           initial
           (snd (extractMCQsFromPDF
                   (replying (json "[{'question':'Q1','options':['A','B'],'correctOptionIndex':0}]"))
                   (Some (fun _ => false)) pdf initial))).
  - vm_compute. reflexivity.
  - reflexivity.
Defined.

(** X15.  After an import from a file with a name, the file has its tab:
    its name is in the source index of the new collection, every imported
    card is shown under it, the tabs that existed are still there, and no
    other tab has appeared. *)
Theorem imported_cards_get_their_tab
    (file : File) (flashcards cards : list FlashcardMCQ) :
  name file <> [] ->
  cards <> [] ->
  In (name file) (uniquePdfSources (flashcards ++ map (withSource file) cards))
  /\ (forall c, In c cards ->
        In (withSource file c)
           (displayedCards (flashcards ++ map (withSource file) cards) (Some (name file))))
  /\ (forall s, In s (uniquePdfSources flashcards) ->
        In s (uniquePdfSources (flashcards ++ map (withSource file) cards)))
  /\ (forall s, In s (uniquePdfSources (flashcards ++ map (withSource file) cards)) ->
        s = name file \/ In s (uniquePdfSources flashcards)).
Proof.
  intros Hname Hcards. split; [|split; [|split]].
  - destruct cards as [|c rest]; [destruct (Hcards eq_refl)|].
    apply uniquePdfSources_In. split; [exact Hname|].
    exists (withSource file c). split; [|reflexivity].
    apply in_or_app. right. left. reflexivity.
  - intros c Hc. simpl. apply filter_In. split.
    + apply in_or_app. right. apply in_map. exact Hc.
    + apply fromSource_iff. reflexivity.
  - intros s Hs. apply uniquePdfSources_In in Hs. destruct Hs as [Hne [c [Hc Hsrc]]].
    apply uniquePdfSources_In. split; [exact Hne|]. exists c. split; [|exact Hsrc].
    apply in_or_app. left. exact Hc.
  - intros s Hs. apply uniquePdfSources_In in Hs. destruct Hs as [Hne [c [Hc Hsrc]]].
    apply in_app_or in Hc. destruct Hc as [Hc|Hc].
    + right. apply uniquePdfSources_In. split; [exact Hne|]. exists c. split; assumption.
    + left. apply in_map_iff in Hc. destruct Hc as [c0 [<- _]].
      simpl in Hsrc. injection Hsrc as <-. reflexivity.
Qed.

Lemma imported_cards_get_their_tab_witness :
  In (name pdf)
     (uniquePdfSources ([card "k1" "kept" None]
                        ++ map (withSource pdf) [card "k2" "new" None]))
  /\ Forall (fun c => In (withSource pdf c)
                        (displayedCards ([card "k1" "kept" None]
                                         ++ map (withSource pdf) [card "k2" "new" None])
                                        (Some (name pdf))))
            [card "k2" "new" None].
Proof.
  destruct (@imported_cards_get_their_tab pdf [card "k1" "kept" None] [card "k2" "new" None])
    as [H1 [H2 _]].
  - discriminate.
  - discriminate.
  - split; [exact H1|]. apply Forall_forall. exact H2.
Defined.

(* ------------------------------------------------------------------ *)
(** ** Generating one question *)

(** X16.  A reply of the declared type to a request for one question is
    taken over as it is: the question, the option texts in order and as
    many as were asked for, the option at [correctOptionIndex] as the
    correct one, the trimmed explanation (absent when blank), and the
    reply's topic, or the requested one when the reply has none. *)
Theorem well_typed_generation_is_taken_over
    (P : platform) (svc : request -> outcome) (topic replyText : jsstring)
    (numOptions : Q) (reply : jsvalue) (w : world) :
  ai P = Some svc ->
  svc (TextRequest topic numOptions) = Resolved replyText ->
  JSON_parse (stripFence replyText) = Some reply ->
  reply <> JNull ->
  invalidGenerated reply numOptions = false ->
  (forall n, get reply (str "correctOptionIndex") = Some (JNum n) -> isInteger n = true) ->
  trimmable (get reply (str "explanation")) ->
  exists g w',
    generateMCQWithGemini P topic numOptions w = (Ok g, w')
    /\ get reply (str "question") = Some (genQuestion g)
    /\ (exists texts n o,
          get reply (str "options") = Some (JArr texts)
          /\ map text (genOptions g) = texts
          /\ (num_of_nat (List.length texts) == numOptions)%Q
          /\ get reply (str "correctOptionIndex") = Some (JNum n)
          /\ index (genOptions g) n = Some o
          /\ genCorrectOptionId g = id o)
    /\ genExplanation g = trimmedField (get reply (str "explanation"))
    /\ (truthy (get reply (str "topic")) = true ->
        get reply (str "topic") = Some (genTopic g))
    /\ (truthy (get reply (str "topic")) = false -> genTopic g = JStr topic)
    /\ console w' = console w.
Proof.
  intros Hai Hsvc Hparse Hnn Hvalid Hint Hexpl.
  assert (Hv := Hvalid). unfold invalidGenerated in Hv.
  apply orb_false_iff in Hv. destruct Hv as [Hq Hrest].
  apply negb_false_iff in Hq.
  destruct reply as [| | | | |props]; try (simpl in Hq; discriminate).
  destruct (get (JObj props) (str "options")) as [[| | | |texts|]|] eqn:Eo; try discriminate.
  apply orb_false_iff in Hrest. destruct Hrest as [Hcount Hidx].
  apply negb_false_iff in Hcount.
  destruct (get (JObj props) (str "correctOptionIndex")) as [[| |n| | |]|] eqn:Ei; try discriminate.
  apply orb_false_iff in Hidx. destruct Hidx as [Hlo Hhi].
  assert (Hhi' : num_ge n (num_of_nat (List.length texts)) = false).
  { unfold num_ge, num_eq in *. apply Qeq_bool_iff in Hcount.
    destruct (Qle_bool (num_of_nat (List.length texts)) n) eqn:El; [|reflexivity].
    apply Qle_bool_iff in El. rewrite Hcount in El. apply Qle_bool_iff in El.
    rewrite El in Hhi. discriminate. }
  destruct (mapM_newOption_fresh P texts w) as (w1 & Em & Hu1 & Hc1 & Hs1).
  destruct (@index_integer_in_range _ (freshOptions (uuid P) (uuids w) texts) n
              (Hint n eq_refl) Hlo) as (correct & Ecorrect).
  { rewrite freshOptions_length. exact Hhi'. }
  unfold generateMCQWithGemini. rewrite Hai.
  unfold tryCatch, generateBody. rewrite Hsvc, Hparse.
  unfold bind at 1. unfold ret at 1.
  assert (Hbody :
    (if invalidGenerated (JObj props) numOptions
     then throw (Eff.Error (str "Invalid response structure from Gemini API for single MCQ generation."))
     else
       bind (mapM (newOption P)
               match get (JObj props) (str "options") with Some (JArr l) => l | _ => [] end)
         (fun newOptions =>
            match
              match get (JObj props) (str "correctOptionIndex") with
              | Some (JNum n) => index newOptions n
              | _ => None
              end
            with
            | None => throw (TypeError (engineMessage P (ReadOfUndefined "id")))
            | Some correct =>
                bind (trimOrUndefined P "generatedData.explanation?.trim"
                        (get (JObj props) (str "explanation")))
                  (fun expl =>
                     ret {| genQuestion :=
                              match get (JObj props) (str "question") with
                              | Some q => q
                              | None => JNull
                              end;
                            genOptions := newOptions;
                            genCorrectOptionId := id correct;
                            genTopic :=
                              match get (JObj props) (str "topic") with
                              | Some t => if truthy (Some t) then t else JStr topic
                              | None => JStr topic
                              end;
                            genExplanation := expl |})
            end)) w
    = (Ok {| genQuestion :=
               match get (JObj props) (str "question") with Some q => q | None => JNull end;
             genOptions := freshOptions (uuid P) (uuids w) texts;
             genCorrectOptionId := id correct;
             genTopic :=
               match get (JObj props) (str "topic") with
               | Some t => if truthy (Some t) then t else JStr topic
               | None => JStr topic
               end;
             genExplanation := trimmedField (get (JObj props) (str "explanation")) |}, w1)).
  { rewrite Hvalid, Eo, Ei. unfold bind at 1. rewrite Em, Ecorrect.
    unfold bind. rewrite (trimOrUndefined_trimmedField _ _ _ Hexpl). reflexivity. }
  eexists _, w1. split.
  - cbv beta iota. rewrite Hbody. reflexivity.
  - cbn [genQuestion genOptions genCorrectOptionId genTopic genExplanation].
    destruct (get (JObj props) (str "question")) as [q|] eqn:Eq; [|discriminate].
    split; [reflexivity|]. split.
    { exists texts, n, correct. rewrite freshOptions_texts.
      repeat split; try reflexivity; try assumption.
      apply Qeq_bool_iff. exact Hcount. }
    split; [reflexivity|].
    destruct (get (JObj props) (str "topic")) as [t|] eqn:Et.
    + split; [intros Ht; rewrite Ht; reflexivity|].
      split; [intros Ht; rewrite Ht; reflexivity|exact Hc1].
    + split; [discriminate|]. split; [reflexivity|exact Hc1].
Qed.

Lemma well_typed_generation_is_taken_over_witness :
  exists g w',
    generateMCQWithGemini
      (replying (json "{'question':'Q','options':['a','b','c','d'],'correctOptionIndex':2,'topic':'','explanation':'  because '}"))
      (str "Botany") 4%Q initial
    = (Ok g, w')
    /\ genExplanation g = Some (str "because")
    /\ genTopic g = JStr (str "Botany").
Proof.
  destruct (@well_typed_generation_is_taken_over
              (replying (json "{'question':'Q','options':['a','b','c','d'],'correctOptionIndex':2,'topic':'','explanation':'  because '}"))
              (fun _ => Resolved (json "{'question':'Q','options':['a','b','c','d'],'correctOptionIndex':2,'topic':'','explanation':'  because '}"))
              (str "Botany")
              (json "{'question':'Q','options':['a','b','c','d'],'correctOptionIndex':2,'topic':'','explanation':'  because '}")
              4%Q
              (JObj [(str "question", JStr (str "Q"));
                     (str "options", JArr [JStr (str "a"); JStr (str "b"); JStr (str "c"); JStr (str "d")]);
                     (str "correctOptionIndex", JNum 2);
                     (str "topic", JStr []);
                     (str "explanation", JStr (str "  because "))])
              initial)
    as (g & w' & E & _ & _ & Hex & _ & Ht & _).
  - reflexivity.
  - reflexivity.
  - vm_compute. reflexivity.
  - discriminate.
  - vm_compute. reflexivity.
  - intros n [= <-]. reflexivity.
  - right. right. eexists. vm_compute. reflexivity.
  - exists g, w'. split; [exact E|]. split.
    + rewrite Hex. vm_compute. reflexivity.
    + apply Ht. vm_compute. reflexivity.
Defined.

(* ------------------------------------------------------------------ *)
(** ** What the fence pattern can match *)

Section PieceFacts.
Variable k : jsstring -> option (list jsstring).
Variable p : char -> bool.

Lemma greedy_pieces (s : jsstring) :
  forall acc m', greedy k p acc s = Some m' ->
  exists u v m, s = u ++ v /\ forallb p u = true /\ k v = Some m /\ m' = (acc ++ u) :: m.
Proof.
  induction s as [|x s IH]; intros acc m'; simpl.
  - destruct (k []) as [m|] eqn:E; [|discriminate]. intros [= <-].
    exists [], [], m. rewrite !app_nil_r. auto.
  - assert (Hstop : option_map (cons acc) (k (x :: s)) = Some m' ->
              exists u v m, x :: s = u ++ v /\ forallb p u = true
                            /\ k v = Some m /\ m' = (acc ++ u) :: m).
    { destruct (k (x :: s)) as [m|] eqn:E; [|discriminate]. intros [= <-].
      exists [], (x :: s), m. rewrite !app_nil_r. auto. }
    destruct (p x) eqn:Hx; [|exact Hstop].
    destruct (greedy k p (acc ++ [x]) s) as [m1|] eqn:Eg; [|exact Hstop].
    intros [= <-]. destruct (IH _ _ Eg) as (u & v & m & Hs & Hu & Hk & Hm).
    exists (x :: u), v, m. simpl. rewrite Hx, Hu, Hs, Hm, <- app_assoc. auto.
Qed.

Lemma lazy_pieces (s : jsstring) :
  forall acc m', lazy k p acc s = Some m' ->
  exists u v m, s = u ++ v /\ forallb p u = true /\ k v = Some m /\ m' = (acc ++ u) :: m.
Proof.
  induction s as [|x s IH]; intros acc m'; simpl.
  - destruct (k []) as [m|] eqn:E; [|discriminate]. intros [= <-].
    exists [], [], m. rewrite !app_nil_r. auto.
  - destruct (k (x :: s)) as [m|] eqn:E.
    + intros [= <-]. exists [], (x :: s), m. rewrite !app_nil_r. auto.
    + destruct (p x) eqn:Hx; [|discriminate].
      intros El. destruct (IH _ _ El) as (u & v & m & Hs & Hu & Hk & Hm).
      exists (x :: u), v, m. simpl. rewrite Hx, Hu, Hs, Hm, <- app_assoc. auto.
Qed.

Lemma optional_pieces (s : jsstring) (m' : list jsstring) :
  optional k p s = Some m' ->
  exists u v m, s = u ++ v /\ forallb p u = true /\ List.length u <= 1
                /\ k v = Some m /\ m' = u :: m.
Proof.
  assert (Hskip : option_map (cons []) (k s) = Some m' ->
            exists u v m, s = u ++ v /\ forallb p u = true /\ List.length u <= 1
                          /\ k v = Some m /\ m' = u :: m).
  { destruct (k s) as [m|] eqn:E; [|discriminate]. intros [= <-].
    exists [], s, m. simpl. auto. }
  destruct s as [|x s]; simpl; [exact Hskip|].
  destruct (p x) eqn:Hx; [|exact Hskip].
  destruct (k s) as [m|] eqn:E; [|exact Hskip].
  intros [= <-]. exists [x], s, m. simpl. rewrite Hx. auto.
Qed.
End PieceFacts.

(** A match splits the whole text into one piece per atom, each piece of
    the atom's kind. *)
Lemma matchAtoms_sound (r : list atom) :
  forall s m, matchAtoms r s = Some m -> Forall2 pieceOf r m /\ List.concat m = s.
Proof.
  induction r as [|a r IH]; intros s m.
  - simpl. destruct s; [|discriminate]. intros [= <-]. split; [constructor|reflexivity].
  - destruct a as [c|p|p|p].
    + simpl. destruct s as [|x s]; [discriminate|].
      destruct (N.eqb_spec x c) as [->|]; [|discriminate].
      destruct (matchAtoms r s) as [m0|] eqn:E; [|discriminate].
      intros [= <-]. destruct (IH _ _ E) as [HF Hc].
      split; [constructor; [reflexivity|exact HF]|simpl; rewrite Hc; reflexivity].
    + rewrite matchAtoms_Opt. intros H.
      destruct (optional_pieces _ _ _ H) as (u & v & m0 & -> & Hu & Hl & Hk & ->).
      destruct (IH _ _ Hk) as [HF Hc].
      split; [constructor; [split; assumption|exact HF]|simpl; rewrite Hc; reflexivity].
    + rewrite matchAtoms_Star. intros H.
      destruct (greedy_pieces _ _ _ _ H) as (u & v & m0 & -> & Hu & Hk & ->).
      destruct (IH _ _ Hk) as [HF Hc].
      split; [constructor; [exact Hu|exact HF]|simpl; rewrite Hc; reflexivity].
    + rewrite matchAtoms_LazyStar. intros H.
      destruct (lazy_pieces _ _ _ _ H) as (u & v & m0 & -> & Hu & Hk & ->).
      destruct (IH _ _ Hk) as [HF Hc].
      split; [constructor; [exact Hu|exact HF]|simpl; rewrite Hc; reflexivity].
Qed.

(** The body of a fenced reply lies between the markers. *)
Lemma fenceBody_sound (s body : jsstring) :
  fenceBody s = Some body ->
  exists lang pre post,
    s = backticks ++ lang ++ pre ++ body ++ post ++ backticks
    /\ forallb isWordChar lang = true
    /\ forallb isWhiteSpace pre = true
    /\ forallb isWhiteSpace post = true.
Proof.
  unfold fenceBody. destruct (matchAtoms fenceRegex s) as [m|] eqn:E; [|discriminate].
  destruct (matchAtoms_sound _ _ E) as [HF Hc].
  unfold fenceRegex in HF.
  repeat match goal with
         | H : Forall2 _ (_ :: _) _ |- _ => inversion H; clear H; subst
         | H : Forall2 _ [] _ |- _ => inversion H; clear H; subst
         end.
  simpl nth. intros Hbody.
  repeat match goal with
         | H : pieceOf _ _ |- _ => simpl in H
         end.
  subst. 
  match goal with
  | H1 : forallb isWordChar ?lang = true, H2 : forallb isWhiteSpace ?ws1 = true,
    H3 : _ /\ forallb isLineFeed ?lf1 = true, H4 : forallb anyChar ?b = true,
    H5 : _ /\ forallb isLineFeed ?lf2 = true, H6 : forallb isWhiteSpace ?ws2 = true |- _ =>
      exists lang, (ws1 ++ lf1), (lf2 ++ ws2);
      destruct H3 as [_ H3]; destruct H5 as [_ H5];
      apply forallb_lineFeed_isWhiteSpace in H3, H5
  end.
  match type of Hbody with
  | match ?b with [] => None | _ :: _ => _ end = _ =>
      assert (Hb : b = body) by (destruct b; [discriminate|injection Hbody as <-; reflexivity]);
      subst b
  end.
  split; [|split; [assumption|split; rewrite forallb_app; apply andb_true_iff; split; assumption]].
  simpl. rewrite <- !app_assoc. reflexivity.
Qed.

(** X17.  What is handed to [JSON.parse] is always a part of the reply,
    never text of the code's own making: it has no white space at either
    end, and it is either the whole reply trimmed, or, when the trimmed
    reply is one fenced block, what stands between the opening marker with
    its tag and the closing marker, trimmed.  A reply that does not start
    with the marker is only trimmed. *)
Theorem parsed_text_is_part_of_the_reply (text : jsstring) :
  unpadded (stripFence text)
  /\ (exists before after, text = before ++ stripFence text ++ after)
  /\ (stripFence text = trim text
      \/ exists lang pre post,
           trim text = backticks ++ lang ++ pre ++ stripFence text ++ post ++ backticks
           /\ forallb isWordChar lang = true
           /\ forallb isWhiteSpace pre = true
           /\ forallb isWhiteSpace post = true)
  /\ ((forall rest, trim text <> backticks ++ rest) -> stripFence text = trim text).
Proof.
  destruct (trim_spec text) as (u & v & Htext & Hu & Hv & Hun).
  assert (Hcases :
    (stripFence text = trim text
     \/ exists lang pre post,
          trim text = backticks ++ lang ++ pre ++ stripFence text ++ post ++ backticks
          /\ forallb isWordChar lang = true
          /\ forallb isWhiteSpace pre = true
          /\ forallb isWhiteSpace post = true)
    /\ unpadded (stripFence text)).
  { unfold stripFence. destruct (fenceBody (trim text)) as [body|] eqn:E.
    - destruct (fenceBody_sound _ E) as (lang & pre & post & Hs & Hl & Hpre & Hpost).
      destruct (trim_spec body) as (u' & v' & Hbody & Hu' & Hv' & Hun').
      split; [|exact Hun'].
      right. exists lang, (pre ++ u'), (v' ++ post).
      split; [|split; [exact Hl|split; rewrite forallb_app; apply andb_true_iff; split; assumption]].
      rewrite Hs at 1. rewrite Hbody at 1. rewrite <- !app_assoc. reflexivity.
    - split; [left; reflexivity|exact Hun]. }
  destruct Hcases as [Hcases Hunp].
  split; [exact Hunp|]. split; [|split; [exact Hcases|]].
  - destruct Hcases as [->|(lang & pre & post & Hs & _)].
    + exists u, v. exact Htext.
    + exists (u ++ backticks ++ lang ++ pre), (post ++ backticks ++ v).
      rewrite Htext at 1. rewrite Hs. rewrite <- !app_assoc. reflexivity.
  - intros Hno. destruct Hcases as [H|(lang & pre & post & Hs & _)]; [exact H|].
    destruct (Hno _ Hs).
Qed.

(* ------------------------------------------------------------------ *)
(** ** The data URL of the file *)

Lemma upTo_without (sep : char) (s : jsstring) : without sep s -> upTo sep s = s.
Proof.
  unfold without. induction s as [|c s IH]; simpl; [reflexivity|].
  intros H. apply andb_true_iff in H. destruct H as [Hc Hs].
  apply negb_true_iff in Hc. rewrite Hc. f_equal. apply IH. exact Hs.
Qed.

Lemma splitSecond_header (sep : char) (header payload : jsstring) :
  without sep header ->
  splitSecond sep (header ++ sep :: payload) = Some (upTo sep payload).
Proof.
  unfold without. induction header as [|c h IH]; simpl.
  - intros _. rewrite N.eqb_refl. reflexivity.
  - intros H. apply andb_true_iff in H. destruct H as [Hc Hs].
    apply negb_true_iff in Hc. rewrite Hc. apply IH. exact Hs.
Qed.

(** X18.  From a data URL, a header without a comma, a comma and a
    payload without one (base64 text has none), [readFileAsBase64] returns
    the payload and nothing of the header, whatever a quiet signal is
    asked; an empty payload is an error. *)
Theorem data_url_payload_is_extracted
    (file : File) (signal : AbortSignal) (header payload : jsstring) (w : world) :
  quiet signal ->
  readAsDataURL file = Loaded (header ++ 44%N :: payload) ->
  without 44%N header ->
  without 44%N payload ->
  exists w1,
    readFileAsBase64 file signal w
    = (match payload with
       | [] => Throw (Eff.Error (str "Failed to extract base64 string from file."))
       | _ :: _ => Ok payload
       end, w1)
    /\ sameButReads w w1.
Proof.
  intros Hq Hfile Hh Hp.
  destruct (@readFileAsBase64_quiet file signal w Hq) as [w1 [E S]].
  exists w1. split; [|exact S]. rewrite E, Hfile.
  rewrite (splitSecond_header _ Hh), (upTo_without Hp).
  destruct payload; reflexivity.
Qed.

Lemma data_url_payload_is_extracted_witness :
  exists w1,
    readFileAsBase64 pdf (Some (fun _ => false)) initial = (Ok (str "JVBERi0xLjQK"), w1)
    /\ sameButReads initial w1.
Proof.
  apply (@data_url_payload_is_extracted pdf (Some (fun _ => false))
           (str "data:application/pdf;base64") (str "JVBERi0xLjQK") initial).
  - intros k. reflexivity.
  - reflexivity.
  - reflexivity.
  - reflexivity.
Defined.

(* ------------------------------------------------------------------ *)
(** ** The form: submitting, editing, loading *)

Lemma newMCQOptionsFrom_spec (gen : nat -> jsstring) (initialOptions : list MCQOption)
    (texts : list jsstring) :
  forall (index : nat) (w : world),
  exists os w',
    newMCQOptionsFrom gen initialOptions index texts w = (Ok os, w')
    /\ map text os = map JStr texts
    /\ console w' = console w
    /\ (forall i o0, nth_error initialOptions (index + i) = Some o0 -> id o0 <> [] ->
          i < List.length texts ->
          exists o, nth_error os i = Some o /\ id o = id o0)
    /\ (initialOptions = [] ->
          os = freshOptions gen (uuids w) (map JStr texts)
          /\ uuids w' = uuids w + List.length texts)
    /\ ((forall i, i < List.length texts ->
           exists o0, nth_error initialOptions (index + i) = Some o0 /\ id o0 <> []) ->
        uuids w' = uuids w).
Proof.
  induction texts as [|t rest IH]; intros index w.
  - exists [], w. simpl. unfold ret.
    split; [reflexivity|]. split; [reflexivity|]. split; [reflexivity|].
    split; [intros i o0 _ _ Hi; inversion Hi|].
    split; [intros _; split; [reflexivity|lia]|reflexivity].
  - simpl newMCQOptionsFrom. unfold bind at 1.
    assert (Hid : exists i w1,
              optionId gen initialOptions index w = (Ok i, w1)
              /\ console w1 = console w
              /\ (forall o0, nth_error initialOptions index = Some o0 -> id o0 <> [] -> i = id o0)
              /\ (initialOptions = [] -> i = gen (uuids w) /\ uuids w1 = S (uuids w))
              /\ (forall o0, nth_error initialOptions index = Some o0 -> id o0 <> [] ->
                    uuids w1 = uuids w)).
    { unfold optionId. destruct (nth_error initialOptions index) as [o|] eqn:En.
      - destruct (id o) as [|c r] eqn:Eid.
        + eexists _, _. split; [reflexivity|]. split; [reflexivity|]. split; [|split].
          * intros o0 [= <-] Hne. destruct (Hne Eid).
          * intros ->. destruct index; discriminate.
          * intros o0 [= <-] Hne. destruct (Hne Eid).
        + eexists _, _. split; [reflexivity|]. split; [reflexivity|]. split; [|split].
          * intros o0 [= <-] _. symmetry. exact Eid.
          * intros ->. destruct index; discriminate.
          * intros o0 _ _. reflexivity.
      - eexists _, _. split; [reflexivity|]. split; [reflexivity|]. split; [|split].
        + intros o0 H. discriminate.
        + intros _. split; reflexivity.
        + intros o0 H. discriminate. }
    destruct Hid as (i0 & w1 & E1 & Hc1 & Hkeep & Hnew & Hsame). rewrite E1.
    destruct (IH (S index) w1) as (os & w' & E & Htexts & Hc & Hold & Hfresh & Hnone).
    unfold bind at 1. rewrite E. unfold ret.
    eexists _, _. split; [reflexivity|]. split; [simpl; rewrite Htexts; reflexivity|].
    split; [rewrite Hc; exact Hc1|]. split; [|split].
    + intros i o0 Hn Hne Hi. destruct i as [|i].
      * rewrite Nat.add_0_r in Hn. eexists. split; [reflexivity|]. simpl. apply Hkeep; assumption.
      * simpl. apply Hold; [|exact Hne|simpl in Hi; lia].
        rewrite <- Hn. f_equal. lia.
    + intros Hnil. destruct (Hnew Hnil) as [-> Hu1]. destruct (Hfresh Hnil) as [-> Hu].
      simpl. rewrite Hu1. split; [reflexivity|]. rewrite Hu, Hu1. lia.
    + intros Hall. rewrite Hnone.
      * destruct (Hall 0) as (o0 & Hn & Hne); [simpl; lia|].
        rewrite Nat.add_0_r in Hn. eapply Hsame; eassumption.
      * intros i Hi. destruct (Hall (S i)) as (o0 & Hn & Hne); [simpl; lia|].
        exists o0. split; [|exact Hne]. rewrite <- Hn. f_equal. lia.
Qed.

Lemma blank_option_found (texts : list jsstring) :
  existsb (fun opt => match trim opt with [] => true | _ :: _ => false end) texts = false
  <-> Forall (fun t => trim t <> []) texts.
Proof.
  induction texts as [|t rest IH]; simpl.
  - split; [constructor|reflexivity].
  - rewrite orb_false_iff, IH. split.
    + intros [Ht Hr]. constructor; [|exact Hr]. destruct (trim t); [discriminate|discriminate].
    + intros H. inversion H; subst. split; [|assumption].
      destruct (trim t); [contradiction|reflexivity].
Qed.

Lemma handleSubmit_incomplete
    (gen : nat -> jsstring) (engineMessage : fault -> jsstring)
    (initialCard : option FlashcardMCQ) (st : FormState) (w : world) :
  trim (formQuestion st) = []
  \/ Exists (fun t => trim t = []) (formOptions st)
  \/ formCorrectOptionIndex st = None ->
  handleSubmit gen engineMessage initialCard st w = (Ok None, w).
Proof.
  intros H. unfold handleSubmit.
  destruct (trim (formQuestion st)) as [|x r] eqn:Eq; [reflexivity|].
  destruct (formCorrectOptionIndex st) as [k|] eqn:Ek; [|reflexivity].
  destruct H as [H|[H|H]]; try discriminate.
  assert (Hb : existsb (fun opt => match trim opt with [] => true | _ :: _ => false end)
                 (formOptions st) = true).
  { apply Exists_exists in H. destruct H as [t [Hin Ht]].
    apply existsb_exists. exists t. split; [exact Hin|]. rewrite Ht. reflexivity. }
  rewrite Hb. reflexivity.
Qed.

(** X19.  [handleSubmit] hands a card to [onSave] exactly for a complete
    form.  With a question and all options non-blank and a selected option
    among them, the card has the question and the option texts as typed
    (not trimmed), the option at the selected position as the correct one,
    and the topic and explanation trimmed, absent when blank.  With a
    blank question, a blank option or no selection nothing is saved and
    no identifier is drawn. *)
Theorem submit_accepts_complete_forms
    (gen : nat -> jsstring) (engineMessage : fault -> jsstring)
    (initialCard : option FlashcardMCQ) (st : FormState) (w : world) :
  (trim (formQuestion st) <> [] ->
   Forall (fun t => trim t <> []) (formOptions st) ->
   forall k, formCorrectOptionIndex st = Some k -> k < List.length (formOptions st) ->
   exists c w',
     handleSubmit gen engineMessage initialCard st w = (Ok (Some c), w')
     /\ question c = JStr (formQuestion st)
     /\ map text (options c) = map JStr (formOptions st)
     /\ (exists o, nth_error (options c) k = Some o /\ correctOptionId c = id o
                   /\ text o = JStr (nth k (formOptions st) []))
     /\ topic c = blankToUndefined (formTopic st)
     /\ explanation c = blankToUndefined (formExplanation st))
  /\ (trim (formQuestion st) = []
      \/ Exists (fun t => trim t = []) (formOptions st)
      \/ formCorrectOptionIndex st = None ->
      handleSubmit gen engineMessage initialCard st w = (Ok None, w)).
Proof.
  split.
  - intros Hq Hopts k Hk Hrange. unfold handleSubmit.
    destruct (trim (formQuestion st)) as [|x r]; [destruct (Hq eq_refl)|].
    rewrite Hk. apply blank_option_found in Hopts. rewrite Hopts.
    destruct (newMCQOptionsFrom_spec gen
                (match initialCard with Some c => options c | None => [] end)
                (formOptions st) 0 w) as (os & w1 & E & Htexts & _).
    unfold bind at 1. rewrite E.
    assert (Hcid : exists cid w2,
              match initialCard with
              | Some c => match cardId c with [] => randomUUID gen | x0 :: r0 => ret (x0 :: r0) end
              | None => randomUUID gen
              end w1 = (Ok cid, w2)).
    { destruct initialCard as [c0|]; [destruct (cardId c0)|]; eexists _, _; reflexivity. }
    destruct Hcid as (cid & w2 & Ecid). unfold bind at 1. rewrite Ecid.
    assert (Hlen : List.length os = List.length (formOptions st)).
    { rewrite <- (length_map text), Htexts, length_map. reflexivity. }
    destruct (nth_error os k) as [correct|] eqn:En.
    + eexists _, _. unfold ret. split; [reflexivity|].
      cbn [question options correctOptionId topic explanation].
      split; [reflexivity|]. split; [exact Htexts|]. split; [|split; reflexivity].
      exists correct. split; [exact En|]. split; [reflexivity|].
      assert (Ht : nth_error (map text os) k = Some (text correct))
        by (rewrite nth_error_map, En; reflexivity).
      rewrite Htexts, nth_error_map in Ht.
      destruct (nth_error (formOptions st) k) as [t|] eqn:Et; [|discriminate].
      injection Ht as <-. rewrite (nth_error_nth _ _ _ Et). reflexivity.
    + apply nth_error_None in En. lia.
  - apply handleSubmit_incomplete.
Qed.

(** X20.  Saving an edited card keeps what identifies it: the card's
    own id and its source, and for every option that existed the id at the
    same position; only the contents change.  (An empty id counts as
    missing and is replaced by a fresh one.) *)
Theorem edited_card_keeps_its_identity
    (gen : nat -> jsstring) (engineMessage : fault -> jsstring)
    (initialCard c : FlashcardMCQ) (st : FormState) (w w' : world) :
  handleSubmit gen engineMessage (Some initialCard) st w = (Ok (Some c), w') ->
  (cardId initialCard <> [] -> cardId c = cardId initialCard)
  /\ sourcePdfName c = sourcePdfName initialCard
  /\ List.length (options c) = List.length (formOptions st)
  /\ (forall i o0, nth_error (options initialCard) i = Some o0 -> id o0 <> [] ->
        i < List.length (formOptions st) ->
        exists o, nth_error (options c) i = Some o /\ id o = id o0)
  /\ ((forall o0, In o0 (options initialCard) -> id o0 <> []) ->
      cardId initialCard <> [] ->
      List.length (formOptions st) <= List.length (options initialCard) ->
      uuids w' = uuids w).
Proof.
  unfold handleSubmit.
  destruct (trim (formQuestion st)) as [|x r]; [discriminate|].
  destruct (formCorrectOptionIndex st) as [k|]; [|discriminate].
  destruct (existsb _ (formOptions st)); [discriminate|].
  destruct (newMCQOptionsFrom_spec gen (options initialCard) (formOptions st) 0 w)
    as (os & w1 & E & Htexts & _ & Hold & _ & Hnone).
  unfold bind at 1. rewrite E. unfold bind at 1.
  assert (Hlen : List.length os = List.length (formOptions st)).
  { rewrite <- (length_map text), Htexts, length_map. reflexivity. }
  assert (Hdone : forall cid w2,
            (cardId initialCard <> [] -> cid = cardId initialCard /\ w2 = w1) ->
            match nth_error os k with
            | Some correct =>
                ret (Some {| cardId := cid; question := JStr (formQuestion st);
                             options := os; correctOptionId := id correct;
                             topic := blankToUndefined (formTopic st);
                             explanation := blankToUndefined (formExplanation st);
                             sourcePdfName := sourcePdfName initialCard |})
            | None => throw (TypeError (engineMessage (ReadOfUndefined "id")))
            end w2 = (Ok (Some c), w') ->
            (cardId initialCard <> [] -> cardId c = cardId initialCard)
            /\ sourcePdfName c = sourcePdfName initialCard
            /\ List.length (options c) = List.length (formOptions st)
            /\ (forall i o0, nth_error (options initialCard) i = Some o0 -> id o0 <> [] ->
                  i < List.length (formOptions st) ->
                  exists o, nth_error (options c) i = Some o /\ id o = id o0)
            /\ ((forall o0, In o0 (options initialCard) -> id o0 <> []) ->
                cardId initialCard <> [] ->
                List.length (formOptions st) <= List.length (options initialCard) ->
                uuids w' = uuids w)).
  { intros cid w2 Hcid. destruct (nth_error os k) as [correct|]; [|discriminate].
    unfold ret. intros [= <- <-]. cbn [cardId sourcePdfName options].
    split; [intros Hne; apply Hcid; exact Hne|]. split; [reflexivity|].
    split; [exact Hlen|]. split; [exact Hold|].
    intros Hids Hne Hle. destruct (Hcid Hne) as [_ ->]. apply Hnone.
    intros i Hi. simpl.
    destruct (nth_error (options initialCard) i) as [o0|] eqn:En.
    - exists o0. split; [reflexivity|]. apply Hids. eapply nth_error_In. exact En.
    - apply nth_error_None in En. lia. }
  destruct (cardId initialCard) as [|x0 r0] eqn:Ecid.
  - unfold randomUUID at 1. apply Hdone. intros Hne. destruct (Hne eq_refl).
  - unfold ret at 1. apply Hdone. intros _. split; reflexivity.
Qed.

Lemma edited_card_keeps_its_identity_witness :
  exists c,
    fst (handleSubmit serial v8 (Some (card "k1" "old" (Some (str "notes.pdf"))))
           {| formQuestion := str "new"; formOptions := [str "yes"; str "maybe"];
              formCorrectOptionIndex := Some 1; formTopic := []; formExplanation := [] |}
           initial) = Ok (Some c)
    /\ cardId c = str "k1"
    /\ sourcePdfName c = Some (str "notes.pdf").
Proof.
  eexists. split; [vm_compute; reflexivity|].
  destruct (@edited_card_keeps_its_identity serial v8
              (card "k1" "old" (Some (str "notes.pdf"))) _
              {| formQuestion := str "new"; formOptions := [str "yes"; str "maybe"];
                 formCorrectOptionIndex := Some 1; formTopic := []; formExplanation := [] |}
              initial _ (surjective_pairing _)) as (Hid & Hsrc & _).
  split; [apply Hid; discriminate|exact Hsrc].
Defined.

Lemma findIndex_fresh (gen : nat -> jsstring) (texts : list jsvalue) :
  (forall i j, gen i = gen j -> i = j) ->
  forall n k, k < List.length texts ->
  findIndex (fun opt => jsstring_eqb (id opt) (gen (n + k))) (freshOptions gen n texts) = Some k.
Proof.
  intros Hinj. induction texts as [|t rest IH]; intros n k Hk; [inversion Hk|].
  simpl. destruct k as [|k].
  - rewrite Nat.add_0_r, jsstring_eqb_refl. reflexivity.
  - destruct (jsstring_eqb (gen n) (gen (n + S k))) eqn:E.
    + apply jsstring_eqb_eq in E. apply Hinj in E. lia.
    + replace (n + S k) with (S n + k) by lia. rewrite IH; [reflexivity|simpl in Hk; lia].
Qed.

(** X21.  A card made by the form comes back into the form as it was
    entered.  With identifiers that do not repeat, the card [handleSubmit]
    builds from a new four-option form loads, through the form's
    initialising effect, into the same question, the same four option
    texts and the same selected position. *)
Theorem new_card_reloads_into_the_same_form
    (gen : nat -> jsstring) (engineMessage : fault -> jsstring)
    (st : FormState) (c : FlashcardMCQ) (w w' : world) :
  (forall i j, gen i = gen j -> i = j) ->
  List.length (formOptions st) = 4 ->
  handleSubmit gen engineMessage None st w = (Ok (Some c), w') ->
  question c = JStr (formQuestion st)
  /\ paddedOptions c = map JStr (formOptions st)
  /\ correctIndex c = formCorrectOptionIndex st.
Proof.
  intros Hinj Hfour. unfold handleSubmit.
  destruct (trim (formQuestion st)) as [|x r]; [discriminate|].
  destruct (formCorrectOptionIndex st) as [k|]; [|discriminate].
  destruct (existsb _ (formOptions st)); [discriminate|].
  destruct (newMCQOptionsFrom_spec gen [] (formOptions st) 0 w)
    as (os & w1 & E & Htexts & _ & _ & Hfresh & _).
  destruct (Hfresh eq_refl) as [-> Hu].
  unfold bind at 1. rewrite E. unfold bind at 1, randomUUID at 1.
  destruct (nth_error (freshOptions gen (uuids w) (map JStr (formOptions st))) k)
    as [correct|] eqn:En; [|discriminate].
  unfold ret. intros [= <- _].
  assert (Hk : k < List.length (map JStr (formOptions st))).
  { rewrite <- (freshOptions_length gen (uuids w)). apply nth_error_Some. rewrite En. discriminate. }
  assert (Hid : id correct = gen (uuids w + k)).
  { assert (H : nth_error (map id (freshOptions gen (uuids w) (map JStr (formOptions st)))) k
                = Some (id correct)) by (rewrite nth_error_map, En; reflexivity).
    rewrite freshOptions_ids, nth_error_map in H.
    rewrite nth_error_seq in H.
    destruct (Nat.ltb_spec k (List.length (map JStr (formOptions st)))) as [_|Hge]; [|lia].
    simpl in H. injection H as <-. reflexivity. }
  split; [reflexivity|]. split.
  - unfold paddedOptions. cbn [options]. rewrite freshOptions_texts.
    destruct (formOptions st) as [|a [|b [|d [|e [|f rest]]]]]; try discriminate. reflexivity.
  - unfold correctIndex. cbn [options correctOptionId]. rewrite Hid.
    apply findIndex_fresh; assumption.
Qed.

Lemma new_card_reloads_into_the_same_form_witness :
  exists c,
    fst (handleSubmit serial v8 None
           {| formQuestion := str "Q"; formOptions := [str "a"; str "b"; str "c"; str "d"];
              formCorrectOptionIndex := Some 2; formTopic := []; formExplanation := [] |}
           initial) = Ok (Some c)
    /\ paddedOptions c = map JStr [str "a"; str "b"; str "c"; str "d"]
    /\ correctIndex c = Some 2.
Proof.
  eexists. split; [vm_compute; reflexivity|].
  destruct (@new_card_reloads_into_the_same_form serial v8
              {| formQuestion := str "Q"; formOptions := [str "a"; str "b"; str "c"; str "d"];
                 formCorrectOptionIndex := Some 2; formTopic := []; formExplanation := [] |}
              _ initial _ serial_injective eq_refl (surjective_pairing _)) as (_ & Hp & Hi).
  split; [exact Hp|exact Hi].
Defined.

(** X22.  The form always shows four options: a card's option texts in
    order, cut after the fourth and filled up with blanks.  So a card with
    fewer than four options, as an import can make, cannot be saved again
    from the form as it is: the blanks it was filled up with are refused. *)
Theorem short_card_cannot_be_resaved_unchanged
    (gen : nat -> jsstring) (engineMessage : fault -> jsstring)
    (initialCard : FlashcardMCQ) (st : FormState) (w : world) :
  List.length (paddedOptions initialCard) = 4
  /\ (forall i, i < 4 ->
        nth_error (paddedOptions initialCard) i
        = Some (match nth_error (options initialCard) i with
                | Some o => text o
                | None => JStr []
                end))
  /\ (List.length (options initialCard) < 4 ->
      map JStr (formOptions st) = paddedOptions initialCard ->
      handleSubmit gen engineMessage (Some initialCard) st w = (Ok None, w)).
Proof.
  unfold paddedOptions.
  split; [|split].
  - destruct (options initialCard) as [|a [|b [|d [|e rest]]]]; reflexivity.
  - intros i Hi.
    destruct (options initialCard) as [|a [|b [|d [|e rest]]]];
      destruct i as [|[|[|[|i]]]]; try lia; reflexivity.
  - intros Hshort Hform. apply handleSubmit_incomplete. right. left.
    apply Exists_exists. exists []. split; [|reflexivity].
    assert (Hin : In (JStr []) (map JStr (formOptions st))).
    { rewrite Hform.
      destruct (options initialCard) as [|a [|b [|d [|e rest]]]]; simpl in *; try lia; auto 6. }
    apply in_map_iff in Hin. destruct Hin as [t [[= ->] Hin]]. exact Hin.
Qed.

(* ------------------------------------------------------------------ *)
(** ** Saving from the application *)

(** X23.  Editing ends where it began.  After a card was opened for
    editing and the form accepted the change, [handleSaveFlashcard] puts
    the new version at every place of the collection that held the card's
    id, leaves the other cards and the length as they were, keeps the
    card's id and source, returns to the home view and forgets the card
    being edited.  Without a card being edited the saved card is added at
    the end. *)
Theorem edit_flow_replaces_in_place
    (gen : nat -> jsstring) (engineMessage : fault -> jsstring)
    (quota : jsstring -> bool) (JSON_stringify : list FlashcardMCQ -> jsstring)
    (initialCard c : FlashcardMCQ) (form : FormState)
    (st : AppViews.AppState) (flashcards : list FlashcardMCQ) (w w1 : world) :
  cardId initialCard <> [] ->
  handleSubmit gen engineMessage (Some initialCard) form w = (Ok (Some c), w1) ->
  (exists w2,
     AppViews.handleSaveFlashcard quota JSON_stringify c
       (AppViews.handleSetCardToEdit initialCard st) flashcards w1
     = (Ok (replaceCard c flashcards,
            {| AppViews.currentView := AppViews.home; AppViews.cardToEdit := None |}), w2)
     /\ setItemCalls w2 = S (setItemCalls w1))
  /\ List.length (replaceCard c flashcards) = List.length flashcards
  /\ (forall i x, nth_error flashcards i = Some x ->
        nth_error (replaceCard c flashcards) i
        = Some (if jsstring_eqb (cardId x) (cardId initialCard) then c else x))
  /\ sourcePdfName c = sourcePdfName initialCard
  /\ (AppViews.cardToEdit st = None ->
      exists w2,
        AppViews.handleSaveFlashcard quota JSON_stringify c st flashcards w1
        = (Ok (flashcards ++ [c],
               {| AppViews.currentView := AppViews.home; AppViews.cardToEdit := None |}), w2)).
Proof.
  intros Hid Hsubmit.
  assert (Hc : cardId c = cardId initialCard /\ sourcePdfName c = sourcePdfName initialCard).
  { revert Hsubmit. unfold handleSubmit.
    destruct (trim (formQuestion form)) as [|x r]; [discriminate|].
    destruct (formCorrectOptionIndex form) as [k|]; [|discriminate].
    destruct (existsb _ (formOptions form)); [discriminate|].
    unfold bind at 1.
    destruct (newMCQOptionsFrom gen (options initialCard) 0 (formOptions form) w)
      as [[os|e] w0]; [|discriminate].
    unfold bind at 1.
    destruct (cardId initialCard) as [|x0 r0]; [destruct (Hid eq_refl)|].
    unfold ret at 1. destruct (nth_error os k); [|discriminate].
    unfold ret. intros [= <- _]. split; reflexivity. }
  destruct Hc as [Hcid Hsrc].
  split; [|split; [|split; [|split]]].
  - unfold AppViews.handleSaveFlashcard, AppViews.handleSetCardToEdit.
    cbn [AppViews.currentView AppViews.cardToEdit].
    destruct (setFlashcards_ok quota JSON_stringify (replaceCard c) flashcards w1)
      as (w2 & E & _ & Hcalls).
    exists w2. unfold bind, updateFlashcard. rewrite E. split; [reflexivity|exact Hcalls].
  - apply replaceCard_length.
  - intros i x Hx. rewrite <- Hcid. apply replaceCard_nth. exact Hx.
  - exact Hsrc.
  - intros Hnone. unfold AppViews.handleSaveFlashcard. rewrite Hnone.
    destruct (setFlashcards_ok quota JSON_stringify (appendCard c) flashcards w1)
      as (w2 & E & _).
    exists w2. unfold bind, addFlashcard.
    destruct (AppViews.currentView st); rewrite E; reflexivity.
Qed.

Lemma edit_flow_replaces_in_place_witness :
  exists c,
    fst (handleSubmit serial v8 (Some (card "k1" "old" None))
           {| formQuestion := str "new"; formOptions := [str "yes"; str "no"];
              formCorrectOptionIndex := Some 0; formTopic := []; formExplanation := [] |}
           initial) = Ok (Some c)
    /\ List.length (replaceCard c [card "k1" "old" None; card "k2" "other" None]) = 2
    /\ nth_error (replaceCard c [card "k1" "old" None; card "k2" "other" None]) 1
       = Some (card "k2" "other" None).
Proof.
  eexists. split; [vm_compute; reflexivity|].
  destruct (@edit_flow_replaces_in_place serial v8 roomy idsOnly
              (card "k1" "old" None) _
              {| formQuestion := str "new"; formOptions := [str "yes"; str "no"];
                 formCorrectOptionIndex := Some 0; formTopic := []; formExplanation := [] |}
              {| AppViews.currentView := AppViews.deck; AppViews.cardToEdit := None |}
              [card "k1" "old" None; card "k2" "other" None] initial _
              ltac:(discriminate) (surjective_pairing _)) as (_ & Hlen & Hnth & _).
  split; [exact Hlen|]. exact (Hnth 1 _ eq_refl).
Defined.

(* ------------------------------------------------------------------ *)
(** ** The quiz *)

Lemma assign_length {T : Type} (l : list T) (k : nat) (x : T) :
  List.length (assign l k x) = List.length l.
Proof.
  revert k. induction l as [|y l IH]; intros k; [reflexivity|].
  destruct k; simpl; [reflexivity|]. rewrite IH. reflexivity.
Qed.

Lemma nth_error_assign {T : Type} (l : list T) (k j : nat) (x : T) :
  k < List.length l ->
  nth_error (assign l k x) j = if Nat.eqb k j then Some x else nth_error l j.
Proof.
  revert k j. induction l as [|y l IH]; intros k j Hk; [inversion Hk|].
  destruct k as [|k], j as [|j]; simpl; try reflexivity.
  apply IH. simpl in Hk. lia.
Qed.

(** Writing [x] where [y] stood trades one for the other. *)
Lemma assign_perm {T : Type} (l : list T) (k : nat) (x y : T) :
  nth_error l k = Some y -> Permutation (y :: assign l k x) (x :: l).
Proof.
  revert k. induction l as [|a l IH]; intros k; [destruct k; discriminate|].
  destruct k as [|k]; simpl.
  - intros [= ->]. apply perm_swap.
  - intros H. eapply perm_trans; [apply perm_swap|].
    eapply perm_trans; [apply perm_skip, IH, H|]. apply perm_swap.
Qed.

Lemma swap_perm {T : Type} (l : list T) (i j : nat) :
  i < List.length l -> j < List.length l ->
  exists l', swap l i j = Some l' /\ Permutation l l' /\ List.length l' = List.length l.
Proof.
  intros Hi Hj. unfold swap.
  destruct (nth_error l i) as [x|] eqn:Ei; [|apply nth_error_None in Ei; lia].
  destruct (nth_error l j) as [y|] eqn:Ej; [|apply nth_error_None in Ej; lia].
  eexists. split; [reflexivity|]. split; [|rewrite !assign_length; reflexivity].
  assert (Hj' : nth_error (assign l i y) j = Some y).
  { rewrite (@nth_error_assign _ l i j y Hi). destruct (Nat.eqb i j); [reflexivity|exact Ej]. }
  apply (Permutation_cons_inv (a := y)).
  eapply perm_trans.
  - apply Permutation_sym. apply (@assign_perm _ l i y x Ei).
  - apply Permutation_sym. apply (@assign_perm _ (assign l i y) j x y Hj').
Qed.

Lemma shuffleFrom_perm {T : Type} (draw : nat -> nat) (i : nat) :
  fairDraw draw ->
  forall (a : list T), i < List.length a \/ (i = 0 /\ a = []) ->
  exists a', shuffleFrom draw i a = Some a' /\ Permutation a a'.
Proof.
  intros Hfair. induction i as [|i IH]; intros a Hi.
  - exists a. split; [reflexivity|apply Permutation_refl].
  - destruct Hi as [Hi|[Hi _]]; [|discriminate]. simpl.
    destruct (@swap_perm T a (S i) (draw (S i)) Hi) as (a1 & E & Hp & Hl).
    { specialize (Hfair (S i)). lia. }
    rewrite E. destruct (IH a1) as (a' & E' & Hp'); [left; lia|].
    exists a'. split; [exact E'|]. eapply perm_trans; eassumption.
Qed.

Lemma shuffleArray_perm_aux {T : Type} (draw : nat -> nat) (array : list T) :
  fairDraw draw ->
  exists shuffled, shuffleArray draw array = Some shuffled /\ Permutation array shuffled.
Proof.
  intros Hfair. unfold shuffleArray. apply shuffleFrom_perm; [exact Hfair|].
  destruct array as [|x l]; [right; split; reflexivity|left; simpl; lia].
Qed.

(** X24.  [shuffleArray] returns the same cards in some order: whenever
    every draw is an index from 0 to the loop index, as
    [Math.floor(Math.random() * (i + 1))] is, the result is a permutation
    of the argument; no card is lost, none is doubled, no entry is left
    undefined. *)
Theorem shuffleArray_is_a_permutation
    (T : Type) (draw : nat -> nat) (array : list T) :
  fairDraw draw ->
  exists shuffled,
    shuffleArray draw array = Some shuffled
    /\ Permutation array shuffled
    /\ List.length shuffled = List.length array.
Proof.
  intros Hfair.
  destruct (@shuffleArray_perm_aux T draw array Hfair) as (a' & E & Hp).
  exists a'. split; [exact E|]. split; [exact Hp|].
  symmetry. apply Permutation_length. exact Hp.
Qed.

Lemma shuffleArray_is_a_permutation_witness :
  exists shuffled,
    shuffleArray (fun i => i - 1) [1; 2; 3; 4] = Some shuffled
    /\ Permutation [1; 2; 3; 4] shuffled
    /\ List.length shuffled = List.length [1; 2; 3; 4].
Proof.
  apply (@shuffleArray_is_a_permutation nat (fun i => i - 1) [1; 2; 3; 4]).
  intros i. lia.
Defined.

(** What holds of the quiz at every moment. *)
Lemma initializeQuiz_state (draw : nat -> nat) (flashcards : list FlashcardMCQ) :
  fairDraw draw ->
  exists st, initializeQuiz draw flashcards = Some st
             /\ Permutation flashcards (quizCards st)
             /\ currentIndex st = 0 /\ score st = 0 /\ showAnswer st = false
             /\ quizFinished st = false /\ selectedOptionId st = None.
Proof.
  intros Hfair. unfold initializeQuiz.
  destruct (@shuffleArray_perm_aux _ draw flashcards Hfair) as (a & E & Hp).
  rewrite E. eexists. split; [reflexivity|]. simpl. auto 10.
Qed.

Lemma initializeQuiz_invariant (draw : nat -> nat) (flashcards : list FlashcardMCQ) :
  flashcards <> [] -> fairDraw draw ->
  exists st, initializeQuiz draw flashcards = Some st /\ quizInvariant flashcards st.
Proof.
  intros Hne Hfair.
  destruct (initializeQuiz_state flashcards Hfair) as (st & E & Hp & Hi & Hs & Ha & _).
  exists st. split; [exact E|]. unfold quizInvariant. rewrite Hi, Hs, Ha.
  split; [exact Hp|]. split; [|lia].
  rewrite <- (Permutation_length Hp). destruct flashcards; [destruct (Hne eq_refl)|simpl; lia].
Qed.

Lemma handle_invariant (flashcards : list FlashcardMCQ) (e : event) (st : QuizState) :
  flashcards <> [] -> fairEvent e -> quizInvariant flashcards st ->
  exists st', handle flashcards e st = Some st' /\ quizInvariant flashcards st'.
Proof.
  intros Hne He (Hp & Hi & Hs). destruct e as [optionId| |draw]; simpl.
  - unfold handleOptionSelect. destruct (showAnswer st) eqn:Ea.
    + exists st. split; [reflexivity|]. unfold quizInvariant. rewrite Ea. auto.
    + unfold currentCard. destruct (nth_error (quizCards st) (currentIndex st)) as [card|] eqn:En;
        [|apply nth_error_None in En; lia].
      eexists. split; [reflexivity|]. unfold quizInvariant. simpl.
      split; [exact Hp|]. split; [exact Hi|].
      destruct (jsstring_eqb optionId (correctOptionId card)); lia.
  - eexists. split; [reflexivity|]. unfold handleNextQuestion, quizInvariant.
    destruct (Z.ltb_spec (Z.of_nat (currentIndex st))
                (Z.of_nat (List.length (quizCards st)) - 1)); simpl.
    + split; [exact Hp|]. split; [lia|]. destruct (showAnswer st); lia.
    + split; [exact Hp|]. split; [exact Hi|exact Hs].
  - apply initializeQuiz_invariant; assumption.
Qed.

(** X25.  The quiz holds together whatever the user does.  On a deck that
    is not empty, after any sequence of picking options, going on and
    restarting, no handler has thrown, the quiz still asks exactly the
    cards of the deck, there is a current card, and the score is at most
    the number of questions answered so far (a second pick on the same
    question does not count), hence at most the size of the deck. *)
Theorem quiz_score_counts_answered_questions
    (draw : nat -> nat) (flashcards : list FlashcardMCQ) (events : list event) :
  flashcards <> [] ->
  fairDraw draw ->
  Forall fairEvent events ->
  exists st0 st,
    initializeQuiz draw flashcards = Some st0
    /\ play flashcards events st0 = Some st
    /\ Permutation flashcards (quizCards st)
    /\ (exists card, currentCard st = Some card /\ In card flashcards)
    /\ score st <= currentIndex st + (if showAnswer st then 1 else 0)
    /\ score st <= List.length flashcards.
Proof.
  intros Hne Hfair Hev.
  destruct (initializeQuiz_invariant Hne Hfair) as (st0 & E0 & Hinv0).
  exists st0.
  assert (Hplay : exists st, play flashcards events st0 = Some st /\ quizInvariant flashcards st).
  { clear E0. revert st0 Hinv0. induction Hev as [|e rest He Hrest IH]; intros st0 Hinv0.
    - exists st0. split; [reflexivity|exact Hinv0].
    - simpl. destruct (handle_invariant e Hne He Hinv0) as (st1 & E1 & Hinv1).
      rewrite E1. apply IH. exact Hinv1. }
  destruct Hplay as (st & E & Hp & Hi & Hs).
  exists st. split; [exact E0|]. split; [exact E|]. split; [exact Hp|].
  split; [|split; [exact Hs|]].
  - unfold currentCard. destruct (nth_error (quizCards st) (currentIndex st)) as [card|] eqn:En;
      [|apply nth_error_None in En; lia].
    exists card. split; [reflexivity|].
    apply (Permutation_in _ (Permutation_sym Hp)). eapply nth_error_In. exact En.
  - rewrite (Permutation_length Hp). destruct (showAnswer st); lia.
Qed.

Lemma quiz_score_counts_answered_questions_witness :
  exists st0 st,
    initializeQuiz (fun i => i) [card "k1" "p" None; card "k2" "q" None] = Some st0
    /\ play [card "k1" "p" None; card "k2" "q" None]
         [Select (str "a"); Select (str "a"); Next; Select (str "b"); Next] st0 = Some st
    /\ Permutation [card "k1" "p" None; card "k2" "q" None] (quizCards st)
    /\ (exists c, currentCard st = Some c /\ In c [card "k1" "p" None; card "k2" "q" None])
    /\ score st <= currentIndex st + (if showAnswer st then 1 else 0)
    /\ score st <= List.length [card "k1" "p" None; card "k2" "q" None].
Proof.
  apply (@quiz_score_counts_answered_questions (fun i => i)
           [card "k1" "p" None; card "k2" "q" None]
           [Select (str "a"); Select (str "a"); Next; Select (str "b"); Next]).
  - discriminate.
  - intros i. lia.
  - repeat constructor.
Defined.

Lemma answerCorrectly_counts (rounds : nat) :
  forall st,
  showAnswer st = false ->
  currentIndex st + S rounds = List.length (quizCards st) ->
  exists st',
    answerCorrectly (S rounds) st = Some st'
    /\ score st' = score st + S rounds
    /\ quizFinished st' = true
    /\ quizCards st' = quizCards st.
Proof.
  induction rounds as [|r IH]; intros st Ha Hlen.
  - simpl. unfold currentCard, handleOptionSelect, currentCard. rewrite Ha.
    destruct (nth_error (quizCards st) (currentIndex st)) as [card|] eqn:En;
      [|apply nth_error_None in En; lia].
    rewrite jsstring_eqb_refl. eexists. split; [reflexivity|].
    unfold handleNextQuestion. cbn [currentIndex quizCards].
    destruct (Z.ltb_spec (Z.of_nat (currentIndex st))
                (Z.of_nat (List.length (quizCards st)) - 1)); [lia|].
    simpl. split; [lia|]. split; reflexivity.
  - change (answerCorrectly (S (S r)) st)
      with (match currentCard st with
            | None => None
            | Some card =>
                match handleOptionSelect (correctOptionId card) st with
                | Some st' => answerCorrectly (S r) (handleNextQuestion st')
                | None => None
                end
            end).
    unfold currentCard at 1, handleOptionSelect, currentCard. rewrite Ha.
    destruct (nth_error (quizCards st) (currentIndex st)) as [card|] eqn:En;
      [|apply nth_error_None in En; lia].
    rewrite jsstring_eqb_refl.
    match goal with
    | |- context [answerCorrectly (S r) ?s1] =>
        destruct (IH s1) as (st' & E & Hs & Hf & Hc)
    end.
    + unfold handleNextQuestion. cbn [currentIndex quizCards].
      destruct (Z.ltb_spec (Z.of_nat (currentIndex st))
                  (Z.of_nat (List.length (quizCards st)) - 1)); [reflexivity|lia].
    + unfold handleNextQuestion. cbn [currentIndex quizCards].
      destruct (Z.ltb_spec (Z.of_nat (currentIndex st))
                  (Z.of_nat (List.length (quizCards st)) - 1)); [simpl; lia|lia].
    + exists st'. split; [exact E|].
      revert Hs Hc. unfold handleNextQuestion. cbn [currentIndex quizCards].
      destruct (Z.ltb_spec (Z.of_nat (currentIndex st))
                  (Z.of_nat (List.length (quizCards st)) - 1)); [|lia].
      simpl. intros Hs Hc. split; [lia|]. split; [exact Hf|exact Hc].
Qed.

(** X26.  A perfect run gets full marks.  Picking, for every card in
    turn, the option whose id is the card's [correctOptionId] and going on
    ends the quiz on the last card with a score equal to the number of
    cards in the deck. *)
Theorem perfect_run_scores_every_card
    (draw : nat -> nat) (flashcards : list FlashcardMCQ) :
  flashcards <> [] ->
  fairDraw draw ->
  exists st0 st,
    initializeQuiz draw flashcards = Some st0
    /\ answerCorrectly (List.length flashcards) st0 = Some st
    /\ quizFinished st = true
    /\ score st = List.length flashcards.
Proof.
  intros Hne Hfair.
  destruct (initializeQuiz_state flashcards Hfair) as (st0 & E0 & Hp & Hi & Hs & Ha & _).
  exists st0.
  destruct flashcards as [|c rest]; [destruct (Hne eq_refl)|].
  destruct (@answerCorrectly_counts (List.length rest) st0 Ha) as (st & E & Hsc & Hf & Hc).
  { rewrite Hi, <- (Permutation_length Hp). reflexivity. }
  exists st. split; [exact E0|]. split; [exact E|]. split; [exact Hf|].
  rewrite Hsc, Hs. reflexivity.
Qed.

Lemma perfect_run_scores_every_card_witness :
  exists st0 st,
    initializeQuiz (fun i => i) [card "k1" "p" None; card "k2" "q" None; card "k3" "r" None]
    = Some st0
    /\ answerCorrectly 3 st0 = Some st
    /\ quizFinished st = true
    /\ score st = 3.
Proof.
  apply (@perfect_run_scores_every_card (fun i => i)
           [card "k1" "p" None; card "k2" "q" None; card "k3" "r" None]).
  - discriminate.
  - intros i. lia.
Defined.

Lemma nth_error_freshOptions_id (gen : nat -> jsstring) (n : nat) (texts : list jsvalue)
    (k : nat) (o : MCQOption) :
  nth_error (freshOptions gen n texts) k = Some o ->
  id o = gen (n + k) /\ k < List.length texts.
Proof.
  intros En.
  assert (Hk : k < List.length texts).
  { rewrite <- (freshOptions_length gen n). apply nth_error_Some. rewrite En. discriminate. }
  split; [|exact Hk].
  assert (H : nth_error (map id (freshOptions gen n texts)) k = Some (id o))
    by (rewrite nth_error_map, En; reflexivity).
  rewrite freshOptions_ids, nth_error_map, nth_error_seq in H.
  destruct (Nat.ltb_spec k (List.length texts)) as [_|Hge]; [|lia].
  simpl in H. injection H as <-. reflexivity.
Qed.

(** X27.  After a generation the form pre-selects the right answer.  With
    identifiers that do not repeat, whenever [generateMCQWithGemini]
    returns, the index that [handleGenerateWithAI] computes from the result
    is not [null] and names the generated option whose id is the result's
    [correctOptionId]. *)
Theorem generated_answer_is_preselected
    (P : platform) (topic : jsstring) (numOptions : Q)
    (w : world) (g : GeneratedMCQ) (w' : world) :
  (forall i j, uuid P i = uuid P j -> i = j) ->
  generateMCQWithGemini P topic numOptions w = (Ok g, w') ->
  exists k o,
    generatedCorrectIndex g = Some k
    /\ nth_error (genOptions g) k = Some o
    /\ genCorrectOptionId g = id o.
Proof.
  intros Hinj E.
  destruct (generate_returns P topic numOptions _ E) as (n & texts & Hopts & o & Ho & Hid).
  apply In_nth_error in Ho. destruct Ho as [k Hk].
  exists k, o. split; [|split; [exact Hk|exact Hid]].
  unfold generatedCorrectIndex. rewrite Hid. rewrite Hopts in Hk |- *.
  destruct (nth_error_freshOptions_id _ _ _ _ Hk) as [-> Hlt].
  apply findIndex_fresh; assumption.
Qed.

Lemma generated_answer_is_preselected_witness :
  exists k o,
    generatedCorrectIndex
      (match fst (generateMCQWithGemini
                    (replying (json "{'question':'Q','options':['a','b','c','d'],'correctOptionIndex':2}"))
                    (str "Botany") 4%Q initial) with
       | Ok g => g
       | Throw _ => {| genQuestion := JNull; genOptions := []; genCorrectOptionId := [];
                       genTopic := JNull; genExplanation := None |}
       end) = Some k
    /\ nth_error
         (genOptions
            (match fst (generateMCQWithGemini
                          (replying (json "{'question':'Q','options':['a','b','c','d'],'correctOptionIndex':2}"))
                          (str "Botany") 4%Q initial) with
             | Ok g => g
             | Throw _ => {| genQuestion := JNull; genOptions := []; genCorrectOptionId := [];
                             genTopic := JNull; genExplanation := None |}
             end)) k = Some o
    /\ genCorrectOptionId
         (match fst (generateMCQWithGemini
                       (replying (json "{'question':'Q','options':['a','b','c','d'],'correctOptionIndex':2}"))
                       (str "Botany") 4%Q initial) with
          | Ok g => g
          | Throw _ => {| genQuestion := JNull; genOptions := []; genCorrectOptionId := [];
                          genTopic := JNull; genExplanation := None |}
          end) = id o.
Proof.
  eapply (@generated_answer_is_preselected
            (replying (json "{'question':'Q','options':['a','b','c','d'],'correctOptionIndex':2}"))
            (str "Botany") 4%Q initial _ _ serial_injective).
  vm_compute. reflexivity.
Defined.
